(** * Scene graph: transform hierarchy, LOD selection, frustum culling and
      the textual serializer of [Graph.cpp], as a shallow embedding.

    Scalars are IEEE-754 binary32 values ([float] of the C++ source), taken
    from the Standard Library's [SpecFloat] with [prec = 24], [emax = 128].
    The GLM functions the source calls are transcribed from GLM's scalar
    (non-SIMD) code paths.  Nodes live in a store indexed by addresses: a
    [SceneNodePtr] is an address, the children vector a list of addresses and
    the parent back-reference an optional address. *)

From Stdlib Require Import ZArith Lia Ascii String Sorted DecimalN.
From Stdlib Require Import Floats.SpecFloat.
From stdpp Require Import base option list sorting gmap.

Local Open Scope Z_scope.

(* ===================================================================== *)
(** ** Scalars: binary32 *)

Definition prec : Z := 24.
Definition emax : Z := 128.

Definition float : Type := spec_float.

Definition fadd : float -> float -> float := SFadd prec emax.
Definition fsub : float -> float -> float := SFsub prec emax.
Definition fmul : float -> float -> float := SFmul prec emax.
Definition fdiv : float -> float -> float := SFdiv prec emax.
Definition fsqrt : float -> float := SFsqrt prec emax.
Definition fneg : float -> float := SFopp.
Definition fltb : float -> float -> bool := SFltb.
Definition fleb : float -> float -> bool := SFleb.

(** The binary32 value of an integer literal such as [1.0f] or [-1]. *)
Definition float_of_Z (z : Z) : float := binary_normalize prec emax z 0 false.

Definition f0 : float := S754_zero false.
Definition f1 : float := Eval vm_compute in float_of_Z 1.
Definition f2 : float := Eval vm_compute in float_of_Z 2.
Definition fm1 : float := Eval vm_compute in float_of_Z (-1).

#[global] Arguments fadd : simpl never.
#[global] Arguments fsub : simpl never.
#[global] Arguments fmul : simpl never.
#[global] Arguments fdiv : simpl never.
#[global] Arguments fsqrt : simpl never.
#[global] Arguments fltb : simpl never.
#[global] Arguments fleb : simpl never.

#[global] Instance float_eq_dec : EqDecision float.
Proof. solve_decision. Defined.

Declare Scope float_scope.
Delimit Scope float_scope with flt.
Infix "+" := fadd : float_scope.
Infix "-" := fsub : float_scope.
Infix "*" := fmul : float_scope.
Infix "/" := fdiv : float_scope.

(* ===================================================================== *)
(** ** The part of GLM the source uses *)

Module GLM.

Record vec3 : Type := mkVec3 { v3x : float; v3y : float; v3z : float }.
Record vec4 : Type :=
  mkVec4 { v4x : float; v4y : float; v4z : float; v4w : float }.

(** [glm::quat] stores (x, y, z, w); its four-scalar constructor takes
    (w, x, y, z). *)
Record quat : Type :=
  mkQuatXYZW { qx : float; qy : float; qz : float; qw : float }.

(** [glm::quat(w, x, y, z)], the constructor [{a, b, c, d}] resolves to. *)
Definition quat_wxyz (w x y z : float) : quat := mkQuatXYZW x y z w.

(** [glm::mat4] is column-major: [m[i]] is column [i]. *)
Record mat4 : Type :=
  mkMat4 { col0 : vec4; col1 : vec4; col2 : vec4; col3 : vec4 }.

#[global] Instance vec3_eq_dec : EqDecision vec3.
Proof. solve_decision. Defined.
#[global] Instance vec4_eq_dec : EqDecision vec4.
Proof. solve_decision. Defined.
#[global] Instance quat_eq_dec : EqDecision quat.
Proof. solve_decision. Defined.
#[global] Instance mat4_eq_dec : EqDecision mat4.
Proof. solve_decision. Defined.

(** [vec3(s)]: all components [s]. *)
Definition vec3_splat (s : float) : vec3 := mkVec3 s s s.

(** [quat()] where GLM's constructors initialise (before 0.9.9, or with
    [GLM_FORCE_CTOR_INIT]): the identity rotation, w = 1.  Where they do
    not, the value-initialised quaternion is all zero; [mat4_cast] makes
    the identity matrix of either. *)
Definition quat_identity : quat := quat_wxyz f1 f0 f0 f0.

(** [mat4(s)]: [s] on the diagonal. *)
Definition mat4_diag (s : float) : mat4 :=
  mkMat4 (mkVec4 s f0 f0 f0) (mkVec4 f0 s f0 f0)
         (mkVec4 f0 f0 s f0) (mkVec4 f0 f0 f0 s).

Definition vec4_add (a b : vec4) : vec4 :=
  mkVec4 (v4x a + v4x b)%flt (v4y a + v4y b)%flt
         (v4z a + v4z b)%flt (v4w a + v4w b)%flt.

Definition vec4_sub (a b : vec4) : vec4 :=
  mkVec4 (v4x a - v4x b)%flt (v4y a - v4y b)%flt
         (v4z a - v4z b)%flt (v4w a - v4w b)%flt.

(** [v * s] for a column [v] and a scalar [s]. *)
Definition vec4_scale (v : vec4) (s : float) : vec4 :=
  mkVec4 (v4x v * s)%flt (v4y v * s)%flt (v4z v * s)%flt (v4w v * s)%flt.

(** [p /= l]. *)
Definition vec4_div (v : vec4) (l : float) : vec4 :=
  mkVec4 (v4x v / l)%flt (v4y v / l)%flt (v4z v / l)%flt (v4w v / l)%flt.

(** [glm::vec3(v)] of a [vec4]: drops [w]. *)
Definition vec3_of_vec4 (v : vec4) : vec3 := mkVec3 (v4x v) (v4y v) (v4z v).

(** [vec4(p, w)]. *)
Definition vec4_of_vec3 (p : vec3) (w : float) : vec4 :=
  mkVec4 (v3x p) (v3y p) (v3z p) w.

(** [glm::dot] on [vec3]: [tmp = a * b; tmp.x + tmp.y + tmp.z]. *)
Definition dot3 (a b : vec3) : float :=
  ((v3x a * v3x b) + (v3y a * v3y b) + (v3z a * v3z b))%flt.

(** [glm::length] on [vec3]: [sqrt(dot(v, v))]. *)
Definition length3 (v : vec3) : float := fsqrt (dot3 v v).

(** [glm::row(m, i)]: component [i] of every column. *)
Definition mat4_row (m : mat4) (i : nat) : vec4 :=
  let pick (c : vec4) :=
    match i with
    | 0%nat => v4x c | 1%nat => v4y c | 2%nat => v4z c | _ => v4w c
    end in
  mkVec4 (pick (col0 m)) (pick (col1 m)) (pick (col2 m)) (pick (col3 m)).

(** [m * v]: [(m[0]*v.x + m[1]*v.y) + (m[2]*v.z + m[3]*v.w)]. *)
Definition mat4_mul_vec4 (m : mat4) (v : vec4) : vec4 :=
  vec4_add
    (vec4_add (vec4_scale (col0 m) (v4x v)) (vec4_scale (col1 m) (v4y v)))
    (vec4_add (vec4_scale (col2 m) (v4z v)) (vec4_scale (col3 m) (v4w v))).

(** One column of [a * b]:
    [a[0]*c.x + a[1]*c.y + a[2]*c.z + a[3]*c.w], summed left to right. *)
Definition mat4_mul_col (a : mat4) (c : vec4) : vec4 :=
  vec4_add
    (vec4_add
       (vec4_add (vec4_scale (col0 a) (v4x c)) (vec4_scale (col1 a) (v4y c)))
       (vec4_scale (col2 a) (v4z c)))
    (vec4_scale (col3 a) (v4w c)).

(** [a * b] on [mat4]. *)
Definition mat4_mul (a b : mat4) : mat4 :=
  mkMat4 (mat4_mul_col a (col0 b)) (mat4_mul_col a (col1 b))
         (mat4_mul_col a (col2 b)) (mat4_mul_col a (col3 b)).

(** [glm::translate(m, v)]: only the last column changes,
    [m[0]*v.x + m[1]*v.y + m[2]*v.z + m[3]]. *)
Definition translate (m : mat4) (v : vec3) : mat4 :=
  mkMat4 (col0 m) (col1 m) (col2 m)
    (vec4_add
       (vec4_add
          (vec4_add (vec4_scale (col0 m) (v3x v))
                    (vec4_scale (col1 m) (v3y v)))
          (vec4_scale (col2 m) (v3z v)))
       (col3 m)).

(** [glm::scale(m, v)]: the first three columns are scaled. *)
Definition scale (m : mat4) (v : vec3) : mat4 :=
  mkMat4 (vec4_scale (col0 m) (v3x v)) (vec4_scale (col1 m) (v3y v))
         (vec4_scale (col2 m) (v3z v)) (col3 m).

(** [glm::mat4_cast(q)]: the rotation matrix of [q], through [mat3_cast]. *)
Definition mat4_cast (q : quat) : mat4 :=
  let qxx := (qx q * qx q)%flt in
  let qyy := (qy q * qy q)%flt in
  let qzz := (qz q * qz q)%flt in
  let qxz := (qx q * qz q)%flt in
  let qxy := (qx q * qy q)%flt in
  let qyz := (qy q * qz q)%flt in
  let qwx := (qw q * qx q)%flt in
  let qwy := (qw q * qy q)%flt in
  let qwz := (qw q * qz q)%flt in
  mkMat4
    (mkVec4 (f1 - f2 * (qyy + qzz))%flt (f2 * (qxy + qwz))%flt
            (f2 * (qxz - qwy))%flt f0)
    (mkVec4 (f2 * (qxy - qwz))%flt (f1 - f2 * (qxx + qzz))%flt
            (f2 * (qyz + qwx))%flt f0)
    (mkVec4 (f2 * (qxz + qwy))%flt (f2 * (qyz - qwx))%flt
            (f1 - f2 * (qxx + qyy))%flt f0)
    (mkVec4 f0 f0 f0 f1).

End GLM.
Import GLM.

(* ===================================================================== *)
(** ** Transform *)

Record Transform : Type := mkTransform {
  position : vec3;
  rotation : quat;
  scale : vec3;
  localMatrix : mat4;
  dirty : bool
}.

(** [Transform::Transform()]. *)
Definition Transform_new : Transform :=
  mkTransform (vec3_splat f0) quat_identity (vec3_splat f1)
              (mat4_diag f1) true.

Definition setPosition (pos : vec3) (t : Transform) : Transform :=
  mkTransform pos (rotation t) (scale t) (localMatrix t) true.

Definition setRotation (rot : quat) (t : Transform) : Transform :=
  mkTransform (position t) rot (scale t) (localMatrix t) true.

Definition setScale (scl : vec3) (t : Transform) : Transform :=
  mkTransform (position t) (rotation t) scl (localMatrix t) true.

Definition getPosition (t : Transform) : vec3 := position t.
Definition getRotation (t : Transform) : quat := rotation t.
Definition getScale (t : Transform) : vec3 := scale t.

(** The matrix [getMatrix] builds when the cache is dirty: [t * r * s]. *)
Definition compose_trs (pos : vec3) (rot : quat) (scl : vec3) : mat4 :=
  let t := translate (mat4_diag f1) pos in
  let r := mat4_cast rot in
  let s := GLM.scale (mat4_diag f1) scl in
  mat4_mul (mat4_mul t r) s.

#[global] Arguments compose_trs : simpl never.

(** [Transform::getMatrix]: the result and the transform with its
    [mutable] cache fields written. *)
Definition getMatrix (t : Transform) : mat4 * Transform :=
  if dirty t then
    let m := compose_trs (position t) (rotation t) (scale t) in
    (m, mkTransform (position t) (rotation t) (scale t) m false)
  else (localMatrix t, t).

(** A use of the [Transform] interface, as a caller can issue it. *)
Inductive TransformOp : Type :=
  | OpSetPosition (pos : vec3)
  | OpSetRotation (rot : quat)
  | OpSetScale (scl : vec3)
  | OpGetMatrix.

Definition is_mutation (op : TransformOp) : bool :=
  match op with OpGetMatrix => false | _ => true end.

Definition apply_op (t : Transform) (op : TransformOp) : Transform :=
  match op with
  | OpSetPosition pos => setPosition pos t
  | OpSetRotation rot => setRotation rot t
  | OpSetScale scl => setScale scl t
  | OpGetMatrix => snd (getMatrix t)
  end.

Definition run_ops (ops : list TransformOp) (t : Transform) : Transform :=
  fold_left apply_op ops t.

(** The component values in force after [ops]: the last one set, or the
    one given before [ops] when [ops] never sets it. *)
Definition last_position (ops : list TransformOp) (p0 : vec3) : vec3 :=
  fold_left (fun p op => match op with OpSetPosition v => v | _ => p end)
            ops p0.
Definition last_rotation (ops : list TransformOp) (q0 : quat) : quat :=
  fold_left (fun q op => match op with OpSetRotation v => v | _ => q end)
            ops q0.
Definition last_scale (ops : list TransformOp) (s0 : vec3) : vec3 :=
  fold_left (fun s op => match op with OpSetScale v => v | _ => s end)
            ops s0.

(** Cache invariant of the class: a clean cache holds the composition of
    the current components. *)
Definition cache_ok (t : Transform) : Prop :=
  dirty t = false ->
  localMatrix t = compose_trs (position t) (rotation t) (scale t).

(* ===================================================================== *)
(** ** Bounding boxes and level of detail *)

Record BoundingBox : Type := mkBoundingBox { bbmin : vec3; bbmax : vec3 }.

Record LODLevel : Type :=
  mkLODLevel { distanceThreshold : float; meshName : string }.

Record LOD : Type := mkLOD { levels : list LODLevel }.

#[global] Instance BoundingBox_eq_dec : EqDecision BoundingBox.
Proof. solve_decision. Defined.
#[global] Instance LODLevel_eq_dec : EqDecision LODLevel.
Proof. solve_decision. Defined.

(** The comparator [addLevel] hands to [std::sort]. *)
Definition lod_less (a b : LODLevel) : bool :=
  fltb (distanceThreshold a) (distanceThreshold b).

(** [std::sort] as libstdc++ runs it on short ranges: an insertion sort.
    [unguarded_linear_insert] walks left from the end of the sorted prefix
    (given here last element first) while the value is less than the
    element before it. *)
Fixpoint unguarded_linear_insert (val : LODLevel) (rev_prefix : list LODLevel)
  : list LODLevel :=
  match rev_prefix with
  | [] => [val]
  | p :: ps =>
      if lod_less val p then p :: unguarded_linear_insert val ps
      else val :: p :: ps
  end.

Definition insertion_step (prefix : list LODLevel) (val : LODLevel)
  : list LODLevel :=
  match prefix with
  | [] => [val]
  | first :: _ =>
      if lod_less val first then val :: prefix
      else rev (unguarded_linear_insert val (rev prefix))
  end.

Definition std_sort (l : list LODLevel) : list LODLevel :=
  fold_left insertion_step l [].

(** [LOD::addLevel]. *)
Definition addLevel (distance : float) (mesh : string) (lod : LOD) : LOD :=
  mkLOD (std_sort (levels lod ++ [mkLODLevel distance mesh])).

(** The [for] loop of [LOD::getMesh]: the first level the distance is
    below, if there is one. *)
Fixpoint getMesh_scan (distance : float) (lvls : list LODLevel)
  : option string :=
  match lvls with
  | [] => None
  | lvl :: rest =>
      if fltb distance (distanceThreshold lvl) then Some (meshName lvl)
      else getMesh_scan distance rest
  end.

(** [LOD::getMesh]. *)
Definition getMesh (lod : LOD) (distance : float) : string :=
  match getMesh_scan distance (levels lod) with
  | Some m => m
  | None =>
      match last (levels lod) with
      | None => EmptyString
      | Some lvl => meshName lvl
      end
  end.

(** Ascending by threshold, as [std::sort] with [lod_less] leaves a range:
    no level is less than one before it. *)
Definition lod_sorted (lvls : list LODLevel) : Prop :=
  StronglySorted (fun a b => lod_less b a = false) lvls.

(* ===================================================================== *)
(** ** Scene nodes in a store *)

Abbreviation addr := nat (only parsing).

Record SceneNode : Type := mkSceneNode {
  name : string;
  transform : Transform;
  parent : option addr;
  children : list addr;
  boundingBox : BoundingBox;
  lod : LOD;
  visible : bool
}.

(** The store: the nodes that are alive, by address. *)
Abbreviation heap := (gmap nat SceneNode) (only parsing).

(** [SceneNode::SceneNode(n)]. *)
Definition SceneNode_new (n : string) : SceneNode :=
  mkSceneNode n Transform_new None []
    (mkBoundingBox (mkVec3 fm1 fm1 fm1) (mkVec3 f1 f1 f1))
    (mkLOD []) true.

Definition set_transform (t : Transform) (n : SceneNode) : SceneNode :=
  mkSceneNode (name n) t (parent n) (children n) (boundingBox n) (lod n)
              (visible n).
Definition set_parent (p : option addr) (n : SceneNode) : SceneNode :=
  mkSceneNode (name n) (transform n) p (children n) (boundingBox n) (lod n)
              (visible n).
Definition set_children (cs : list addr) (n : SceneNode) : SceneNode :=
  mkSceneNode (name n) (transform n) (parent n) cs (boundingBox n) (lod n)
              (visible n).
Definition set_boundingBox (bb : BoundingBox) (n : SceneNode) : SceneNode :=
  mkSceneNode (name n) (transform n) (parent n) (children n) bb (lod n)
              (visible n).
Definition set_lod (l : LOD) (n : SceneNode) : SceneNode :=
  mkSceneNode (name n) (transform n) (parent n) (children n) (boundingBox n)
              l (visible n).
Definition set_visible (v : bool) (n : SceneNode) : SceneNode :=
  mkSceneNode (name n) (transform n) (parent n) (children n) (boundingBox n)
              (lod n) v.

(** [std::make_shared<SceneNode>(n)]: a node at an address not in use. *)
Definition make_shared (n : string) (h : heap) : addr * heap :=
  let a := fresh (dom h) in (a, <[a := SceneNode_new n]> h).

(** [weak_ptr::lock]: the parent, when one is recorded and still alive. *)
Definition lock (h : heap) (p : option addr) : option addr :=
  match p with
  | Some a => match h !! a with Some _ => Some a | None => None end
  | None => None
  end.

(** [this->addChild(child)], for live [this] and [child]. *)
Definition addChild (this child : addr) (h : heap) : heap :=
  let h1 := alter (set_parent (Some this)) child h in
  alter (fun n => set_children (children n ++ [child]) n) this h1.

(** [std::remove(first, last, value)] followed by [erase]: every element
    equal to [value] goes, the others keep their order.  Two
    [SceneNodePtr] are equal when they hold the same address. *)
Definition erase_remove (value : addr) (v : list addr) : list addr :=
  filter (fun x => x <> value) v.

(** [this->removeChild(child)]. *)
Definition removeChild (this child : addr) (h : heap) : heap :=
  alter (fun n => set_children (erase_remove child (children n)) n) this h.

(** [this->getWorldMatrix()].  The recursion follows parent
    back-references, which the class does not keep acyclic, so it is
    bounded by [fuel]: [None] is a call that has not returned within
    [fuel] frames (or a [this] that is not alive).  Each [getMatrix] on
    the way writes that node's cache, so the store is returned too. *)
Fixpoint getWorldMatrix (fuel : nat) (this : addr) (h : heap)
  : option (mat4 * heap) :=
  match fuel with
  | O => None
  | S fuel' =>
      n ← h !! this;
      match lock h (parent n) with
      | Some p =>
          '(pm, h1) ← getWorldMatrix fuel' p h;
          n1 ← h1 !! this;
          let '(m, t') := getMatrix (transform n1) in
          Some (mat4_mul pm m, <[this := set_transform t' n1]> h1)
      | None =>
          let '(m, t') := getMatrix (transform n) in
          Some (m, <[this := set_transform t' n]> h)
      end
  end.

(* ===================================================================== *)
(** ** Frustum culling *)

Record FrustumCuller : Type := mkFrustumCuller { planes : list vec4 }.

(** [FrustumCuller::extractPlanes]. *)
Definition extractPlanes (m : mat4) : list vec4 :=
  let raw :=
    [ vec4_add (mat4_row m 3) (mat4_row m 0);
      vec4_sub (mat4_row m 3) (mat4_row m 0);
      vec4_add (mat4_row m 3) (mat4_row m 1);
      vec4_sub (mat4_row m 3) (mat4_row m 1);
      vec4_add (mat4_row m 3) (mat4_row m 2);
      vec4_sub (mat4_row m 3) (mat4_row m 2) ] in
  map (fun p => vec4_div p (length3 (vec3_of_vec4 p))) raw.

(** [FrustumCuller::FrustumCuller(projView)]. *)
Definition FrustumCuller_new (projView : mat4) : FrustumCuller :=
  mkFrustumCuller (extractPlanes projView).

(** [pts]: the eight corners of the box, in the order of the source. *)
Definition corners (bb : BoundingBox) : list vec3 :=
  let lo := bbmin bb in
  let hi := bbmax bb in
  [ mkVec3 (v3x lo) (v3y lo) (v3z lo); mkVec3 (v3x hi) (v3y lo) (v3z lo);
    mkVec3 (v3x lo) (v3y hi) (v3z lo); mkVec3 (v3x hi) (v3y hi) (v3z lo);
    mkVec3 (v3x lo) (v3y lo) (v3z hi); mkVec3 (v3x hi) (v3y lo) (v3z hi);
    mkVec3 (v3x lo) (v3y hi) (v3z hi); mkVec3 (v3x hi) (v3y hi) (v3z hi) ].

(** [glm::dot(vec3(plane), vec3(wp)) + plane.w] for [wp = wm * vec4(p, 1)]. *)
Definition signed_distance (plane : vec4) (wm : mat4) (p : vec3) : float :=
  let wp := mat4_mul_vec4 wm (vec4_of_vec3 p f1) in
  (dot3 (vec3_of_vec4 plane) (vec3_of_vec4 wp) + v4w plane)%flt.

(** The test [... < 0] of the inner loop. *)
Definition outside (plane : vec4) (wm : mat4) (p : vec3) : bool :=
  fltb (signed_distance plane wm p) f0.

(** The inner loop: [out] after all points. *)
Definition count_out (plane : vec4) (wm : mat4) (pts : list vec3) : Z :=
  fold_left (fun out p => if outside plane wm p then out + 1 else out) pts 0.

(** The outer loop: [true] when some plane has [out == 8]. *)
Fixpoint some_plane_rejects (pls : list vec4) (wm : mat4) (pts : list vec3)
  : bool :=
  match pls with
  | [] => false
  | plane :: rest =>
      if count_out plane wm pts =? 8 then true
      else some_plane_rejects rest wm pts
  end.

(** [FrustumCuller::isVisible(node)]: the result and the store with the
    node's flag (and the matrix caches on the way up) written. *)
Definition isVisible (c : FrustumCuller) (fuel : nat) (node : addr)
  (h : heap) : option (bool * heap) :=
  '(wm, h1) ← getWorldMatrix fuel node h;
  n ← h1 !! node;
  let pts := corners (boundingBox n) in
  if some_plane_rejects (planes c) wm pts
  then Some (false, <[node := set_visible false n]> h1)
  else Some (true, <[node := set_visible true n]> h1).

(* ===================================================================== *)
(** ** Characters and decimal digits *)

(** The newline character, ["\n"]. *)
Definition nl : ascii := ascii_of_nat 10.

(** A string literal of the source, as the characters written. *)
Definition lit (s : string) : list ascii := list_ascii_of_string s.

(** [isspace] in the "C" locale: space, and the controls 9 to 13. *)
Definition is_space (c : ascii) : bool :=
  let n := nat_of_ascii c in
  Nat.eqb n 32 || (Nat.leb 9 n && Nat.leb n 13).

Definition is_digit (c : ascii) : bool :=
  let n := nat_of_ascii c in Nat.leb 48 n && Nat.leb n 57.

Definition is_sign (c : ascii) : bool :=
  Ascii.eqb c "+" || Ascii.eqb c "-".

Definition is_exp_char (c : ascii) : bool :=
  Ascii.eqb c "e" || Ascii.eqb c "E".

Fixpoint chars_of_uint (d : Decimal.uint) : list ascii :=
  match d with
  | Decimal.Nil => []
  | Decimal.D0 d => "0"%char :: chars_of_uint d
  | Decimal.D1 d => "1"%char :: chars_of_uint d
  | Decimal.D2 d => "2"%char :: chars_of_uint d
  | Decimal.D3 d => "3"%char :: chars_of_uint d
  | Decimal.D4 d => "4"%char :: chars_of_uint d
  | Decimal.D5 d => "5"%char :: chars_of_uint d
  | Decimal.D6 d => "6"%char :: chars_of_uint d
  | Decimal.D7 d => "7"%char :: chars_of_uint d
  | Decimal.D8 d => "8"%char :: chars_of_uint d
  | Decimal.D9 d => "9"%char :: chars_of_uint d
  end.

Definition digit_cons (c : ascii) (d : Decimal.uint) : Decimal.uint :=
  match (nat_of_ascii c - 48)%nat with
  | 0%nat => Decimal.D0 d
  | 1%nat => Decimal.D1 d
  | 2%nat => Decimal.D2 d
  | 3%nat => Decimal.D3 d
  | 4%nat => Decimal.D4 d
  | 5%nat => Decimal.D5 d
  | 6%nat => Decimal.D6 d
  | 7%nat => Decimal.D7 d
  | 8%nat => Decimal.D8 d
  | _ => Decimal.D9 d
  end.

(** The number a run of digit characters denotes. *)
Definition uint_of_chars (cs : list ascii) : Decimal.uint :=
  foldr digit_cons Decimal.Nil cs.

Definition Z_of_digits (cs : list ascii) : Z :=
  Z.of_N (N.of_uint (uint_of_chars cs)).

(** Decimal digits of a natural number, as [operator<<] writes a
    [size_t]. *)
Definition show_size (n : nat) : list ascii :=
  chars_of_uint (N.to_uint (N.of_nat n)).

(* ===================================================================== *)
(** ** Writing a [float]: [operator<<] with the stream's default flags,
       that is [printf("%g")] with precision 6 *)

(** [num / den < 10^k]. *)
Definition below_pow10 (num den k : Z) : bool :=
  if 0 <=? k then num <? 10 ^ k * den else num * 10 ^ (- k) <? den.

(** The decimal exponent [X] with [10^X <= num/den < 10^(X+1)], searched
    from [k]. *)
Fixpoint decimal_exponent (fuel : nat) (num den k : Z) : Z :=
  match fuel with
  | O => k
  | S fuel' =>
      if below_pow10 num den k then decimal_exponent fuel' num den (k - 1)
      else if below_pow10 num den (k + 1) then k
      else decimal_exponent fuel' num den (k + 1)
  end.

(** [a / b] rounded to the nearest integer, ties to even. *)
Definition round_half_even (a b : Z) : Z :=
  let q := a / b in
  match 2 * (a mod b) ?= b with
  | Lt => q
  | Gt => q + 1
  | Eq => if Z.even q then q else q + 1
  end.

(** [num / den] scaled to six significant digits for exponent [X]. *)
Definition six_digits (num den X : Z) : Z :=
  let k := 5 - X in
  if 0 <=? k then round_half_even (num * 10 ^ k) den
  else round_half_even num (den * 10 ^ (- k)).

Fixpoint drop_zeros (ds : list ascii) : list ascii :=
  match ds with
  | c :: r => if Ascii.eqb c "0" then drop_zeros r else ds
  | [] => []
  end.

Definition strip_trailing_zeros (ds : list ascii) : list ascii :=
  rev (drop_zeros (rev ds)).

(** The fraction with its point; nothing when no digit is left. *)
Definition fraction_part (ds : list ascii) : list ascii :=
  match strip_trailing_zeros ds with
  | [] => []
  | fp => "."%char :: fp
  end.

(** The exponent of the scientific style: a sign and at least two digits. *)
Definition exponent_part (X : Z) : list ascii :=
  let ds := chars_of_uint (N.to_uint (Z.to_N (Z.abs X))) in
  "e"%char :: (if X <? 0 then "-"%char else "+"%char)
  :: (if Z.abs X <? 10 then "0"%char :: ds else ds).

(** [%g] of the positive value [num / den]. *)
Definition show_positive (num den : Z) : list ascii :=
  let X0 := decimal_exponent 128 num den 0 in
  let D0 := six_digits num den X0 in
  let '(D, X) := if D0 =? 10 ^ 6 then (10 ^ 5, X0 + 1) else (D0, X0) in
  let ds := chars_of_uint (N.to_uint (Z.to_N D)) in
  if (-4 <=? X) && (X <? 6) then
    if 0 <=? X then
      take (Z.to_nat (X + 1)) ds ++ fraction_part (drop (Z.to_nat (X + 1)) ds)
    else
      "0"%char :: fraction_part (repeat "0"%char (Z.to_nat (- X - 1)) ++ ds)
  else
    take 1 ds ++ fraction_part (drop 1 ds) ++ exponent_part X.

Definition show_float (f : float) : list ascii :=
  match f with
  | S754_zero s => if s then lit "-0" else lit "0"
  | S754_infinity s => if s then lit "-inf" else lit "inf"
  | S754_nan => lit "nan"
  | S754_finite s m e =>
      let body :=
        if 0 <=? e then show_positive (Z.pos m * 2 ^ e) 1
        else show_positive (Z.pos m) (2 ^ (- e)) in
      if s then "-"%char :: body else body
  end.

(* ===================================================================== *)
(** ** Reading: [operator>>] on an input stream *)

(** An input stream: the characters not yet consumed, or a stream with
    [failbit] set, on which every later extraction fails. *)
Inductive istream : Type :=
  | Good (buf : list ascii)
  | Failed.

(** Leading whitespace is skipped by the sentry of every extraction. *)
Fixpoint skip_ws (b : list ascii) : list ascii :=
  match b with
  | c :: b' => if is_space c then skip_ws b' else b
  | [] => []
  end.

(** Characters are taken one at a time while the extraction accepts
    them; the first one refused stays in the stream. *)
Fixpoint scan {St : Type} (step : St -> ascii -> option St) (st : St)
  (b : list ascii) : St * list ascii :=
  match b with
  | [] => (st, [])
  | c :: b' =>
      match step st c with
      | Some st' => scan step st' b'
      | None => (st, b)
      end
  end.

(** [is >> str]: up to the next whitespace. *)
Definition word_step (acc : list ascii) (c : ascii) : option (list ascii) :=
  if is_space c then None else Some (acc ++ [c]).

(** The value written to the variable ([None]: the variable is left as it
    was, the sentry having failed) and the stream afterwards. *)
Definition read_word (s : istream) : option string * istream :=
  match s with
  | Failed => (None, Failed)
  | Good b =>
      match skip_ws b with
      | [] => (None, Failed)
      | b' => let '(w, rest) := scan word_step [] b' in
              (Some (string_of_list_ascii w), Good rest)
      end
  end.

(** [is >> n] for [int n]: an optional sign and decimal digits. *)
Record iscan : Type := mkIscan { itext : list ascii; isign_ok : bool }.

Definition int_step (st : iscan) (c : ascii) : option iscan :=
  if is_digit c then Some (mkIscan (itext st ++ [c]) false)
  else if is_sign c && isign_ok st then Some (mkIscan (itext st ++ [c]) false)
  else None.

Definition int_max : Z := 2147483647.
Definition int_min : Z := -2147483648.

(** The value of the accumulated characters, and whether the conversion
    succeeded: no digit gives 0 and failure, a value out of range the
    nearest bound and failure. *)
Definition convert_int (t : list ascii) : Z * bool :=
  let '(neg, ds) :=
    match t with
    | c :: r => if is_sign c then (Ascii.eqb c "-", r) else (false, t)
    | [] => (false, [])
    end in
  match ds with
  | [] => (0, false)
  | _ =>
      let v := if neg then - Z_of_digits ds else Z_of_digits ds in
      if v <? int_min then (int_min, false)
      else if int_max <? v then (int_max, false)
      else (v, true)
  end.

Definition read_int (s : istream) : option Z * istream :=
  match s with
  | Failed => (None, Failed)
  | Good b =>
      match skip_ws b with
      | [] => (None, Failed)
      | b' =>
          let '(st, rest) := scan int_step (mkIscan [] true) b' in
          let '(v, ok) := convert_int (itext st) in
          (Some v, if ok then Good rest else Failed)
      end
  end.

(** [is >> x] for [float x]: the characters accumulated are an optional
    sign, digits with at most one point, and, once a digit has been seen,
    an exponent mark with an optional sign and digits. *)
Record fscan : Type := mkFscan {
  xtrc : list ascii;
  sign_ok : bool;
  found_mantissa : bool;
  found_dec : bool;
  found_sci : bool
}.

Definition float_step (st : fscan) (c : ascii) : option fscan :=
  if is_digit c then
    Some (mkFscan (xtrc st ++ [c]) false true (found_dec st) (found_sci st))
  else if is_sign c then
    if sign_ok st then
      Some (mkFscan (xtrc st ++ [c]) false (found_mantissa st) (found_dec st)
                    (found_sci st))
    else None
  else if Ascii.eqb c "." then
    if negb (found_dec st) && negb (found_sci st) then
      Some (mkFscan (xtrc st ++ [c]) false (found_mantissa st) true
                    (found_sci st))
    else None
  else if is_exp_char c then
    if negb (found_sci st) && found_mantissa st then
      Some (mkFscan (xtrc st ++ [c]) true true (found_dec st) true)
    else None
  else None.

Definition take_sign (t : list ascii) : bool * list ascii :=
  match t with
  | c :: r => if is_sign c then (Ascii.eqb c "-", r) else (false, t)
  | [] => (false, [])
  end.

Definition digit_step (acc : list ascii) (c : ascii) : option (list ascii) :=
  if is_digit c then Some (acc ++ [c]) else None.

(** A decimal literal taken apart: sign, the digits of the mantissa,
    how many of them follow the point, and the exponent.  [None] when
    the text is not a complete literal. *)
Definition parse_decimal (t : list ascii) : option (bool * list ascii * Z * Z) :=
  let '(neg, t1) := take_sign t in
  let '(ip, t2) := scan digit_step [] t1 in
  let '(fp, t3) :=
    match t2 with
    | c :: r => if Ascii.eqb c "." then scan digit_step [] r else ([], t2)
    | [] => ([], [])
    end in
  match ip ++ fp with
  | [] => None
  | ds =>
      match t3 with
      | [] => Some (neg, ds, Z.of_nat (length fp), 0)
      | c :: r =>
          if is_exp_char c then
            let '(eneg, r1) := take_sign r in
            let '(ed, r2) := scan digit_step [] r1 in
            match ed, r2 with
            | _ :: _, [] =>
                Some (neg, ds, Z.of_nat (length fp),
                      if eneg then - Z_of_digits ed else Z_of_digits ed)
            | _, _ => None
            end
          else None
      end
  end.

(** The binary32 value nearest to [(-1)^neg * m * 10^e10], ties to even. *)
Definition decimal_to_float (neg : bool) (m e10 : Z) : float :=
  match m with
  | Z.pos p =>
      if 0 <=? e10 then binary_round prec emax neg (p * Z.to_pos (10 ^ e10)) 0
      else
        let '(q, e, l) :=
          SFdiv_core_binary prec emax (Z.pos p) 0 (10 ^ (- e10)) 0 in
        binary_round_aux prec emax neg q e l
  | _ => S754_zero neg
  end.

Definition max_float : float := Eval vm_compute in SFmax_float prec emax.

(** [strtof] on the accumulated characters, as the stream uses it: the
    whole text has to be a literal, and a result out of range gives the
    largest finite value and failure. *)
Definition convert_float (t : list ascii) : float * bool :=
  match parse_decimal t with
  | None => (f0, false)
  | Some (neg, ds, fl, e) =>
      match decimal_to_float neg (Z_of_digits ds) (e - fl) with
      | S754_infinity s => (if s then fneg max_float else max_float, false)
      | v => (v, true)
      end
  end.

Definition fscan_start : fscan := mkFscan [] true false false false.

Definition read_float (s : istream) : option float * istream :=
  match s with
  | Failed => (None, Failed)
  | Good b =>
      match skip_ws b with
      | [] => (None, Failed)
      | b' =>
          let '(st, rest) := scan float_step fscan_start b' in
          let '(v, ok) := convert_float (xtrc st) in
          (Some v, if ok then Good rest else Failed)
      end
  end.

(** A float that comes back unchanged from its six-digit text. *)
Definition text_stable (f : float) : bool :=
  match scan float_step fscan_start (show_float f) with
  | (st, []) =>
      match convert_float (xtrc st) with
      | (v, true) => bool_decide (v = f)
      | _ => false
      end
  | _ => false
  end.

(* ===================================================================== *)
(** ** Serializer *)

(** [Serializer::serializeNode(node, os, indent)]: the characters written
    to [os].  The recursion follows the children vectors, which the class
    does not keep acyclic, so it is bounded by [fuel]; [None] is a call
    that has not returned within [fuel] frames, or one that reached a
    pointer to no live node. *)
Fixpoint serializeNode (fuel : nat) (node : addr) (h : heap) (indent : nat)
  : option (list ascii) :=
  match fuel with
  | O => None
  | S fuel' =>
      n ← h !! node;
      let ind := repeat " "%char indent in
      let pos := getPosition (transform n) in
      let rot := getRotation (transform n) in
      let scl := getScale (transform n) in
      let bb := boundingBox n in
      kids ← mapM (fun c => serializeNode fuel' c h (indent + 4)) (children n);
      Some (
        ind ++ lit "Node " ++ lit (name n) ++ [nl] ++
        ind ++ lit "  Position " ++ show_float (v3x pos) ++ lit " " ++
          show_float (v3y pos) ++ lit " " ++ show_float (v3z pos) ++ [nl] ++
        ind ++ lit "  Rotation " ++ show_float (qx rot) ++ lit " " ++
          show_float (qy rot) ++ lit " " ++ show_float (qz rot) ++ lit " " ++
          show_float (qw rot) ++ [nl] ++
        ind ++ lit "  Scale " ++ show_float (v3x scl) ++ lit " " ++
          show_float (v3y scl) ++ lit " " ++ show_float (v3z scl) ++ [nl] ++
        ind ++ lit "  LODLevels " ++ show_size (length (levels (lod n))) ++
          [nl] ++
        concat (map (fun lvl =>
                       ind ++ lit "    " ++
                       show_float (distanceThreshold lvl) ++ lit " " ++
                       lit (meshName lvl) ++ [nl])
                    (levels (lod n))) ++
        ind ++ lit "  BoundingBox " ++
          show_float (v3x (bbmin bb)) ++ lit " " ++
          show_float (v3y (bbmin bb)) ++ lit " " ++
          show_float (v3z (bbmin bb)) ++ lit " " ++
          show_float (v3x (bbmax bb)) ++ lit " " ++
          show_float (v3y (bbmax bb)) ++ lit " " ++
          show_float (v3z (bbmax bb)) ++ [nl] ++
        ind ++ lit "  Children " ++ show_size (length (children n)) ++ [nl] ++
        concat kids)
  end.

(** [Serializer::serialize(root, filename)]: the content the file gets. *)
Definition serialize (fuel : nat) (root : addr) (h : heap)
  : option (list ascii) :=
  serializeNode fuel root h 0.

(** What a call comes to: a normal return, the use of a variable that no
    extraction has written (undefined behaviour), or a recursion deeper
    than the fuel given. *)
Inductive outcome (A : Type) : Type :=
  | Returns (a : A)
  | Undefined
  | OutOfFuel.
Arguments Returns {A} a.
Arguments Undefined {A}.
Arguments OutOfFuel {A}.

#[global] Instance outcome_ret : MRet outcome := fun A a => Returns a.
#[global] Instance outcome_bind : MBind outcome := fun A B f m =>
  match m with
  | Returns a => f a
  | Undefined => Undefined
  | OutOfFuel => OutOfFuel
  end.

(** An extraction into a variable declared without initialiser, which is
    used afterwards. *)
Definition extracted {A : Type} (r : option A * istream)
  : outcome (A * istream) :=
  match r with
  | (Some v, s) => Returns (v, s)
  | (None, _) => Undefined
  end.

(** An extraction into a [std::string], which starts out empty. *)
Definition extracted_word (r : option string * istream) : string * istream :=
  (default EmptyString (fst r), snd r).

(** The loop over LOD levels in [deser]. *)
Fixpoint lod_loop (count : nat) (node : addr) (s : istream) (h : heap)
  : outcome (istream * heap) :=
  match count with
  | O => Returns (s, h)
  | S count' =>
      '(d, s) ← extracted (read_float s);
      let '(m, s) := extracted_word (read_word s) in
      let h := alter (fun n => set_lod (addLevel d m (lod n)) n) node h in
      lod_loop count' node s h
  end.

(** The loop over children in [deser]; [rec] is the recursive call. *)
Fixpoint child_loop
  (rec : istream -> heap -> outcome (option addr * istream * heap))
  (count : nat) (node : addr) (s : istream) (h : heap)
  : outcome (istream * heap) :=
  match count with
  | O => Returns (s, h)
  | S count' =>
      '(c, s, h) ← rec s h;
      let h := match c with
               | Some c => addChild node c h
               | None => h
               end in
      child_loop rec count' node s h
  end.

(** The lambda [deser] of [Serializer::deserialize]: the pointer returned
    ([None] for [nullptr]), the stream and the store afterwards. *)
Fixpoint deser (fuel : nat) (s : istream) (h : heap)
  : outcome (option addr * istream * heap) :=
  match fuel with
  | O => OutOfFuel
  | S fuel' =>
      let '(tok, s) := read_word s in
      match tok with
      | None => Returns (None, s, h)
      | Some t =>
          if negb (String.eqb t "Node") then Returns (None, s, h)
          else
            let '(nm, s) := extracted_word (read_word s) in
            let '(node, h) := make_shared nm h in
            let '(_, s) := read_word s in
            '(px, s) ← extracted (read_float s);
            '(py, s) ← extracted (read_float s);
            '(pz, s) ← extracted (read_float s);
            let h := alter (fun n => set_transform
                        (setPosition (mkVec3 px py pz) (transform n)) n)
                      node h in
            let '(_, s) := read_word s in
            '(rx, s) ← extracted (read_float s);
            '(ry, s) ← extracted (read_float s);
            '(rz, s) ← extracted (read_float s);
            '(rw, s) ← extracted (read_float s);
            let h := alter (fun n => set_transform
                        (setRotation (quat_wxyz rw rx ry rz) (transform n)) n)
                      node h in
            let '(_, s) := read_word s in
            '(sx, s) ← extracted (read_float s);
            '(sy, s) ← extracted (read_float s);
            '(sz, s) ← extracted (read_float s);
            let h := alter (fun n => set_transform
                        (setScale (mkVec3 sx sy sz) (transform n)) n)
                      node h in
            let '(_, s) := read_word s in
            '(lodCount, s) ← extracted (read_int s);
            '(s, h) ← lod_loop (Z.to_nat lodCount) node s h;
            let '(_, s) := read_word s in
            '(minx, s) ← extracted (read_float s);
            '(miny, s) ← extracted (read_float s);
            '(minz, s) ← extracted (read_float s);
            '(maxx, s) ← extracted (read_float s);
            '(maxy, s) ← extracted (read_float s);
            '(maxz, s) ← extracted (read_float s);
            let h := alter (fun n => set_boundingBox
                        (mkBoundingBox (mkVec3 minx miny minz)
                                       (mkVec3 maxx maxy maxz)) n)
                      node h in
            let '(_, s) := read_word s in
            '(childCount, s) ← extracted (read_int s);
            '(s, h) ← child_loop (deser fuel') (Z.to_nat childCount) node s h;
            Returns (Some node, s, h)
      end
  end.

(** [Serializer::deserialize(filename)] on a file with the given content,
    [None] being a file that cannot be opened. *)
Definition deserialize (fuel : nat) (file : option (list ascii)) (h : heap)
  : outcome (option addr * heap) :=
  match file with
  | Some content =>
      '(r, _, h') ← deser fuel (Good content) h;
      Returns (r, h')
  | None => Returns (None, h)
  end.

(* ===================================================================== *)
(** ** Reference definitions for the statements *)


(** A name that [operator>>] reads back whole: not empty, no whitespace. *)
Definition word_ok (w : string) : bool :=
  match lit w with
  | [] => false
  | cs => forallb (fun c => negb (is_space c)) cs
  end.

Definition starts_space (b : list ascii) : bool :=
  match b with
  | c :: _ => is_space c
  | [] => false
  end.

(** Strictly ascending thresholds: every level is below all later ones. *)
Fixpoint lod_strict (lvls : list LODLevel) : bool :=
  match lvls with
  | [] => true
  | a :: rest => forallb (lod_less a) rest && lod_strict rest
  end.

Definition level_ok (lvl : LODLevel) : bool :=
  text_stable (distanceThreshold lvl) && word_ok (meshName lvl).

Definition vec3_stable (v : vec3) : bool :=
  text_stable (v3x v) && text_stable (v3y v) && text_stable (v3z v).

Definition quat_stable (q : quat) : bool :=
  text_stable (qx q) && text_stable (qy q) && text_stable (qz q)
  && text_stable (qw q).

(** What the text format can carry of one node: names are single words,
    numbers survive their six-digit text, LOD thresholds ascend strictly
    and the two counts fit an [int]. *)
Definition node_ok (n : SceneNode) : bool :=
  word_ok (name n)
  && vec3_stable (position (transform n))
  && quat_stable (rotation (transform n))
  && vec3_stable (scale (transform n))
  && forallb level_ok (levels (lod n))
  && lod_strict (levels (lod n))
  && (Z.of_nat (length (levels (lod n))) <=? int_max)
  && vec3_stable (bbmin (boundingBox n))
  && vec3_stable (bbmax (boundingBox n))
  && (Z.of_nat (length (children n)) <=? int_max).

(** The nodes below [a], following children vectors, form a tree of
    depth at most [fuel] of nodes the format can carry. *)
Fixpoint wf_tree (fuel : nat) (h : heap) (a : addr) : Prop :=
  match fuel with
  | O => False
  | S fuel' =>
      exists n, h !! a = Some n /\ node_ok n = true /\
                Forall (wf_tree fuel' h) (children n)
  end.

(** The fields the format carries agree. *)
Definition same_payload (n n' : SceneNode) : Prop :=
  name n' = name n /\
  position (transform n') = position (transform n) /\
  rotation (transform n') = rotation (transform n) /\
  scale (transform n') = scale (transform n) /\
  boundingBox n' = boundingBox n /\
  lod n' = lod n.

(** The tree below [a'] in [h'] is a copy of the tree below [a] in [h]:
    node by node the same payload, and the same children in the same
    order; the copy uses no address of [old]. *)
Fixpoint rebuilt (fuel : nat) (h : heap) (a : addr) (old : gset nat)
  (h' : heap) (a' : addr) : Prop :=
  match fuel with
  | O => False
  | S fuel' =>
      (a' ∉ old) /\
      exists n n', h !! a = Some n /\ h' !! a' = Some n' /\
        same_payload n n' /\
        Forall2 (fun c c' => rebuilt fuel' h c old h' c')
                (children n) (children n')
  end.


(** The cells outside [old] keep their payload and children from [h1] to
    [h2]. *)
Definition keeps (old : gset nat) (h1 h2 : heap) : Prop :=
  forall (x : nat) (n : SceneNode), x ∉ old -> h1 !! x = Some n ->
    exists n', h2 !! x = Some n' /\ same_payload n' n /\
               children n' = children n.

(** [text] is read back by [deser] as a copy of the tree below [a], in
    fresh cells, whatever follows it in the stream. *)
Definition reads_back (fuel : nat) (h : heap) (a : addr)
  (text : list ascii) : Prop :=
  forall (h0 : heap) (rest b : list ascii),
    skip_ws b = skip_ws (text ++ rest) ->
    exists (r : nat) (b' : list ascii) (h1 : heap),
      deser fuel (Good b) h0 = Returns (Some r, Good b', h1) /\
      skip_ws b' = skip_ws rest /\
      h0 ⊆ h1 /\
      rebuilt fuel h a (dom h0) h1 r.

(** The quaternion the reader would build if it gave the first Rotation
    token to [w] and the other three to [x], [y], [z]. *)
Definition rotation_first_token_to_w (t1 t2 t3 t4 : float) : quat :=
  mkQuatXYZW t2 t3 t4 t1.

(** The local matrix of a node, as [getMatrix] returns it. *)
Definition node_matrix (n : SceneNode) : mat4 := fst (getMatrix (transform n)).

(** Two node states that differ at most in the matrix cache, the caches
    giving the same matrix. *)
Definition cache_equiv (n n' : SceneNode) : Prop :=
  name n' = name n /\ parent n' = parent n /\ children n' = children n /\
  boundingBox n' = boundingBox n /\ lod n' = lod n /\ visible n' = visible n /\
  position (transform n') = position (transform n) /\
  rotation (transform n') = rotation (transform n) /\
  scale (transform n') = scale (transform n) /\
  node_matrix n' = node_matrix n.

Definition heap_cache_equiv (h h' : heap) : Prop :=
  forall x : nat, option_Forall2 cache_equiv (h !! x) (h' !! x).

(** The path of live ancestors from a root down to a node. *)
Inductive ancestry (h : heap) : list nat -> nat -> Prop :=
  | ancestry_root (a : nat) (n : SceneNode) :
      h !! a = Some n -> lock h (parent n) = None -> ancestry h [a] a
  | ancestry_step (a p : nat) (n : SceneNode) (path : list nat) :
      h !! a = Some n -> lock h (parent n) = Some p ->
      ancestry h path p -> ancestry h (path ++ [a]) a.

(** Local matrices multiplied from the root down, left to right. *)
Inductive path_product (h : heap) : list nat -> mat4 -> Prop :=
  | path_product_root (a : nat) (n : SceneNode) :
      h !! a = Some n -> path_product h [a] (node_matrix n)
  | path_product_step (a : nat) (n : SceneNode) (path : list nat) (m : mat4) :
      h !! a = Some n -> path_product h path m ->
      path_product h (path ++ [a]) (mat4_mul m (node_matrix n)).

(* ===================================================================== *)
(** ** Traversals of the children vectors *)

(** A loop [for (auto& c : children) ...] whose body threads a state and
    may fail to return. *)
Definition for_each {A S : Type} (body : A -> S -> option S) (cs : list A)
  (s : S) : option S :=
  fold_left (fun acc c => acc ≫= body c) cs (Some s).

(** [this->updateWorldMatrix(force)]: the store afterwards; [None] is a
    call that has not returned within [fuel] frames, or one that reached
    a pointer to no live node. *)
Fixpoint updateWorldMatrix (fuel : nat) (force : bool) (this : addr)
  (h : heap) : option heap :=
  match fuel with
  | O => None
  | S fuel' =>
      n ← h !! this;
      for_each (updateWorldMatrix fuel' force) (children n) h
  end.

(** [this->draw(depth)]: the characters written to [std::cout].  A
    [bool] is written as [1] or [0].  The depth is counted in [Z]; a
    negative one gives no indentation, as the loop of the source does. *)
Fixpoint draw (fuel : nat) (this : addr) (h : heap) (depth : Z)
  : option (list ascii) :=
  match fuel with
  | O => None
  | S fuel' =>
      n ← h !! this;
      kids ← mapM (fun c => draw fuel' c h (depth + 1)) (children n);
      Some (concat (repeat (lit "  ") (Z.to_nat depth)) ++
            lit (name n) ++ lit " [Visible: " ++
            (if visible n then lit "1" else lit "0") ++ lit "]" ++ [nl] ++
            concat kids)
  end.

(** The lambda [gather] of [UI::cullAndPrint]: [all] after the call. *)
Fixpoint gather (fuel : nat) (n : addr) (h : heap) (all : list addr)
  : option (list addr) :=
  match fuel with
  | O => None
  | S fuel' =>
      nd ← h !! n;
      for_each (fun c => gather fuel' c h) (children nd) (all ++ [n])
  end.

(** The loop of [UI::findNode] over the children: the first child whose
    search finds something decides. *)
Fixpoint find_first (search : addr -> option (option addr)) (cs : list addr)
  : option (option addr) :=
  match cs with
  | [] => Some None
  | c :: rest =>
      match search c with
      | None => None
      | Some (Some r) => Some (Some r)
      | Some None => find_first search rest
      end
  end.

(** [UI::findNode(name, node)]: [Some None] is [nullptr], [None] a call
    that has not returned within [fuel] frames. *)
Fixpoint findNode (fuel : nat) (nm : string) (node : addr) (h : heap)
  : option (option addr) :=
  match fuel with
  | O => None
  | S fuel' =>
      nd ← h !! node;
      if String.eqb (name nd) nm then Some (Some node)
      else find_first (fun c => findNode fuel' nm c h) (children nd)
  end.

(* ===================================================================== *)
(** ** Partitioning strategies *)

Definition vec3_add (a b : vec3) : vec3 :=
  mkVec3 (v3x a + v3x b)%flt (v3y a + v3y b)%flt (v3z a + v3z b)%flt.

Module Octree.

Local Unset Elimination Schemes.

(** [children] is the array of eight owning pointers, [None] for a
    null one. *)
Inductive t : Type :=
  mk (center : vec3) (halfSize : float) (depth : Z) (objects : list addr)
     (children : list (option t)).

Definition center (o : t) : vec3 := let 'mk c _ _ _ _ := o in c.
Definition halfSize (o : t) : float := let 'mk _ hs _ _ _ := o in hs.
Definition depth (o : t) : Z := let 'mk _ _ d _ _ := o in d.
Definition objects (o : t) : list addr := let 'mk _ _ _ os _ := o in os.
Definition children (o : t) : list (option t) :=
  let 'mk _ _ _ _ cs := o in cs.

(** [Octree(c, hs, d)]. *)
Definition new (c : vec3) (hs : float) (d : Z) : t :=
  mk c hs d [] (repeat None 8).

(** [Octree::insert]. *)
Definition insert (node : addr) (o : t) : t :=
  mk (center o) (halfSize o) (depth o) (objects o ++ [node]) (children o).

(** [Octree::clear]. *)
Definition clear (o : t) : t :=
  mk (center o) (halfSize o) (depth o) [] (map (fun _ => None) (children o)).

(** [0.5f]. *)
Definition half : float := S754_finite false 8388608 (-24).

(** The offset of octant [i]: [+h] on an axis whose bit is set in [i],
    [-h] otherwise. *)
Definition offset (h : float) (i : Z) : vec3 :=
  mkVec3 (if Z.testbit i 0 then h else fneg h)
         (if Z.testbit i 1 then h else fneg h)
         (if Z.testbit i 2 then h else fneg h).

(** [Octree::subdivide].  [depth + 1] is the sum of integers: the
    statements about it take [depth] below [INT_MAX]. *)
Definition subdivide (o : t) : t :=
  let h := (halfSize o * half)%flt in
  mk (center o) (halfSize o) (depth o) (objects o)
     (map (fun i => Some (new (vec3_add (center o) (offset h i)) h
                              (depth o + 1)))
          [0; 1; 2; 3; 4; 5; 6; 7]).

End Octree.

Module BSPTree.

Local Unset Elimination Schemes.

Inductive t : Type :=
  mk (normal : vec3) (distance : float) (frontList backList : list addr)
     (front back : option t).

Definition normal (b : t) : vec3 := let 'mk n _ _ _ _ _ := b in n.
Definition distance (b : t) : float := let 'mk _ d _ _ _ _ := b in d.
Definition frontList (b : t) : list addr := let 'mk _ _ f _ _ _ := b in f.
Definition backList (b : t) : list addr := let 'mk _ _ _ k _ _ := b in k.
Definition front (b : t) : option t := let 'mk _ _ _ _ f _ := b in f.
Definition back (b : t) : option t := let 'mk _ _ _ _ _ k := b in k.

(** [BSPTree(n, d)]. *)
Definition new (n : vec3) (d : float) : t := mk n d [] [] None None.

(** [BSPTree::insert]. *)
Definition insert (node : addr) (b : t) : t :=
  mk (normal b) (distance b) (frontList b ++ [node]) (backList b)
     (front b) (back b).

(** [BSPTree::clear]. *)
Definition clear (b : t) : t :=
  mk (normal b) (distance b) [] [] None None.

End BSPTree.

(** A [std::unique_ptr<PartitioningStrategy>]: one of the two concrete
    classes, the virtual calls dispatching on which. *)
Inductive PartitioningStrategy : Type :=
  | AnOctree (o : Octree.t)
  | ABSPTree (b : BSPTree.t).

Definition partition_insert (node : addr) (p : PartitioningStrategy)
  : PartitioningStrategy :=
  match p with
  | AnOctree o => AnOctree (Octree.insert node o)
  | ABSPTree b => ABSPTree (BSPTree.insert node b)
  end.

Definition partition_clear (p : PartitioningStrategy) : PartitioningStrategy :=
  match p with
  | AnOctree o => AnOctree (Octree.clear o)
  | ABSPTree b => ABSPTree (BSPTree.clear b)
  end.

(** What a partitioner has registered: the flat list [insert] appends to. *)
Definition registered (p : PartitioningStrategy) : list addr :=
  match p with
  | AnOctree o => Octree.objects o
  | ABSPTree b => BSPTree.frontList b
  end.

(** The calls of the [PartitioningStrategy] interface. *)
Inductive PartitionOp : Type :=
  | OpInsert (node : addr)
  | OpClear.

(** The calls [Octree] offers: those of the interface and [subdivide]. *)
Inductive OctreeOp : Type :=
  | Interface (op : PartitionOp)
  | Subdivide.

Definition octree_op (o : Octree.t) (op : OctreeOp) : Octree.t :=
  match op with
  | Interface (OpInsert node) => Octree.insert node o
  | Interface OpClear => Octree.clear o
  | Subdivide => Octree.subdivide o
  end.

Definition bsp_op (b : BSPTree.t) (op : PartitionOp) : BSPTree.t :=
  match op with
  | OpInsert node => BSPTree.insert node b
  | OpClear => BSPTree.clear b
  end.

(** The nodes inserted since the last [clear], on top of [before]. *)
Definition inserted_since_clear (before : list addr) (ops : list PartitionOp)
  : list addr :=
  fold_left (fun acc op =>
               match op with
               | OpInsert node => acc ++ [node]
               | OpClear => []
               end) ops before.

Definition interface_ops (ops : list OctreeOp) : list PartitionOp :=
  omap (fun op => match op with Interface i => Some i | Subdivide => None end)
       ops.

(** Whether [subdivide] was called since the last [clear]. *)
Definition subdivided_since_clear (ops : list OctreeOp) : bool :=
  fold_left (fun acc op =>
               match op with
               | Interface (OpInsert _) => acc
               | Interface OpClear => false
               | Subdivide => true
               end) ops false.

(** The eight octants of a cube, as [subdivide] builds them: empty leaves
    one level down. *)
Definition octants (c : vec3) (hs : float) (d : Z) : list (option Octree.t) :=
  Octree.children (Octree.subdivide (Octree.new c hs d)).

(* ===================================================================== *)
(** ** Reference definitions for the further statements *)

(** The subtree below [a] following children vectors has depth at most
    [fuel] and reaches live nodes only. *)
Fixpoint subtree_within (fuel : nat) (h : heap) (a : addr) : Prop :=
  match fuel with
  | O => False
  | S fuel' =>
      exists n, h !! a = Some n /\ Forall (subtree_within fuel' h) (children n)
  end.

(** Whether the node at [x] bears the name [nm]. *)
Definition has_name (h : heap) (nm : string) (x : addr) : bool :=
  match h !! x with
  | Some n => String.eqb (name n) nm
  | None => false
  end.

(** The nodes below [a] in pre-order: a node, then the subtrees of its
    children from first to last. *)
Fixpoint preorder (fuel : nat) (h : heap) (a : addr) : option (list addr) :=
  match fuel with
  | O => None
  | S fuel' =>
      n ← h !! a;
      kids ← mapM (preorder fuel' h) (children n);
      Some (a :: concat kids)
  end.

(** A table filled by successive calls of [addLevel], first call first. *)
Definition build_lod (entries : list (float * string)) : LOD :=
  fold_left (fun table e => addLevel (fst e) (snd e) table) entries (mkLOD []).

Definition level_of (e : float * string) : LODLevel :=
  mkLODLevel (fst e) (snd e).

(** Between [h] and [h'] only the cell of [node] differs, and of that cell
    neither parent, nor flag, nor children. *)
Definition touch (node : addr) (h h' : heap) : Prop :=
  (forall x : nat, x <> node -> h' !! x = h !! x) /\
  exists n n', h !! node = Some n /\ h' !! node = Some n' /\
    parent n' = parent n /\ visible n' = visible n /\
    children n' = children n.

(** The tree below [a] has depth at most [fuel], lies in cells that are
    not in [old], and every child in it names its parent. *)
Fixpoint fresh_tree (fuel : nat) (old : gset nat) (h : heap) (a : addr)
  : Prop :=
  match fuel with
  | O => False
  | S fuel' =>
      (a ∉ old) /\
      exists n, h !! a = Some n /\
        Forall (fun c => parent <$> h !! c = Some (Some a) /\
                         fresh_tree fuel' old h c)
               (children n)
  end.

(** The characters an input stream still holds. *)
Definition remaining (s : istream) : nat :=
  match s with
  | Good b => length b
  | Failed => 0
  end.

(** What a returned call of [deser] has done: it has consumed input, left
    every node that existed as it was, and allocated, when it returns a
    node, a tree of new nodes below it. *)
Definition reads (fuel : nat) (s : istream) (h : heap) (r : option addr)
  (s' : istream) (h' : heap) : Prop :=
  (remaining s' <= remaining s)%nat /\
  h ⊆ h' /\
  match r with
  | None => h' = h
  | Some a =>
      h !! a = None /\
      (exists n, h' !! a = Some n /\ parent n = None /\ visible n = true) /\
      fresh_tree fuel (dom h) h' a
  end.

(** The scene below [r] is a tree of depth at most [k] whose root has no
    parent and in which every child names its parent. *)
Definition scene_ok (k : nat) (h : heap) (r : addr) : Prop :=
  parent <$> h !! r = Some None /\ fresh_tree k ∅ h r.

(** From [h] to [h'] no node appears or disappears, none changes its
    parent, and none gains a child. *)
Definition shrinks (h h' : heap) : Prop :=
  forall x : nat,
    option_Forall2 (fun n n' => parent n' = parent n /\
                                children n' ⊆ children n)
                   (h !! x) (h' !! x).

(** What [isVisible] answers for [x] on the store [h]. *)
Definition verdict (c : FrustumCuller) (fuel : nat) (h : heap) (x : addr)
  : bool :=
  match isVisible c fuel x h with
  | Some (b, _) => b
  | None => false
  end.

(** Two stores with the same nodes, which agree on names, parents, boxes
    and local matrices. *)
Definition same_geometry (h g : heap) : Prop :=
  forall x : nat,
    option_Forall2 (fun n n' => name n' = name n /\ parent n' = parent n /\
                                boundingBox n' = boundingBox n /\
                                node_matrix n' = node_matrix n)
                   (h !! x) (g !! x).

(** The line [cullAndPrint] writes for a visible node. *)
Definition visible_line (h : heap) (x : addr) : list ascii :=
  lit "  " ++ lit (from_option name EmptyString (h !! x)) ++ [nl].



(* ===================================================================== *)
(** ** The command-line interface *)

(** A recursion that has not returned within its fuel. *)
Definition found {A : Type} (r : option A) : outcome A :=
  match r with
  | Some a => Returns a
  | None => OutOfFuel
  end.

Record UI : Type := mkUI {
  root : addr;
  partitioner : PartitioningStrategy
}.

(** [UI::UI()]. *)
Definition UI_new (h : heap) : UI * heap :=
  let '(r, h) := make_shared "Root" h in
  (mkUI r (AnOctree (Octree.new (mkVec3 f0 f0 f0) (float_of_Z 100) 0)), h).

Section Process.

(** The files of the machine: what opening a name for reading gives, and
    what a file system becomes when a name is opened for writing and the
    given characters are sent to the stream. *)
Variable FS : Type.
Variable fs_read : string -> FS -> option (list ascii).
Variable fs_write : string -> list ascii -> FS -> FS.

(** What the program works on besides its own object: [std::cin], what
    was written to [std::cout], the nodes, and the files. *)
Record Env : Type := mkEnv {
  cin : istream;
  cout : list ascii;
  store : heap;
  disk : FS
}.

Definition put (t : list ascii) (e : Env) : Env :=
  mkEnv (cin e) (cout e ++ t) (store e) (disk e).
Definition with_cin (s : istream) (e : Env) : Env :=
  mkEnv s (cout e) (store e) (disk e).
Definition with_store (h : heap) (e : Env) : Env :=
  mkEnv (cin e) (cout e) h (disk e).
Definition with_disk (d : FS) (e : Env) : Env :=
  mkEnv (cin e) (cout e) (store e) d.

(** [UI::addNode]. *)
Definition addNode (fuel : nat) (ui : UI) (e : Env) : outcome (UI * Env) :=
  let e := put (lit "Parent Name: ") e in
  let '(parentName, s) := extracted_word (read_word (cin e)) in
  let e := with_cin s e in
  p ← found (findNode fuel parentName (root ui) (store e));
  match p with
  | None => Returns (ui, put (lit "Parent not found" ++ [nl]) e)
  | Some p =>
      let e := put (lit "Node Name: ") e in
      let '(nodeName, s) := extracted_word (read_word (cin e)) in
      let e := with_cin s e in
      let '(child, h) := make_shared nodeName (store e) in
      Returns (ui, with_store (addChild p child h) e)
  end.

(** [UI::removeNode]. *)
Definition removeNode (fuel : nat) (ui : UI) (e : Env) : outcome (UI * Env) :=
  let e := put (lit "Node Name: ") e in
  let '(nm, s) := extracted_word (read_word (cin e)) in
  let e := with_cin s e in
  r ← found (findNode fuel nm (root ui) (store e));
  match r with
  | None => Returns (ui, e)
  | Some node =>
      nd ← found (store e !! node);
      match lock (store e) (parent nd) with
      | Some p => Returns (ui, with_store (removeChild p node (store e)) e)
      | None => Returns (ui, e)
      end
  end.

(** [UI::moveNode]. *)
Definition moveNode (fuel : nat) (ui : UI) (e : Env) : outcome (UI * Env) :=
  let e := put (lit "Node Name: ") e in
  let '(nm, s) := extracted_word (read_word (cin e)) in
  let e := with_cin s e in
  r ← found (findNode fuel nm (root ui) (store e));
  match r with
  | None => Returns (ui, e)
  | Some node =>
      let e := put (lit "New Position x y z: ") e in
      '(x, s) ← extracted (read_float (cin e));
      '(y, s) ← extracted (read_float s);
      '(z, s) ← extracted (read_float s);
      let h := alter (fun n => set_transform
                  (setPosition (mkVec3 x y z) (transform n)) n)
                node (store e) in
      Returns (ui, with_store h (with_cin s e))
  end.

(** [UI::printGraph(node, depth)]. *)
Definition printGraph (fuel : nat) (node : addr) (depth : Z) (e : Env)
  : outcome Env :=
  t ← found (draw fuel node (store e) depth);
  Returns (put t e).

(** [UI::serializeScene]. *)
Definition serializeScene (fuel : nat) (ui : UI) (e : Env)
  : outcome (UI * Env) :=
  let e := put (lit "Filename: ") e in
  let '(filename, s) := extracted_word (read_word (cin e)) in
  let e := with_cin s e in
  text ← found (serialize fuel (root ui) (store e));
  Returns (ui, with_disk (fs_write filename text (disk e)) e).

(** [UI::deserializeScene]. *)
Definition deserializeScene (fuel : nat) (ui : UI) (e : Env)
  : outcome (UI * Env) :=
  let e := put (lit "Filename: ") e in
  let '(filename, s) := extracted_word (read_word (cin e)) in
  let e := with_cin s e in
  '(newRoot, h) ← deserialize fuel (fs_read filename (disk e)) (store e);
  let e := with_store h e in
  match newRoot with
  | Some r => Returns (mkUI r (partitioner ui), e)
  | None => Returns (ui, e)
  end.

(** [UI::switchPartitioner]. *)
Definition switchPartitioner (ui : UI) (e : Env) : outcome (UI * Env) :=
  let e := put (lit "1.Octree 2.BSP: ") e in
  '(c, s) ← extracted (read_int (cin e));
  let e := with_cin s e in
  if c =? 1
  then Returns (mkUI (root ui)
                  (AnOctree (Octree.new (mkVec3 f0 f0 f0) (float_of_Z 100) 0)),
                e)
  else Returns (mkUI (root ui)
                  (ABSPTree (BSPTree.new (mkVec3 f0 f1 f0) f0)), e).

(** The last loop of [UI::cullAndPrint]. *)
Definition cull_loop (culler : FrustumCuller) (fuel : nat) (all : list addr)
  (e : Env) : outcome Env :=
  fold_left
    (fun acc n =>
       e ← acc;
       '(v, h) ← found (isVisible culler fuel n (store e));
       let e := with_store h e in
       if v : bool then
         nd ← found (h !! n);
         Returns (put (lit "  " ++ lit (name nd) ++ [nl]) e)
       else Returns e)
    all (Returns e).

(** [UI::cullAndPrint]. *)
Definition cullAndPrint (fuel : nat) (ui : UI) (e : Env)
  : outcome (UI * Env) :=
  let p := partition_clear (partitioner ui) in
  all ← found (gather fuel (root ui) (store e) []);
  let p := fold_left (fun p n => partition_insert n p) all p in
  let culler := FrustumCuller_new (mat4_diag f1) in
  let e := put (lit "Visible Nodes:" ++ [nl]) e in
  e ← cull_loop culler fuel all e;
  Returns (mkUI (root ui) p, e).

Definition menu : list ascii :=
  lit "1.Add Node" ++ [nl] ++ lit "2.Remove Node" ++ [nl] ++
  lit "3.Move Node" ++ [nl] ++ lit "4.Print Scene Graph" ++ [nl] ++
  lit "5.Serialize" ++ [nl] ++ lit "6.Deserialize" ++ [nl] ++
  lit "7.Switch Partitioner" ++ [nl] ++ lit "8.Cull & Print Visible" ++ [nl] ++
  lit "9.Quit" ++ [nl] ++ lit "Choice: ".

(** The [switch] of [UI::run]. *)
Definition dispatch (fuel : nat) (choice : Z) (ui : UI) (e : Env)
  : outcome (UI * Env) :=
  if choice =? 1 then addNode fuel ui e
  else if choice =? 2 then removeNode fuel ui e
  else if choice =? 3 then moveNode fuel ui e
  else if choice =? 4 then
    e ← printGraph fuel (root ui) 0 e; Returns (ui, e)
  else if choice =? 5 then serializeScene fuel ui e
  else if choice =? 6 then deserializeScene fuel ui e
  else if choice =? 7 then switchPartitioner ui e
  else if choice =? 8 then cullAndPrint fuel ui e
  else Returns (ui, e).

(** The loop of [UI::run], entered with the value [choice] has: [rounds]
    bounds the number of iterations, [fuel] the depth of the recursions in
    the commands. *)
Fixpoint run_loop (rounds fuel : nat) (choice : Z) (ui : UI) (e : Env)
  : outcome (UI * Env) :=
  match rounds with
  | O => OutOfFuel
  | S rounds' =>
      if choice =? 9 then Returns (ui, e)
      else
        let e := put menu e in
        let '(r, s) := read_int (cin e) in
        let choice := default choice r in
        let e := with_cin s e in
        '(ui, e) ← dispatch fuel choice ui e;
        run_loop rounds' fuel choice ui e
  end.

(** [UI::run]. *)
Definition run (rounds fuel : nat) (ui : UI) (e : Env) : outcome (UI * Env) :=
  run_loop rounds fuel 0 ui e.

(** [main]. *)
Definition main (rounds fuel : nat) (e : Env) : outcome (UI * Env) :=
  let '(ui, h) := UI_new (store e) in
  run rounds fuel ui (with_store h e).

End Process.

Arguments mkEnv {FS} _ _ _ _.
Arguments cin {FS} _.
Arguments cout {FS} _.
Arguments store {FS} _.
Arguments disk {FS} _.
Arguments put {FS} _ _.
Arguments with_cin {FS} _ _.
Arguments with_store {FS} _ _.
Arguments with_disk {FS} _ _.
Arguments addNode {FS} _ _ _.
Arguments removeNode {FS} _ _ _.
Arguments moveNode {FS} _ _ _.
Arguments printGraph {FS} _ _ _ _.
Arguments serializeScene {FS} _ _ _ _.
Arguments deserializeScene {FS} _ _ _ _.
Arguments switchPartitioner {FS} _ _.
Arguments cull_loop {FS} _ _ _ _.
Arguments cullAndPrint {FS} _ _ _.
Arguments dispatch {FS} _ _ _ _ _ _.
Arguments run_loop {FS} _ _ _ _ _ _ _.
Arguments run {FS} _ _ _ _ _ _.
Arguments main {FS} _ _ _ _ _.

(* ===================================================================== *)
(** * Properties *)

(** ** Transform: the matrix cache *)

Lemma getMatrix_fields (t : Transform) :
  position (snd (getMatrix t)) = position t /\
  rotation (snd (getMatrix t)) = rotation t /\
  scale (snd (getMatrix t)) = scale t.
Proof. unfold getMatrix. destruct (dirty t); simpl; auto. Qed.

Lemma getMatrix_cache_ok (t : Transform) :
  cache_ok t -> cache_ok (snd (getMatrix t)).
Proof.
  unfold cache_ok, getMatrix. destruct (dirty t) eqn:Hd; simpl; auto.
Qed.

Lemma getMatrix_value (t : Transform) :
  cache_ok t ->
  fst (getMatrix t) = compose_trs (position t) (rotation t) (scale t).
Proof.
  unfold cache_ok, getMatrix. destruct (dirty t) eqn:Hd; simpl; auto.
Qed.

(** Reading twice gives the same matrix, whatever the state of the cache. *)
Lemma getMatrix_idempotent (t : Transform) :
  fst (getMatrix (snd (getMatrix t))) = fst (getMatrix t).
Proof. unfold getMatrix. destruct (dirty t) eqn:Hd; simpl; rewrite ?Hd; auto. Qed.

Lemma Transform_new_cache_ok : cache_ok Transform_new.
Proof. unfold cache_ok. simpl. discriminate. Qed.

Lemma apply_op_cache_ok (t : Transform) (op : TransformOp) :
  cache_ok t -> cache_ok (apply_op t op).
Proof.
  destruct op; simpl; try (unfold cache_ok; simpl; discriminate).
  apply getMatrix_cache_ok.
Qed.

Lemma run_ops_cache_ok (ops : list TransformOp) (t : Transform) :
  cache_ok t -> cache_ok (run_ops ops t).
Proof.
  revert t. induction ops as [|op ops IH]; intros t Ht; simpl; auto.
  apply IH, apply_op_cache_ok, Ht.
Qed.

Lemma run_ops_fields (ops : list TransformOp) (t : Transform) :
  position (run_ops ops t) = last_position ops (position t) /\
  rotation (run_ops ops t) = last_rotation ops (rotation t) /\
  scale (run_ops ops t) = last_scale ops (scale t).
Proof.
  revert t. induction ops as [|op ops IH]; intros t; simpl; auto.
  destruct (IH (apply_op t op)) as (Hp & Hr & Hs).
  unfold run_ops in *. rewrite Hp, Hr, Hs.
  destruct op; simpl; auto.
  destruct (getMatrix_fields t) as (-> & -> & ->). auto.
Qed.

(** Reads have no effect on the components that mutations leave. *)
Lemma last_components_filter (ops : list TransformOp) p q s :
  last_position (List.filter is_mutation ops) p = last_position ops p /\
  last_rotation (List.filter is_mutation ops) q = last_rotation ops q /\
  last_scale (List.filter is_mutation ops) s = last_scale ops s.
Proof.
  revert p q s. induction ops as [|op ops IH]; intros p q s; simpl; auto.
  destruct op; simpl; apply IH.
Qed.

Lemma run_ops_mutated_cache_ok (ops : list TransformOp) (t : Transform) :
  Exists (fun op => is_mutation op = true) ops -> cache_ok (run_ops ops t).
Proof.
  revert t. induction ops as [|op ops IH]; intros t Hex; [inversion Hex|].
  simpl. inversion Hex as [? ? Hop | ? ? Htl]; subst.
  - apply run_ops_cache_ok.
    destruct op; try discriminate Hop; unfold cache_ok; simpl; discriminate.
  - apply IH, Htl.
Qed.

Lemma filter_keeps_mutation (ops : list TransformOp) :
  Exists (fun op => is_mutation op = true) ops ->
  Exists (fun op => is_mutation op = true) (List.filter is_mutation ops).
Proof.
  induction 1 as [op ops Hop | op ops _ IH]; simpl.
  - rewrite Hop. left. exact Hop.
  - destruct (is_mutation op) eqn:Hop; [right|]; exact IH.
Qed.

(** C1.  For every transform, after any sequence of setters and
    [getMatrix] reads that contains a setter (or, with no setter at all,
    from a transform whose cache is consistent, as the constructor and
    every method leave it), [getMatrix] returns
    translate(position) * rotate(rotation) * scale(scale) of the component
    values set last; the reads in between make no difference to it. *)
Theorem getMatrix_after_ops (t : Transform) (ops : list TransformOp) :
  cache_ok t \/ Exists (fun op => is_mutation op = true) ops ->
  fst (getMatrix (run_ops ops t))
  = mat4_mul
      (mat4_mul (translate (mat4_diag f1) (last_position ops (position t)))
                (mat4_cast (last_rotation ops (rotation t))))
      (GLM.scale (mat4_diag f1) (last_scale ops (scale t)))
  /\ fst (getMatrix (run_ops ops t))
     = fst (getMatrix (run_ops (List.filter is_mutation ops) t)).
Proof.
  intros Ht.
  assert (Hval : forall os,
            cache_ok t \/ Exists (fun op => is_mutation op = true) os ->
            fst (getMatrix (run_ops os t))
            = compose_trs (last_position os (position t))
                (last_rotation os (rotation t)) (last_scale os (scale t))).
  { intros os Hos. rewrite getMatrix_value.
    - destruct (run_ops_fields os t) as (-> & -> & ->). reflexivity.
    - destruct Hos as [Hc | Hm];
        [apply run_ops_cache_ok, Hc | apply run_ops_mutated_cache_ok, Hm]. }
  split.
  - rewrite Hval by exact Ht. reflexivity.
  - rewrite !Hval.
    + destruct (last_components_filter ops (position t) (rotation t)
                  (scale t)) as (-> & -> & ->).
      reflexivity.
    + destruct Ht as [Hc | Hm]; [left; exact Hc | right].
      apply filter_keeps_mutation, Hm.
    + exact Ht.
Qed.

Lemma getMatrix_after_ops_witness :
  let stale := mkTransform (mkVec3 f1 f1 f1) quat_identity (mkVec3 f1 f1 f1)
                 (mat4_diag f0) false in
  let ops := [ OpSetPosition (mkVec3 f1 f2 fm1); OpGetMatrix;
               OpSetScale (mkVec3 f2 f2 f2); OpGetMatrix; OpGetMatrix;
               OpSetPosition (mkVec3 f2 f0 f1); OpGetMatrix ] in
  (cache_ok stale \/ Exists (fun op => is_mutation op = true) ops) /\
  fst (getMatrix (run_ops ops stale))
  = mat4_mul
      (mat4_mul (translate (mat4_diag f1) (mkVec3 f2 f0 f1))
                (mat4_cast quat_identity))
      (GLM.scale (mat4_diag f1) (mkVec3 f2 f2 f2)).
Proof.
  intros stale ops.
  assert (H : cache_ok stale \/ Exists (fun op => is_mutation op = true) ops)
    by (right; left; reflexivity).
  split; [exact H|].
  exact (proj1 (getMatrix_after_ops stale ops H)).
Defined.

(** ** World matrices *)

Lemma cache_equiv_refl (n : SceneNode) : cache_equiv n n.
Proof. unfold cache_equiv. tauto. Qed.

Lemma cache_equiv_trans (a b c : SceneNode) :
  cache_equiv a b -> cache_equiv b c -> cache_equiv a c.
Proof. unfold cache_equiv. intuition congruence. Qed.

Lemma heap_cache_equiv_refl (h : heap) : heap_cache_equiv h h.
Proof.
  intros x. destruct (h !! x); constructor. apply cache_equiv_refl.
Qed.

Lemma heap_cache_equiv_trans (h1 h2 h3 : heap) :
  heap_cache_equiv h1 h2 -> heap_cache_equiv h2 h3 -> heap_cache_equiv h1 h3.
Proof.
  intros H12 H23 x. specialize (H12 x). specialize (H23 x).
  destruct H12 as [a b Hab|]; inversion H23; subst; constructor.
  eapply cache_equiv_trans; eauto.
Qed.

Lemma heap_cache_equiv_lookup (h h' : heap) (x : nat) (n : SceneNode) :
  heap_cache_equiv h h' -> h !! x = Some n ->
  exists n', h' !! x = Some n' /\ cache_equiv n n'.
Proof.
  intros He Hx. specialize (He x). rewrite Hx in He.
  inversion He; subst. eauto.
Qed.

Lemma heap_cache_equiv_lock (h h' : heap) (p : option nat) :
  heap_cache_equiv h h' -> lock h' p = lock h p.
Proof.
  intros He. destruct p as [a|]; simpl; auto.
  specialize (He a). destruct He; reflexivity.
Qed.

(** Writing back the cache that [getMatrix] fills keeps the store the same
    up to caches. *)
Lemma refresh_cache_equiv (h : heap) (x : nat) (n : SceneNode) :
  h !! x = Some n ->
  heap_cache_equiv h (<[x := set_transform (snd (getMatrix (transform n))) n]> h).
Proof.
  intros Hx y. destruct (decide (y = x)) as [->|Hne].
  - rewrite lookup_insert_eq, Hx. constructor.
    destruct (getMatrix_fields (transform n)) as (Hp & Hr & Hs).
    unfold cache_equiv, node_matrix; simpl.
    rewrite getMatrix_idempotent. tauto.
  - rewrite lookup_insert_ne by congruence.
    destruct (h !! y); constructor. apply cache_equiv_refl.
Qed.

Lemma ancestry_cache_equiv (h h' : heap) (path : list nat) (a : nat) :
  heap_cache_equiv h h' -> ancestry h path a -> ancestry h' path a.
Proof.
  intros He Ha. induction Ha as [a n Hn Hl | a p n path Hn Hl Hp IH].
  - destruct (heap_cache_equiv_lookup _ _ _ _ He Hn) as (n' & Hn' & Hc).
    eapply ancestry_root; eauto.
    rewrite (heap_cache_equiv_lock h h') by assumption.
    destruct Hc as (_ & -> & _). assumption.
  - destruct (heap_cache_equiv_lookup _ _ _ _ He Hn) as (n' & Hn' & Hc).
    eapply ancestry_step; eauto.
    rewrite (heap_cache_equiv_lock h h') by assumption.
    destruct Hc as (_ & -> & _). assumption.
Qed.

(** With one frame of [fuel] per node on the path, [getWorldMatrix]
    returns, its result is the product of the local matrices from the
    root down, and the store changes in matrix caches only. *)
Lemma getWorldMatrix_path (h : heap) (path : list nat) (a : nat) :
  ancestry h path a ->
  forall fuel : nat, (length path <= fuel)%nat ->
  exists (m : mat4) (h' : heap),
    getWorldMatrix fuel a h = Some (m, h') /\
    path_product h path m /\ heap_cache_equiv h h'.
Proof.
  induction 1 as [a n Hn Hl | a p n path Hn Hl Hp IH]; intros fuel Hfuel.
  - destruct fuel as [|fuel]; [simpl in Hfuel; lia|].
    simpl. rewrite Hn. simpl. rewrite Hl.
    destruct (getMatrix (transform n)) as [m t'] eqn:Hg.
    exists m, (<[a := set_transform t' n]> h). split; [reflexivity|]. split.
    + replace m with (node_matrix n) by (unfold node_matrix; rewrite Hg; auto).
      constructor; assumption.
    + replace t' with (snd (getMatrix (transform n))) by (rewrite Hg; auto).
      apply refresh_cache_equiv; assumption.
  - rewrite length_app in Hfuel. simpl in Hfuel.
    destruct fuel as [|fuel]; [lia|].
    destruct (IH fuel ltac:(lia)) as (pm & h1 & Hrec & Hprod & He).
    destruct (heap_cache_equiv_lookup _ _ _ _ He Hn) as (n1 & Hn1 & Hc).
    simpl. rewrite Hn. simpl. rewrite Hl, Hrec. simpl. rewrite Hn1. simpl.
    destruct (getMatrix (transform n1)) as [m t'] eqn:Hg.
    exists (mat4_mul pm m), (<[a := set_transform t' n1]> h1).
    split; [reflexivity|]. split.
    + replace m with (node_matrix n).
      * constructor; assumption.
      * destruct Hc as (_ & _ & _ & _ & _ & _ & _ & _ & _ & <-).
        unfold node_matrix. rewrite Hg. reflexivity.
    + eapply heap_cache_equiv_trans; [exact He|].
      replace t' with (snd (getMatrix (transform n1))) by (rewrite Hg; auto).
      apply refresh_cache_equiv; assumption.
Qed.

Lemma path_product_inv_snoc (h : heap) (path : list nat) (a : nat) (m : mat4) :
  path_product h (path ++ [a]) m -> path <> [] ->
  exists n pm, h !! a = Some n /\ path_product h path pm /\
               m = mat4_mul pm (node_matrix n).
Proof.
  intros H Hne. inversion H as [b n Hn Heq | b n path' pm Hn Hp Heq].
  - destruct path as [|x [|y l]]; simpl in Heq; try discriminate; congruence.
  - apply app_inj_tail in Heq as [-> ->]. eauto.
Qed.

Lemma path_product_inv_single (h : heap) (a : nat) (m : mat4) :
  path_product h [a] m -> exists n, h !! a = Some n /\ m = node_matrix n.
Proof.
  intros H. inversion H as [b n Hn Heq | b n path' pm Hn Hp Heq]; subst.
  - eauto.
  - destruct path' as [|x l]; simpl in Heq.
    + inversion Hp as [? ? ? E | ? ? p2 ? ? ? E].
      destruct p2; discriminate E.
    + destruct l; discriminate Heq.
Qed.

(** C2.  In a chain root, a, b, c, each node's parent reference being its
    predecessor, [c.getWorldMatrix()] returns the product
    root * a * b * c of the four local matrices, multiplied in that order;
    a node without a parent returns its own local matrix. *)
Theorem getWorldMatrix_chain (h : heap) (root a b c : nat)
    (nr na nb nc : SceneNode) (fuel : nat) :
  h !! root = Some nr -> parent nr = None ->
  h !! a = Some na -> parent na = Some root ->
  h !! b = Some nb -> parent nb = Some a ->
  h !! c = Some nc -> parent nc = Some b ->
  (4 <= fuel)%nat ->
  (exists h', getWorldMatrix fuel c h
     = Some (mat4_mul
               (mat4_mul (mat4_mul (node_matrix nr) (node_matrix na))
                         (node_matrix nb))
               (node_matrix nc), h'))
  /\ (forall (x : nat) (nx : SceneNode),
        h !! x = Some nx -> parent nx = None ->
        exists h', getWorldMatrix fuel x h = Some (node_matrix nx, h')).
Proof.
  intros Hr Hpr Ha Hpa Hb Hpb Hc Hpc Hfuel.
  assert (Ar : ancestry h [root] root).
  { eapply ancestry_root; eauto. rewrite Hpr. reflexivity. }
  assert (Aa : ancestry h ([root] ++ [a]) a).
  { eapply ancestry_step; eauto. rewrite Hpa. simpl. rewrite Hr. reflexivity. }
  assert (Ab : ancestry h (([root] ++ [a]) ++ [b]) b).
  { eapply ancestry_step; eauto. rewrite Hpb. simpl. rewrite Ha. reflexivity. }
  assert (Ac : ancestry h ((([root] ++ [a]) ++ [b]) ++ [c]) c).
  { eapply ancestry_step; eauto. rewrite Hpc. simpl. rewrite Hb. reflexivity. }
  split.
  - destruct (getWorldMatrix_path _ _ _ Ac fuel) as (m & h' & Hw & Hp & _);
      [simpl; lia|].
    exists h'. rewrite Hw. do 2 f_equal.
    apply path_product_inv_snoc in Hp as (nc' & m3 & Hc' & Hp & ->); [|discriminate].
    apply path_product_inv_snoc in Hp as (nb' & m2 & Hb' & Hp & ->); [|discriminate].
    apply path_product_inv_snoc in Hp as (na' & m1 & Ha' & Hp & ->); [|discriminate].
    apply path_product_inv_single in Hp as (nr' & Hr' & ->).
    congruence.
  - intros x nx Hx Hpx.
    assert (Ax : ancestry h [x] x).
    { eapply ancestry_root; eauto. rewrite Hpx. reflexivity. }
    destruct (getWorldMatrix_path _ _ _ Ax fuel) as (m & h' & Hw & Hp & _);
      [simpl; lia|].
    exists h'. rewrite Hw. do 2 f_equal.
    apply path_product_inv_single in Hp as (nx' & Hx' & ->). congruence.
Qed.

Lemma getWorldMatrix_chain_witness :
  let mk nm par pos :=
    set_transform (setPosition pos Transform_new)
      (set_parent par (SceneNode_new nm)) in
  let nr := mk "root"%string None (mkVec3 f1 f0 f0) in
  let na := mk "A"%string (Some 0%nat) (mkVec3 f0 f2 f0) in
  let nb := set_transform (setScale (mkVec3 f2 f2 f2) (transform na))
              (mk "B"%string (Some 1%nat) (mkVec3 f0 f0 f0)) in
  let nc := mk "C"%string (Some 2%nat) (mkVec3 fm1 f1 f2) in
  let h : gmap nat SceneNode :=
    <[3%nat := nc]> (<[2%nat := nb]> (<[1%nat := na]> {[0%nat := nr]})) in
  (exists h', getWorldMatrix 4 3%nat h
     = Some (mat4_mul
               (mat4_mul (mat4_mul (node_matrix nr) (node_matrix na))
                         (node_matrix nb))
               (node_matrix nc), h'))
  /\ (exists h', getWorldMatrix 4 0%nat h = Some (node_matrix nr, h')).
Proof.
  intros mk nr na nb nc h.
  assert (Hr : h !! 0%nat = Some nr) by (vm_compute; reflexivity).
  destruct (getWorldMatrix_chain h 0%nat 1%nat 2%nat 3%nat nr na nb nc 4%nat)
    as [Hc Hroot];
    try solve [reflexivity | vm_compute; reflexivity | lia].
  split; [exact Hc|]. exact (Hroot 0%nat nr Hr eq_refl).
Defined.

(** ** Frustum culling *)

Lemma count_out_bounds (plane : vec4) (wm : mat4) (pts : list vec3) (acc : Z) :
  let r := fold_left (fun out p => if outside plane wm p then out + 1 else out)
             pts acc in
  acc <= r <= acc + Z.of_nat (length pts) /\
  (r = acc + Z.of_nat (length pts) <->
   Forall (fun p => outside plane wm p = true) pts).
Proof.
  revert acc. induction pts as [|p pts IH]; intros acc; simpl.
  - split; [lia|]. split; [constructor | lia].
  - destruct (outside plane wm p) eqn:Ho.
    + destruct (IH (acc + 1)) as [Hb Hiff]. simpl in Hb, Hiff.
      split; [lia|]. split.
      * intros Hr. constructor; [assumption|]. apply Hiff. lia.
      * intros Hall. inversion Hall; subst.
        assert (Hx := proj2 Hiff ltac:(assumption)). lia.
    + destruct (IH acc) as [Hb Hiff]. simpl in Hb, Hiff.
      split; [lia|]. split.
      * intros Hr. lia.
      * intros Hall. inversion Hall; subst. congruence.
Qed.

Lemma count_out_eight (plane : vec4) (wm : mat4) (bb : BoundingBox) :
  count_out plane wm (corners bb) = 8 <->
  Forall (fun p => outside plane wm p = true) (corners bb).
Proof.
  unfold count_out.
  destruct (count_out_bounds plane wm (corners bb) 0) as [_ Hiff].
  simpl in Hiff. exact Hiff.
Qed.

Lemma some_plane_rejects_spec (pls : list vec4) (wm : mat4) (bb : BoundingBox) :
  some_plane_rejects pls wm (corners bb) = true <->
  Exists (fun plane =>
            Forall (fun p => outside plane wm p = true) (corners bb)) pls.
Proof.
  induction pls as [|plane rest IH]; simpl.
  - split; [discriminate | intros H; inversion H].
  - destruct (count_out plane wm (corners bb) =? 8) eqn:Hc.
    + apply Z.eqb_eq in Hc. split; auto.
      intros _. left. apply count_out_eight, Hc.
    + apply Z.eqb_neq in Hc. rewrite IH. split.
      * intros H. right. exact H.
      * intros H. inversion H as [? ? Hh | ? ? Ht]; subst; auto.
        exfalso. apply Hc. apply count_out_eight, Hh.
Qed.

Lemma getWorldMatrix_root (h : heap) (a : nat) (n : SceneNode) (fuel : nat) :
  h !! a = Some n -> lock h (parent n) = None ->
  getWorldMatrix (S fuel) a h
  = Some (node_matrix n,
          <[a := set_transform (snd (getMatrix (transform n))) n]> h).
Proof.
  intros Hn Hl. cbn [getWorldMatrix]. rewrite Hn. cbn [mbind option_bind].
  rewrite Hl. unfold node_matrix. destruct (getMatrix (transform n)).
  reflexivity.
Qed.

(** The culler the demo builds from the identity matrix classifies a
    parentless node with the default box and transform as visible. *)
Lemma isVisible_identity_default (a : nat) (nm : string) :
  exists h',
    isVisible (FrustumCuller_new (mat4_diag f1)) 1 a {[a := SceneNode_new nm]}
    = Some (true, h') /\
    visible <$> h' !! a = Some true.
Proof.
  unfold isVisible.
  rewrite (getWorldMatrix_root _ _ (SceneNode_new nm) 0)
    by (try apply lookup_singleton_eq; reflexivity).
  cbn [mbind option_bind]. rewrite lookup_insert_eq. cbn [mbind option_bind].
  match goal with
  | |- context [some_plane_rejects ?p ?m ?c] =>
      replace (some_plane_rejects p m c) with false
        by (vm_compute; reflexivity)
  end.
  eexists. split; [reflexivity|].
  rewrite lookup_insert_eq. reflexivity.
Qed.

(** C3.  For a node with a finite chain of live ancestors and one frame
    of fuel per ancestor, [isVisible] returns; with [wm] the node's world
    matrix: when, for one of the culler's planes, all eight transformed
    corners of the bounding box have signed distance below zero, the
    result is [false] and the node's flag is set to [false]; otherwise the
    result is [true] and the flag is set to [true].  With the identity
    projection-view matrix, a node at the origin with the default box is
    visible. *)
Theorem isVisible_spec (c : FrustumCuller) (fuel : nat) (node : nat)
    (h : heap) (path : list nat) (n0 : SceneNode) :
  ancestry h path node -> (length path <= fuel)%nat ->
  h !! node = Some n0 ->
  (exists (wm : mat4) (h1 : heap) (n1 : SceneNode),
     getWorldMatrix fuel node h = Some (wm, h1) /\
     h1 !! node = Some n1 /\ cache_equiv n0 n1 /\
     (Exists (fun plane =>
                Forall (fun p => fltb (signed_distance plane wm p) f0 = true)
                       (corners (boundingBox n0)))
             (planes c) ->
      isVisible c fuel node h
      = Some (false, <[node := set_visible false n1]> h1)) /\
     (~ Exists (fun plane =>
                  Forall (fun p => fltb (signed_distance plane wm p) f0 = true)
                         (corners (boundingBox n0)))
               (planes c) ->
      isVisible c fuel node h
      = Some (true, <[node := set_visible true n1]> h1)))
  /\
  (exists h',
     isVisible (FrustumCuller_new (mat4_diag f1)) 1 0%nat
               {[0%nat := SceneNode_new "node"]}
     = Some (true, h') /\ visible <$> h' !! 0%nat = Some true).
Proof.
  intros Hanc Hfuel Hn0. split; [|apply isVisible_identity_default].
  destruct (getWorldMatrix_path h path node Hanc fuel Hfuel)
    as (wm & h1 & Hw & _ & He).
  destruct (heap_cache_equiv_lookup h h1 node n0 He Hn0) as (n1 & Hn1 & Hc).
  exists wm, h1, n1. split; [exact Hw|]. split; [exact Hn1|].
  split; [exact Hc|].
  assert (Hbb : boundingBox n1 = boundingBox n0) by (apply Hc).
  unfold isVisible. rewrite Hw. cbn [mbind option_bind]. rewrite Hn1.
  cbn [mbind option_bind]. rewrite Hbb.
  pose proof (some_plane_rejects_spec (planes c) wm (boundingBox n0)) as Hs.
  unfold outside in Hs.
  destruct (some_plane_rejects (planes c) wm (corners (boundingBox n0))).
  - split; [reflexivity|]. intros Hno. exfalso. apply Hno, Hs. reflexivity.
  - split; [|reflexivity]. intros Hex. apply Hs in Hex. discriminate.
Qed.

Lemma isVisible_spec_witness :
  let c := FrustumCuller_new (mat4_diag f1) in
  let n := set_transform
             (setPosition (mkVec3 (float_of_Z 5) f0 f0) Transform_new)
             (SceneNode_new "far") in
  let h : gmap nat SceneNode := {[0%nat := n]} in
  ancestry h [0%nat] 0%nat /\ (length [0%nat] <= 1)%nat /\
  h !! 0%nat = Some n /\
  exists (wm : mat4) (h1 : gmap nat SceneNode) (n1 : SceneNode),
    getWorldMatrix 1 0%nat h = Some (wm, h1) /\
    h1 !! 0%nat = Some n1 /\
    isVisible c 1 0%nat h = Some (false, <[0%nat := set_visible false n1]> h1).
Proof.
  intros c n h.
  assert (Hn : h !! 0%nat = Some n) by (vm_compute; reflexivity).
  assert (Ha : ancestry h [0%nat] 0%nat)
    by (apply (ancestry_root h 0%nat n Hn); reflexivity).
  assert (Hl : (length [0%nat] <= 1)%nat) by (simpl; lia).
  split; [exact Ha|]. split; [exact Hl|]. split; [exact Hn|].
  destruct (proj1 (isVisible_spec c 1 0%nat h [0%nat] n Ha Hl Hn))
    as (wm & h1 & n1 & Hw & Hn1 & _ & Hrej & _).
  exists wm, h1, n1. split; [exact Hw|]. split; [exact Hn1|].
  apply Hrej.
  assert (Hwm : wm = node_matrix n).
  { rewrite (getWorldMatrix_root h 0%nat n 0 Hn eq_refl) in Hw.
    injection Hw as <- _. reflexivity. }
  rewrite Hwm.
  apply Exists_cons_tl, Exists_cons_hd.
  repeat constructor; vm_compute; reflexivity.
Defined.

(** ** Level of detail *)

Lemma SFcompare_swap (a b : float) :
  SFcompare b a = option_map CompOpp (SFcompare a b).
Proof.
  destruct a as [sa|sa| |sa ma ea], b as [sb|sb| |sb mb eb];
    try destruct sa; try destruct sb; simpl; try reflexivity.
  - rewrite (Z.compare_antisym ea eb).
    destruct (ea ?= eb); simpl; try reflexivity.
    change (Pos.compare_cont Eq mb ma) with (Pos.compare mb ma).
    change (Pos.compare_cont Eq ma mb) with (Pos.compare ma mb).
    rewrite (Pos.compare_antisym ma mb).
    destruct (ma ?= mb)%positive; reflexivity.
  - rewrite (Z.compare_antisym ea eb).
    destruct (ea ?= eb); simpl; try reflexivity.
    change (Pos.compare_cont Eq mb ma) with (Pos.compare mb ma).
    change (Pos.compare_cont Eq ma mb) with (Pos.compare ma mb).
    rewrite (Pos.compare_antisym ma mb).
    destruct (ma ?= mb)%positive; reflexivity.
Qed.

Lemma fltb_irrefl (a : float) : fltb a a = false.
Proof.
  unfold fltb, SFltb. pose proof (SFcompare_swap a a) as H.
  destruct (SFcompare a a) as [[]|]; simpl in H; try reflexivity.
  discriminate H.
Qed.

(** [a <= b] excludes [b < a] (and both fail on NaN). *)
Lemma fleb_not_fltb (a b : float) : fleb a b = true -> fltb b a = false.
Proof.
  unfold fleb, fltb, SFleb, SFltb. rewrite (SFcompare_swap a b).
  destruct (SFcompare a b) as [[]|]; simpl; auto; discriminate.
Qed.

(** *** Sorting a sorted table *)

Lemma fltb_asym (a b : float) : fltb a b = true -> fltb b a = false.
Proof.
  unfold fltb, SFltb. rewrite (SFcompare_swap a b).
  destruct (SFcompare a b) as [[]|]; simpl; auto; discriminate.
Qed.

Lemma lod_strict_sorted (lvls : list LODLevel) :
  lod_strict lvls = true -> lod_sorted lvls.
Proof.
  induction lvls as [|a rest IH]; simpl; intros H; [constructor|].
  apply andb_prop in H as [Ha Hrest]. constructor; [apply IH, Hrest|].
  rewrite Forall_forall. intros b Hb.
  rewrite forallb_forall in Ha. apply fltb_asym, Ha, list_elem_of_In, Hb.
Qed.

Lemma insertion_step_last (prefix : list LODLevel) (val : LODLevel) :
  Forall (fun p => lod_less val p = false) prefix ->
  insertion_step prefix val = prefix ++ [val].
Proof.
  intros Hall. unfold insertion_step.
  destruct prefix as [|first tl] eqn:Hp; [reflexivity|]. rewrite <- Hp in *.
  assert (Hfirst : lod_less val first = false).
  { rewrite Hp in Hall. apply Forall_cons_1 in Hall. tauto. }
  rewrite Hfirst.
  destruct (rev prefix) as [|p ps] eqn:Hrev.
  - apply (f_equal (@rev LODLevel)) in Hrev. rewrite rev_involutive in Hrev.
    rewrite Hrev in Hp. discriminate Hp.
  - assert (Hlast : lod_less val p = false).
    { rewrite Forall_forall in Hall. apply Hall.
      apply list_elem_of_In, in_rev. rewrite Hrev. left. reflexivity. }
    cbn [unguarded_linear_insert]. rewrite Hlast.
    change (rev (val :: p :: ps)) with (rev (p :: ps) ++ [val]).
    rewrite <- Hrev, rev_involutive. reflexivity.
Qed.

Lemma fold_insertion_sorted (todo done : list LODLevel) :
  lod_sorted (done ++ todo) ->
  fold_left insertion_step todo done = done ++ todo.
Proof.
  revert done. induction todo as [|x todo IH]; intros done Hs; simpl.
  - rewrite app_nil_r. reflexivity.
  - rewrite insertion_step_last.
    + rewrite IH by (rewrite <- app_assoc; exact Hs).
      rewrite <- app_assoc. reflexivity.
    + rewrite Forall_forall. intros p Hp.
      apply (StronglySorted_app_1_elem_of _ done (x :: todo) p x Hs Hp).
      left.
Qed.

(** [std::sort] leaves a sorted table as it is. *)
Lemma std_sort_sorted (lvls : list LODLevel) :
  lod_sorted lvls -> std_sort lvls = lvls.
Proof. intros Hs. apply (fold_insertion_sorted lvls []), Hs. Qed.

(** [addLevel] keeps a table sorted when no threshold is a NaN, more
    precisely when the comparison is total on the thresholds present. *)
Lemma addLevel_appends (done : list LODLevel) (d : float) (m : string) :
  lod_sorted (done ++ [mkLODLevel d m]) ->
  addLevel d m (mkLOD done) = mkLOD (done ++ [mkLODLevel d m]).
Proof. intros Hs. unfold addLevel. simpl. rewrite std_sort_sorted; auto. Qed.

Ltac float_cases :=
  repeat match goal with
         | H : context [Z.compare ?a ?b] |- _ =>
             destruct (Z.compare_spec a b); simpl in H
         | |- context [Z.compare ?a ?b] =>
             destruct (Z.compare_spec a b); simpl
         | H : context [Pos.compare_cont Eq ?a ?b] |- _ =>
             change (Pos.compare_cont Eq a b) with (Pos.compare a b) in H;
             destruct (Pos.compare_spec a b); simpl in H
         | |- context [Pos.compare_cont Eq ?a ?b] =>
             change (Pos.compare_cont Eq a b) with (Pos.compare a b);
             destruct (Pos.compare_spec a b); simpl
         end;
  subst; try discriminate; try reflexivity; try lia.

Lemma fltb_trans (a b c : float) :
  fltb a b = true -> fltb b c = true -> fltb a c = true.
Proof.
  unfold fltb, SFltb.
  destruct a as [sa|sa| |sa ma ea], b as [sb|sb| |sb mb eb],
           c as [sc|sc| |sc mc ec];
    try destruct sa; try destruct sb; try destruct sc; simpl;
    intros H1 H2; try discriminate; try reflexivity; float_cases.
Qed.

(** With [b] not a NaN, whatever is below [c] is below [b] or [b] is
    below [c]. *)
Lemma fltb_neg_trans (a b c : float) :
  b <> S754_nan -> fltb a c = true ->
  fltb a b = true \/ fltb b c = true.
Proof.
  unfold fltb, SFltb. intros Hb.
  destruct a as [sa|sa| |sa ma ea], b as [sb|sb| |sb mb eb],
           c as [sc|sc| |sc mc ec];
    try congruence;
    try destruct sa; try destruct sb; try destruct sc; simpl;
    intros H1; try discriminate; auto; float_cases; auto.
Qed.

Lemma unguarded_linear_insert_elem (val x : LODLevel) (rp : list LODLevel) :
  x ∈ unguarded_linear_insert val rp <-> x = val \/ x ∈ rp.
Proof.
  induction rp as [|p ps IH]; simpl.
  - rewrite list_elem_of_singleton. rewrite elem_of_nil. tauto.
  - destruct (lod_less val p).
    + rewrite !elem_of_cons, IH. tauto.
    + rewrite !elem_of_cons. tauto.
Qed.

(** The walk to the left keeps a prefix sorted; the prefix is given last
    element first, so sorted reads: no element is less than a later
    one. *)
Lemma unguarded_linear_insert_sorted (val : LODLevel) (rp : list LODLevel) :
  Forall (fun l => distanceThreshold l <> S754_nan) rp ->
  StronglySorted (fun a b => lod_less a b = false) rp ->
  StronglySorted (fun a b => lod_less a b = false)
                 (unguarded_linear_insert val rp).
Proof.
  intros Hnan Hs. induction rp as [|p ps IH]; simpl.
  - repeat constructor.
  - apply Forall_cons_1 in Hnan as [Hp Hnan].
    apply StronglySorted_inv in Hs as [Hs Hall].
    destruct (lod_less val p) eqn:Hvp.
    + constructor; [apply IH; assumption|].
      rewrite Forall_forall. intros x Hx.
      apply unguarded_linear_insert_elem in Hx as [->|Hx].
      * apply fltb_asym, Hvp.
      * rewrite Forall_forall in Hall. apply Hall, Hx.
    + constructor; [constructor; assumption|].
      constructor; [exact Hvp|].
      rewrite Forall_forall. intros q Hq.
      rewrite Forall_forall in Hall. specialize (Hall q Hq).
      unfold lod_less in *.
      destruct (fltb (distanceThreshold val) (distanceThreshold q)) eqn:Hvq;
        [|reflexivity].
      destruct (fltb_neg_trans _ (distanceThreshold p) _ Hp Hvq); congruence.
Qed.

Lemma elem_of_rev {A : Type} (x : A) (l : list A) : x ∈ rev l <-> x ∈ l.
Proof.
  split; intros H; apply list_elem_of_In; apply list_elem_of_In in H;
    [apply in_rev | apply in_rev in H]; exact H.
Qed.

Lemma StronglySorted_rev {A : Type} (R : A -> A -> Prop) (l : list A) :
  StronglySorted R (rev l) <-> StronglySorted (fun a b => R b a) l.
Proof.
  induction l as [|x l IH]; simpl.
  - split; constructor.
  - split.
    + intros H. apply StronglySorted_app in H as (Hall & Hl & _).
      constructor; [apply IH, Hl|].
      rewrite Forall_forall. intros y Hy. apply Hall.
      * apply elem_of_rev, Hy.
      * apply list_elem_of_singleton. reflexivity.
    + intros H. apply StronglySorted_inv in H as [Hl Hall].
      apply StronglySorted_app. split; [|split].
      * intros y z Hy Hz. apply list_elem_of_singleton in Hz as ->.
        rewrite Forall_forall in Hall. apply Hall, elem_of_rev, Hy.
      * apply IH, Hl.
      * repeat constructor.
Qed.

Lemma insertion_step_sorted (prefix : list LODLevel) (val : LODLevel) :
  Forall (fun l => distanceThreshold l <> S754_nan) prefix ->
  lod_sorted prefix -> lod_sorted (insertion_step prefix val).
Proof.
  intros Hnan Hs. unfold insertion_step.
  destruct prefix as [|first tl] eqn:Hp; [repeat constructor|].
  rewrite <- Hp in *.
  destruct (lod_less val first) eqn:Hvf.
  - constructor; [exact Hs|].
    rewrite Forall_forall. intros p Hin. rewrite Hp in Hin, Hs.
    apply StronglySorted_inv in Hs as [_ Hall].
    apply elem_of_cons in Hin as [->|Hin].
    + apply fltb_asym, Hvf.
    + rewrite Forall_forall in Hall. specialize (Hall p Hin).
      unfold lod_less in *.
      destruct (fltb (distanceThreshold p) (distanceThreshold val)) eqn:Hpv;
        [|reflexivity].
      rewrite (fltb_trans _ _ _ Hpv Hvf) in Hall. discriminate.
  - unfold lod_sorted. apply StronglySorted_rev.
    apply unguarded_linear_insert_sorted.
    + rewrite Forall_forall in *. intros x Hx. apply Hnan, elem_of_rev, Hx.
    + apply (StronglySorted_rev (fun a b => lod_less b a = false)).
      rewrite rev_involutive. exact Hs.
Qed.

(** [addLevel] keeps a table sorted, as long as no threshold already in
    it is a NaN. *)
Lemma addLevel_sorted (d : float) (m : string) (table : LOD) :
  Forall (fun l => distanceThreshold l <> S754_nan) (levels table) ->
  lod_sorted (levels table) ->
  lod_sorted (levels (addLevel d m table)).
Proof.
  intros Hnan Hs. unfold addLevel, std_sort. cbn [levels].
  rewrite fold_left_app. cbn [fold_left].
  change (fold_left insertion_step (levels table) [])
    with (std_sort (levels table)).
  rewrite std_sort_sorted by exact Hs.
  apply insertion_step_sorted; assumption.
Qed.

(** *** Selection *)

Lemma getMesh_scan_none (d : float) (lvls : list LODLevel) :
  getMesh_scan d lvls = None <->
  Forall (fun l => fltb d (distanceThreshold l) = false) lvls.
Proof.
  induction lvls as [|l ls IH]; simpl.
  - split; auto.
  - destruct (fltb d (distanceThreshold l)) eqn:Hl.
    + split; [discriminate|]. intros H. inversion H; congruence.
    + rewrite IH. split; [constructor; auto | intros H; inversion H; auto].
Qed.

(** The scan stops at a level above [d] that no other level above [d]
    undercuts. *)
Lemma getMesh_scan_smallest (d : float) (lvls : list LODLevel) :
  lod_sorted lvls ->
  Exists (fun l => fltb d (distanceThreshold l) = true) lvls ->
  exists lvl, lvl ∈ lvls /\ fltb d (distanceThreshold lvl) = true /\
    getMesh_scan d lvls = Some (meshName lvl) /\
    forall l', l' ∈ lvls -> fltb d (distanceThreshold l') = true ->
               fltb (distanceThreshold l') (distanceThreshold lvl) = false.
Proof.
  induction lvls as [|l ls IH]; intros Hs Hex; [inversion Hex|].
  apply StronglySorted_inv in Hs as [Hs Hall]. simpl.
  destruct (fltb d (distanceThreshold l)) eqn:Hl.
  - exists l. split; [left|]. split; [assumption|]. split; [reflexivity|].
    intros l' Hin _. apply elem_of_cons in Hin as [->|Hin].
    + apply fltb_irrefl.
    + rewrite Forall_forall in Hall. exact (Hall l' Hin).
  - inversion Hex as [? ? Hh | ? ? Ht]; subst; [congruence|].
    destruct (IH Hs Ht) as (lvl & Hin & Hd & Hscan & Hmin).
    exists lvl. split; [right; assumption|]. split; [assumption|].
    split; [assumption|].
    intros l' Hin' Hd'. apply elem_of_cons in Hin' as [->|Hin'].
    + congruence.
    + apply Hmin; assumption.
Qed.

Lemma lod_sorted_last_largest (lvls : list LODLevel) (lvl : LODLevel) :
  lod_sorted lvls -> last lvls = Some lvl ->
  lvl ∈ lvls /\
  forall l', l' ∈ lvls ->
             fltb (distanceThreshold lvl) (distanceThreshold l') = false.
Proof.
  induction lvls as [|l ls IH]; intros Hs Hlast; [discriminate|].
  apply StronglySorted_inv in Hs as [Hs Hall].
  destruct ls as [|l2 ls'].
  - simpl in Hlast. injection Hlast as <-. split; [left|].
    intros l' Hin. apply list_elem_of_singleton in Hin as ->. apply fltb_irrefl.
  - change (last (l :: l2 :: ls')) with (last (l2 :: ls')) in Hlast.
    destruct (IH Hs Hlast) as [Hin Hmax]. split; [right; assumption|].
    intros l' Hin'. apply elem_of_cons in Hin' as [->|Hin'].
    + rewrite Forall_forall in Hall. exact (Hall lvl Hin).
    + apply Hmax, Hin'.
Qed.

(** C7.  On a table sorted ascending by threshold: when some threshold is
    strictly above [d], [getMesh d] is the mesh of a level above [d] with
    the smallest threshold among those; when [d] is at or beyond every
    threshold, it is the mesh of the last level, whose threshold is the
    largest; on an empty table it is the empty string. *)
Theorem getMesh_spec (table : LOD) (d : float) :
  lod_sorted (levels table) ->
  (Exists (fun l => fltb d (distanceThreshold l) = true) (levels table) ->
   exists lvl, lvl ∈ levels table /\
     fltb d (distanceThreshold lvl) = true /\
     getMesh table d = meshName lvl /\
     forall l', l' ∈ levels table ->
       fltb d (distanceThreshold l') = true ->
       fltb (distanceThreshold l') (distanceThreshold lvl) = false)
  /\
  (levels table <> [] ->
   Forall (fun l => fleb (distanceThreshold l) d = true) (levels table) ->
   exists lvl, last (levels table) = Some lvl /\
     getMesh table d = meshName lvl /\
     forall l', l' ∈ levels table ->
       fltb (distanceThreshold lvl) (distanceThreshold l') = false)
  /\
  (levels table = [] -> getMesh table d = EmptyString).
Proof.
  intros Hs. split; [|split].
  - intros Hex.
    destruct (getMesh_scan_smallest d (levels table) Hs Hex)
      as (lvl & Hin & Hd & Hscan & Hmin).
    exists lvl. unfold getMesh. rewrite Hscan. auto.
  - intros Hne Hall.
    assert (Hnone : getMesh_scan d (levels table) = None).
    { apply getMesh_scan_none. eapply Forall_impl; [exact Hall|].
      intros l Hl. simpl in Hl. apply fleb_not_fltb, Hl. }
    destruct (last (levels table)) as [lvl|] eqn:Hlast.
    + exists lvl. split; [reflexivity|]. unfold getMesh.
      rewrite Hnone, Hlast. split; [reflexivity|].
      apply (lod_sorted_last_largest _ _ Hs Hlast).
    + apply last_None in Hlast. contradiction.
  - intros Hnil. unfold getMesh. rewrite Hnil. reflexivity.
Qed.

Lemma getMesh_spec_witness :
  let table := addLevel (float_of_Z 50) "mid"
                 (addLevel (float_of_Z 200) "far"
                    (addLevel (float_of_Z 10) "near" (mkLOD []))) in
  let d := float_of_Z 20 in
  lod_sorted (levels table) /\
  (exists lvl, lvl ∈ levels table /\
     fltb d (distanceThreshold lvl) = true /\
     getMesh table d = meshName lvl /\
     forall l', l' ∈ levels table ->
       fltb d (distanceThreshold l') = true ->
       fltb (distanceThreshold l') (distanceThreshold lvl) = false) /\
  getMesh table d = "mid"%string.
Proof.
  intros table d.
  assert (Hlv : levels table
                = [ mkLODLevel (float_of_Z 10) "near";
                    mkLODLevel (float_of_Z 50) "mid";
                    mkLODLevel (float_of_Z 200) "far" ])
    by (vm_compute; reflexivity).
  assert (Hs : lod_sorted (levels table))
    by (rewrite Hlv; repeat constructor; vm_compute; reflexivity).
  split; [exact Hs|]. split; [|vm_compute; reflexivity].
  apply (proj1 (getMesh_spec table d Hs)).
  rewrite Hlv. apply Exists_cons_tl, Exists_cons_hd. vm_compute. reflexivity.
Defined.

(** ** Children and parent back-references *)

Lemma erase_remove_absent (c : nat) (v : list nat) :
  c ∉ v -> erase_remove c v = v.
Proof.
  intros Hc. unfold erase_remove. induction v as [|x v IH]; [reflexivity|].
  apply not_elem_of_cons in Hc as [Hne Hc].
  rewrite filter_cons_True by congruence. f_equal. apply IH, Hc.
Qed.

Lemma removeChild_children (h : heap) (this child : nat) (n : SceneNode) :
  h !! this = Some n ->
  removeChild this child h !! this
  = Some (set_children (erase_remove child (children n)) n).
Proof.
  intros Hn. unfold removeChild. rewrite lookup_alter_eq, Hn. reflexivity.
Qed.




(** C9.  [removeChild] writes the children sequence of the node it is
    called on and nothing else: the child's parent back-reference stays
    what it was, every other field of the node is as before, and every
    other node (the removed child among them) is untouched. *)
Theorem removeChild_frame (h : heap) (this child : nat) :
  (parent <$> removeChild this child h !! child = parent <$> h !! child) /\
  (forall x : nat, x <> this -> removeChild this child h !! x = h !! x) /\
  (forall n : SceneNode, h !! this = Some n ->
     exists n', removeChild this child h !! this = Some n' /\
       name n' = name n /\ transform n' = transform n /\
       parent n' = parent n /\ boundingBox n' = boundingBox n /\
       lod n' = lod n /\ visible n' = visible n).
Proof.
  assert (Hother : forall x : nat, x <> this ->
            removeChild this child h !! x = h !! x).
  { intros x Hx. unfold removeChild. rewrite lookup_alter_ne by congruence.
    reflexivity. }
  split; [|split; [exact Hother|]].
  - destruct (decide (child = this)) as [->|Hne].
    + unfold removeChild. rewrite lookup_alter_eq.
      destruct (h !! this); reflexivity.
    + rewrite Hother by exact Hne. reflexivity.
  - intros n Hn. eexists. split; [apply removeChild_children, Hn|].
    simpl. tauto.
Qed.

Lemma removeChild_frame_witness :
  let h0 : gmap nat SceneNode :=
    <[1%nat := SceneNode_new "c"]> {[0%nat := SceneNode_new "p"]} in
  let h := addChild 0%nat 1%nat h0 in
  parent <$> h !! 1%nat = Some (Some 0%nat) /\
  parent <$> removeChild 0%nat 1%nat h !! 1%nat = parent <$> h !! 1%nat.
Proof.
  intros h0 h. split; [vm_compute; reflexivity|].
  exact (proj1 (removeChild_frame h 0%nat 1%nat)).
Defined.

(** A removed child still names its former parent. *)
Lemma removeChild_keeps_back_reference :
  let h0 : gmap nat SceneNode :=
    <[1%nat := SceneNode_new "c"]> {[0%nat := SceneNode_new "p"]} in
  let h := removeChild 0%nat 1%nat (addChild 0%nat 1%nat h0) in
  children <$> h !! 0%nat = Some [] /\
  parent <$> h !! 1%nat = Some (Some 0%nat).
Proof. split; reflexivity. Qed.

(** ** Construction *)

Lemma identity_matrix_of_new_transform :
  fst (getMatrix Transform_new) = mat4_diag f1.
Proof. vm_compute. reflexivity. Qed.

(** The all-zero quaternion, which a value-initialised [quat()] is when
    GLM does not initialise in its default constructor, gives the same
    matrix as the identity rotation. *)
Lemma mat4_cast_zero_quat :
  mat4_cast (quat_wxyz f0 f0 f0 f0) = mat4_cast quat_identity /\
  mat4_cast quat_identity = mat4_diag f1.
Proof. split; vm_compute; reflexivity. Qed.

(** C10.  A node made by [SceneNode(name)] is visible, has no children, no
    parent and no LOD level, carries the identity transform (zero
    position, identity rotation, unit scale, local matrix the identity)
    and the box from (-1,-1,-1) to (1,1,1). *)
Theorem SceneNode_new_spec (nm : string) :
  name (SceneNode_new nm) = nm /\
  visible (SceneNode_new nm) = true /\
  children (SceneNode_new nm) = [] /\
  parent (SceneNode_new nm) = None /\
  levels (lod (SceneNode_new nm)) = [] /\
  position (transform (SceneNode_new nm)) = mkVec3 f0 f0 f0 /\
  rotation (transform (SceneNode_new nm)) = quat_wxyz f1 f0 f0 f0 /\
  scale (transform (SceneNode_new nm)) = mkVec3 f1 f1 f1 /\
  node_matrix (SceneNode_new nm) = mat4_diag f1 /\
  boundingBox (SceneNode_new nm)
  = mkBoundingBox (mkVec3 (float_of_Z (-1)) (float_of_Z (-1)) (float_of_Z (-1)))
                  (mkVec3 (float_of_Z 1) (float_of_Z 1) (float_of_Z 1)).
Proof.
  pose proof identity_matrix_of_new_transform as Hm.
  repeat split; solve [reflexivity | exact Hm].
Qed.

(* ===================================================================== *)
(** ** Reading back what was written *)

Lemma is_space_not_digit (c : ascii) : is_space c = true -> is_digit c = false.
Proof.
  destruct c as [[] [] [] [] [] [] [] []]; intros H; try discriminate H;
    reflexivity.
Qed.

Lemma is_space_not_word (c : ascii) (acc : list ascii) :
  is_space c = true -> word_step acc c = None.
Proof. intros H. unfold word_step. rewrite H. reflexivity. Qed.

Lemma is_space_not_float (c : ascii) (st : fscan) :
  is_space c = true -> float_step st c = None.
Proof.
  destruct c as [[] [] [] [] [] [] [] []]; intros H; try discriminate H;
    reflexivity.
Qed.

Lemma is_space_not_int (c : ascii) (st : iscan) :
  is_space c = true -> int_step st c = None.
Proof.
  destruct c as [[] [] [] [] [] [] [] []]; intros H; try discriminate H;
    reflexivity.
Qed.

Lemma is_digit_not_sign (c : ascii) : is_digit c = true -> is_sign c = false.
Proof.
  destruct c as [[] [] [] [] [] [] [] []]; intros H; try discriminate H;
    reflexivity.
Qed.

Lemma is_digit_not_space (c : ascii) : is_digit c = true -> is_space c = false.
Proof.
  destruct c as [[] [] [] [] [] [] [] []]; intros H; try discriminate H;
    reflexivity.
Qed.

Lemma skip_ws_app (ws b : list ascii) :
  forallb is_space ws = true -> skip_ws (ws ++ b) = skip_ws b.
Proof.
  induction ws as [|c ws IH]; simpl; [reflexivity|].
  intros H. apply andb_prop in H as [Hc Hws]. rewrite Hc. apply IH, Hws.
Qed.

Lemma all_space_repeat (n : nat) : forallb is_space (repeat " "%char n) = true.
Proof. induction n as [|n IH]; simpl; auto. Qed.

(** A scan that took a whole token takes the same token when whitespace
    follows it, and leaves the whitespace. *)
Lemma scan_token {St : Type} (step : St -> ascii -> option St)
    (tok rest : list ascii) (st st' : St) :
  scan step st tok = (st', []) ->
  (forall c s, is_space c = true -> step s c = None) ->
  starts_space rest = true ->
  scan step st (tok ++ rest) = (st', rest).
Proof.
  intros Hscan Hstop Hrest. revert st Hscan.
  induction tok as [|c tok IH]; intros st Hscan; simpl in *.
  - injection Hscan as ->. destruct rest as [|c rest]; [discriminate|].
    simpl in *. rewrite Hstop by exact Hrest. reflexivity.
  - destruct (step st c) as [st1|].
    + apply IH, Hscan.
    + discriminate Hscan.
Qed.

(** Every extraction looks at the stream past its leading whitespace. *)
Lemma read_word_ws (b b' : list ascii) :
  skip_ws b = skip_ws b' -> read_word (Good b) = read_word (Good b').
Proof. intros H. unfold read_word. rewrite H. reflexivity. Qed.

Lemma read_float_ws (b b' : list ascii) :
  skip_ws b = skip_ws b' -> read_float (Good b) = read_float (Good b').
Proof. intros H. unfold read_float. rewrite H. reflexivity. Qed.

Lemma read_int_ws (b b' : list ascii) :
  skip_ws b = skip_ws b' -> read_int (Good b) = read_int (Good b').
Proof. intros H. unfold read_int. rewrite H. reflexivity. Qed.

Lemma read_word_skip (ws b : list ascii) :
  forallb is_space ws = true ->
  read_word (Good (ws ++ b)) = read_word (Good b).
Proof. intros H. apply read_word_ws, skip_ws_app, H. Qed.

Lemma read_float_skip (ws b : list ascii) :
  forallb is_space ws = true ->
  read_float (Good (ws ++ b)) = read_float (Good b).
Proof. intros H. apply read_float_ws, skip_ws_app, H. Qed.

Lemma read_int_skip (ws b : list ascii) :
  forallb is_space ws = true ->
  read_int (Good (ws ++ b)) = read_int (Good b).
Proof. intros H. apply read_int_ws, skip_ws_app, H. Qed.

Lemma scan_word_all (w acc : list ascii) :
  forallb (fun c => negb (is_space c)) w = true ->
  scan word_step acc w = (acc ++ w, []).
Proof.
  revert acc. induction w as [|c w IH]; intros acc H; simpl in *.
  - rewrite app_nil_r. reflexivity.
  - apply andb_prop in H as [Hc Hw]. unfold word_step at 1.
    apply negb_true_iff in Hc. rewrite Hc. rewrite IH by exact Hw.
    rewrite <- app_assoc. reflexivity.
Qed.

Lemma read_word_token (w : string) (rest : list ascii) :
  word_ok w = true -> starts_space rest = true ->
  read_word (Good (lit w ++ rest)) = (Some w, Good rest).
Proof.
  intros Hw Hrest. unfold word_ok in Hw. unfold read_word.
  destruct (lit w) as [|c cs] eqn:Hlit; [discriminate|].
  assert (Hc : is_space c = false).
  { simpl in Hw. apply andb_prop in Hw as [Hc _]. apply negb_true_iff, Hc. }
  change ((c :: cs) ++ rest) with (c :: (cs ++ rest)).
  cbn [skip_ws]. rewrite Hc.
  change (c :: (cs ++ rest)) with ((c :: cs) ++ rest).
  rewrite (scan_token word_step (c :: cs) rest [] (c :: cs)).
  - rewrite <- Hlit. unfold lit. rewrite string_of_list_ascii_of_string.
    reflexivity.
  - apply (scan_word_all (c :: cs) []), Hw.
  - intros c0 s Hc0. apply is_space_not_word, Hc0.
  - exact Hrest.
Qed.

Lemma read_float_token (f : float) (rest : list ascii) :
  text_stable f = true -> starts_space rest = true ->
  read_float (Good (show_float f ++ rest)) = (Some f, Good rest).
Proof.
  intros Hf Hrest. unfold text_stable in Hf. unfold read_float.
  destruct (scan float_step fscan_start (show_float f)) as [st r] eqn:Hscan.
  destruct r as [|? ?]; [|discriminate].
  destruct (convert_float (xtrc st)) as [v ok] eqn:Hconv.
  destruct ok; [|discriminate]. apply bool_decide_eq_true in Hf. subst v.
  destruct (show_float f) as [|c cs] eqn:Hshow.
  - simpl in Hscan. injection Hscan as <-. vm_compute in Hconv. discriminate.
  - assert (Hc : is_space c = false).
    { destruct (is_space c) eqn:Hc; [|reflexivity]. simpl in Hscan.
      rewrite (is_space_not_float c fscan_start Hc) in Hscan. discriminate. }
    change ((c :: cs) ++ rest) with (c :: (cs ++ rest)).
    cbn [skip_ws]. rewrite Hc.
    change (c :: (cs ++ rest)) with ((c :: cs) ++ rest).
    rewrite (scan_token float_step (c :: cs) rest fscan_start st Hscan).
    + rewrite Hconv. reflexivity.
    + intros c0 s Hc0. apply is_space_not_float, Hc0.
    + exact Hrest.
Qed.

Lemma uint_of_chars_of_uint (d : Decimal.uint) :
  uint_of_chars (chars_of_uint d) = d.
Proof. induction d; simpl; [reflexivity | rewrite IHd; reflexivity ..]. Qed.

Lemma chars_of_uint_digits (d : Decimal.uint) :
  forallb is_digit (chars_of_uint d) = true.
Proof. induction d; simpl; auto. Qed.

Lemma show_size_value (k : nat) : Z_of_digits (show_size k) = Z.of_nat k.
Proof.
  unfold Z_of_digits, show_size. rewrite uint_of_chars_of_uint.
  rewrite DecimalN.Unsigned.of_to. apply nat_N_Z.
Qed.

Lemma show_size_nonempty (k : nat) : show_size k <> [].
Proof.
  unfold show_size. intros H.
  assert (Hz : N.of_uint (N.to_uint (N.of_nat k)) = N.of_nat k)
    by apply DecimalN.Unsigned.of_to.
  destruct (N.to_uint (N.of_nat k)) eqn:Hd; try discriminate H.
  simpl in Hz. destruct k; [discriminate Hd | discriminate Hz].
Qed.

Lemma scan_int_digits (ds acc : list ascii) (b : bool) :
  ds <> [] -> forallb is_digit ds = true ->
  scan int_step (mkIscan acc b) ds = (mkIscan (acc ++ ds) false, []).
Proof.
  revert acc b. induction ds as [|c ds IH]; intros acc b Hne Hd; [congruence|].
  simpl in Hd. apply andb_prop in Hd as [Hc Hds].
  simpl. unfold int_step at 1. rewrite Hc. simpl.
  destruct ds as [|c2 ds'].
  - simpl. reflexivity.
  - rewrite IH by (congruence || exact Hds). rewrite <- app_assoc. reflexivity.
Qed.

Lemma read_int_token (k : nat) (rest : list ascii) :
  Z.of_nat k <= int_max -> starts_space rest = true ->
  read_int (Good (show_size k ++ rest)) = (Some (Z.of_nat k), Good rest).
Proof.
  intros Hk Hrest. unfold read_int.
  pose proof (show_size_nonempty k) as Hne.
  pose proof (chars_of_uint_digits (N.to_uint (N.of_nat k))) as Hd.
  fold (show_size k) in Hd.
  pose proof (show_size_value k) as Hv.
  destruct (show_size k) as [|c cs] eqn:Hshow; [congruence|].
  assert (Hc : is_digit c = true) by (simpl in Hd; apply andb_prop in Hd; tauto).
  change ((c :: cs) ++ rest) with (c :: (cs ++ rest)).
  cbn [skip_ws]. rewrite (is_digit_not_space c Hc).
  change (c :: (cs ++ rest)) with ((c :: cs) ++ rest).
  rewrite (scan_token int_step (c :: cs) rest (mkIscan [] true)
             (mkIscan (c :: cs) false)).
  - cbn [itext]. unfold convert_int. rewrite (is_digit_not_sign c Hc).
    rewrite Hv. unfold int_min, int_max in *.
    destruct (Z.ltb_spec (Z.of_nat k) (-2147483648)); [lia|].
    destruct (Z.ltb_spec 2147483647 (Z.of_nat k)); [lia|]. reflexivity.
  - apply (scan_int_digits (c :: cs) [] true); [discriminate | exact Hd].
  - intros c0 s Hc0. apply is_space_not_int, Hc0.
  - exact Hrest.
Qed.

(** The keywords of the format, each written with the space after it. *)
Lemma read_kw_Node (b : list ascii) :
  read_word (Good (lit "Node " ++ b)) = (Some "Node"%string, Good (lit " " ++ b)).
Proof. reflexivity. Qed.

Lemma read_kw_Position (b : list ascii) :
  read_word (Good (lit "  Position " ++ b))
  = (Some "Position"%string, Good (lit " " ++ b)).
Proof. reflexivity. Qed.

Lemma read_kw_Rotation (b : list ascii) :
  read_word (Good (lit "  Rotation " ++ b))
  = (Some "Rotation"%string, Good (lit " " ++ b)).
Proof. reflexivity. Qed.

Lemma read_kw_Scale (b : list ascii) :
  read_word (Good (lit "  Scale " ++ b))
  = (Some "Scale"%string, Good (lit " " ++ b)).
Proof. reflexivity. Qed.

Lemma read_kw_LODLevels (b : list ascii) :
  read_word (Good (lit "  LODLevels " ++ b))
  = (Some "LODLevels"%string, Good (lit " " ++ b)).
Proof. reflexivity. Qed.

Lemma read_kw_BoundingBox (b : list ascii) :
  read_word (Good (lit "  BoundingBox " ++ b))
  = (Some "BoundingBox"%string, Good (lit " " ++ b)).
Proof. reflexivity. Qed.

Lemma read_kw_Children (b : list ascii) :
  read_word (Good (lit "  Children " ++ b))
  = (Some "Children"%string, Good (lit " " ++ b)).
Proof. reflexivity. Qed.

Lemma set_lod_own (n : SceneNode) : set_lod (lod n) n = n.
Proof. destruct n; reflexivity. Qed.

(** The LOD loop reads back the level lines of a table and rebuilds
    the table. *)
Lemma lod_loop_levels (ind : list ascii) (todo : list LODLevel) :
  forallb is_space ind = true ->
  forall (done rest b : list _) (node : nat) (n0 : SceneNode) (h0 : heap),
  lod_sorted (done ++ todo) ->
  forallb level_ok todo = true ->
  lod n0 = mkLOD done ->
  skip_ws b
  = skip_ws (concat (map (fun lvl =>
                       ind ++ lit "    " ++
                       show_float (distanceThreshold lvl) ++ lit " " ++
                       lit (meshName lvl) ++ [nl]) todo) ++ rest) ->
  exists b',
    lod_loop (length todo) node (Good b) (<[node := n0]> h0)
    = Returns (Good b', <[node := set_lod (mkLOD (done ++ todo)) n0]> h0)
    /\ skip_ws b' = skip_ws rest.
Proof.
  intros Hind. induction todo as [|lvl todo IH];
    intros done rest b node n0 h0 Hs Hok Hlod Hb.
  - exists b. split; [|exact Hb]. simpl. rewrite app_nil_r, <- Hlod.
    rewrite set_lod_own. reflexivity.
  - simpl in Hok. apply andb_prop in Hok as [Hlvl Hok].
    unfold level_ok in Hlvl. apply andb_prop in Hlvl as [Hd Hm].
    cbn [length lod_loop map concat] in *.
    rewrite <- !app_assoc in Hb.
    rewrite (read_float_ws _ _ Hb).
    rewrite (read_float_skip ind) by exact Hind.
    rewrite (read_float_skip (lit "    ")) by reflexivity.
    rewrite read_float_token by (exact Hd || reflexivity).
    cbn [extracted mbind outcome_bind].
    rewrite (read_word_skip (lit " ")) by reflexivity.
    rewrite read_word_token by (exact Hm || reflexivity).
    cbn [extracted_word fst snd default].
    rewrite alter_insert_eq. cbn [lod set_lod]. rewrite Hlod.
    rewrite addLevel_appends.
    2:{ destruct lvl as [d m]. simpl.
        apply (StronglySorted_app_1_l _ (done ++ [mkLODLevel d m]) todo).
        rewrite <- app_assoc. exact Hs. }
    destruct (IH (done ++ [lvl]) rest ([nl] ++ concat (map (fun lvl0 =>
                       ind ++ lit "    " ++
                       show_float (distanceThreshold lvl0) ++ lit " " ++
                       lit (meshName lvl0) ++ [nl]) todo) ++ rest)
                 node
                 (set_lod (mkLOD (done ++ [lvl])) n0) h0)
      as (b' & Hloop & Hb').
    + rewrite <- app_assoc. exact Hs.
    + exact Hok.
    + reflexivity.
    + apply skip_ws_app. reflexivity.
    + exists b'. split; [|exact Hb'].
      destruct lvl as [d m]. cbn [distanceThreshold meshName] in *.
      etransitivity; [exact Hloop|]. rewrite <- app_assoc. reflexivity.
Qed.

(** *** Copies in the store *)

Lemma rebuilt_keeps (fuel : nat) (h : heap) (old : gset nat) (h1 h2 : heap) :
  keeps old h1 h2 ->
  forall a a', rebuilt fuel h a old h1 a' -> rebuilt fuel h a old h2 a'.
Proof.
  intros Hk. induction fuel as [|fuel IH]; intros a a' Hr; [exact Hr|].
  destruct Hr as (Hold & n & n' & Hn & Hn' & Hp & Hkids).
  destruct (Hk a' n' Hold Hn') as (n2 & Hn2 & Hp2 & Hc2).
  split; [exact Hold|]. exists n, n2. split; [exact Hn|].
  split; [exact Hn2|]. split.
  - unfold same_payload in *. intuition congruence.
  - rewrite Hc2. eapply Forall2_impl; [exact Hkids|]. intros c c' Hc.
    apply IH, Hc.
Qed.

Lemma rebuilt_old_mono (fuel : nat) (h : heap) (old old' : gset nat)
    (h1 : heap) :
  old' ⊆ old ->
  forall a a', rebuilt fuel h a old h1 a' -> rebuilt fuel h a old' h1 a'.
Proof.
  intros Hsub. induction fuel as [|fuel IH]; intros a a' Hr; [exact Hr|].
  destruct Hr as (Hold & n & n' & Hn & Hn' & Hp & Hkids).
  split; [set_solver|]. exists n, n'. repeat (split; [assumption|]).
  eapply Forall2_impl; [exact Hkids|]. intros c c' Hc. apply IH, Hc.
Qed.

Lemma addChild_lookup_this (this child : nat) (g : heap) (nd : SceneNode) :
  this <> child -> g !! this = Some nd ->
  addChild this child g !! this
  = Some (set_children (children nd ++ [child]) nd).
Proof.
  intros Hne Hn. unfold addChild.
  rewrite lookup_alter_eq, lookup_alter_ne by congruence.
  rewrite Hn. reflexivity.
Qed.

Lemma addChild_lookup_child (this child : nat) (g : heap) (nc : SceneNode) :
  this <> child -> g !! child = Some nc ->
  addChild this child g !! child = Some (set_parent (Some this) nc).
Proof.
  intros Hne Hn. unfold addChild.
  rewrite lookup_alter_ne, lookup_alter_eq by congruence.
  rewrite Hn. reflexivity.
Qed.

Lemma addChild_lookup_other (this child x : nat) (g : heap) :
  x <> this -> x <> child -> addChild this child g !! x = g !! x.
Proof.
  intros H1 H2. unfold addChild.
  rewrite !lookup_alter_ne by congruence. reflexivity.
Qed.

(** The children loop reads back the texts of the children one after the
    other and appends the copies to the node. *)
Lemma child_loop_rebuilds (fuel : nat) (h : heap) (node : nat)
    (O : gset nat) (cs : list nat) (ts : list (list ascii)) :
  node ∈ O ->
  Forall2 (reads_back fuel h) cs ts ->
  forall (g : heap) (nd : SceneNode) (rest b : list ascii)
         (done_cs done_rs : list nat),
    g !! node = Some nd -> children nd = done_rs -> O ⊆ dom g ->
    Forall2 (fun c r => rebuilt fuel h c O g r) done_cs done_rs ->
    skip_ws b = skip_ws (concat ts ++ rest) ->
    exists (b' : list ascii) (g' : heap) (rs : list nat),
      child_loop (deser fuel) (length cs) node (Good b) g
      = Returns (Good b', g') /\
      skip_ws b' = skip_ws rest /\
      g' !! node = Some (set_children (done_rs ++ rs) nd) /\
      Forall2 (fun c r => rebuilt fuel h c O g' r)
              (done_cs ++ cs) (done_rs ++ rs) /\
      (forall x n, x <> node -> g !! x = Some n -> g' !! x = Some n).
Proof.
  intros HO Hkids. induction Hkids as [|c t cs ts Hc Hrest IH];
    intros g nd rest b done_cs done_rs Hnd Hdone Hsub Hprev Hb.
  - exists b, g, []. simpl. rewrite !app_nil_r. split; [reflexivity|].
    split; [exact Hb|]. split; [|split; [exact Hprev | auto]].
    rewrite Hnd, <- Hdone. destruct nd; reflexivity.
  - cbn [concat] in Hb. rewrite <- app_assoc in Hb.
    destruct (Hc g (concat ts ++ rest) b Hb)
      as (r & b1 & g1 & Hdes & Hb1 & Hext & Hcopy).
    assert (Hfresh : r ∉ dom g).
    { destruct fuel; [destruct Hcopy | exact (proj1 Hcopy)]. }
    assert (Hnode_dom : node ∈ dom g) by set_solver.
    assert (Hne : node <> r) by (intros ->; contradiction).
    assert (Hnd1 : g1 !! node = Some nd)
      by (eapply lookup_weaken; [exact Hnd | exact Hext]).
    assert (Hr1 : exists nr, g1 !! r = Some nr).
    { destruct fuel; [destruct Hcopy|].
      destruct Hcopy as (_ & n & n' & _ & Hn' & _). eauto. }
    destruct Hr1 as [nr Hr1].
    set (g2 := addChild node r g1).
    assert (Hkeep1 : keeps O g1 g2).
    { intros x n Hx Hxn. destruct (decide (x = r)) as [->|Hxr].
      - exists (set_parent (Some node) n). unfold g2.
        rewrite (addChild_lookup_child node r g1 n Hne Hxn).
        split; [reflexivity|]. split; [|reflexivity].
        unfold same_payload. simpl. tauto.
      - exists n. unfold g2. rewrite addChild_lookup_other.
        + split; [exact Hxn|]. split; [|reflexivity].
          unfold same_payload. tauto.
        + intros ->. contradiction.
        + exact Hxr. }
    assert (Hkeep0 : keeps O g g2).
    { intros x n Hx Hxn. apply Hkeep1; [exact Hx|].
      eapply lookup_weaken; [exact Hxn | exact Hext]. }
    destruct (IH g2 (set_children (done_rs ++ [r]) nd) rest b1
                 (done_cs ++ [c]) (done_rs ++ [r]))
      as (b' & g' & rs & Hloop & Hb' & Hnode' & Hall & Hframe).
    + unfold g2. rewrite (addChild_lookup_this node r g1 nd Hne Hnd1).
      rewrite Hdone. reflexivity.
    + reflexivity.
    + unfold g2, addChild. rewrite !dom_alter_L.
      etransitivity; [exact Hsub|]. apply subseteq_dom, Hext.
    + apply Forall2_app.
      * eapply Forall2_impl; [exact Hprev|]. intros c0 r0 H0.
        eapply rebuilt_keeps; [exact Hkeep0 | exact H0].
      * constructor; [|constructor].
        eapply rebuilt_keeps; [exact Hkeep1|].
        eapply rebuilt_old_mono; [exact Hsub | exact Hcopy].
    + exact Hb1.
    + exists b', g', (r :: rs). cbn [length child_loop].
      rewrite Hdes. cbn [mbind outcome_bind]. fold g2.
      split; [exact Hloop|]. split; [exact Hb'|]. split; [|split].
      * rewrite Hnode'. rewrite <- app_assoc. reflexivity.
      * rewrite <- !app_assoc in Hall. exact Hall.
      * intros x n Hx Hxn. apply Hframe; [exact Hx|]. unfold g2.
        rewrite addChild_lookup_other.
        -- eapply lookup_weaken; [exact Hxn | exact Hext].
        -- exact Hx.
        -- intros ->. apply Hfresh. eapply elem_of_dom_2, Hxn.
Qed.

(** *** The round trip of one subtree *)

Lemma Forall_reads_back_texts (P : nat -> list ascii -> Prop) (cs : list nat) :
  Forall (fun c => exists t, P c t) cs -> exists ts, Forall2 P cs ts.
Proof.
  induction 1 as [|c cs [t Ht] _ [ts Hts]].
  - exists []. constructor.
  - exists (t :: ts). constructor; assumption.
Qed.

Lemma vec3_eta (v : vec3) : mkVec3 (v3x v) (v3y v) (v3z v) = v.
Proof. destruct v; reflexivity. Qed.

Lemma quat_roundtrip_order (q : quat) :
  quat_wxyz (qw q) (qx q) (qy q) (qz q) = q.
Proof. destruct q; reflexivity. Qed.

Lemma extracted_word_pair (o : option string) (s : istream) :
  extracted_word (o, s) = (default EmptyString o, s).
Proof. reflexivity. Qed.

Ltac read_step :=
  first
    [ rewrite read_kw_Node | rewrite read_kw_Position
    | rewrite read_kw_Rotation | rewrite read_kw_Scale
    | rewrite read_kw_LODLevels | rewrite read_kw_BoundingBox
    | rewrite read_kw_Children
    | rewrite (read_word_skip (lit " ")) by reflexivity
    | rewrite (read_word_skip [nl]) by reflexivity
    | rewrite (read_word_skip (repeat " "%char _)) by apply all_space_repeat
    | rewrite read_word_token by (first [assumption | reflexivity])
    | rewrite (read_float_skip (lit " ")) by reflexivity
    | rewrite read_float_token by (first [assumption | reflexivity])
    | rewrite (read_int_skip (lit " ")) by reflexivity
    | rewrite read_int_token by (first [assumption | reflexivity]) ];
  rewrite ?extracted_word_pair;
  cbn [extracted mbind outcome_bind default from_option id].

Lemma serialized_reads_back (fuel : nat) (h : heap) :
  forall (a indent : nat), wf_tree fuel h a ->
    exists text, serializeNode fuel a h indent = Some text /\
                 reads_back fuel h a text.
Proof.
  induction fuel as [|fuel IH]; intros a indent Hwf; [destruct Hwf|].
  destruct Hwf as (n & Hn & Hok & Hkids).
  assert (Hts : exists ts, Forall2 (fun c t =>
              serializeNode fuel c h (indent + 4) = Some t /\
              reads_back fuel h c t) (children n) ts).
  { apply Forall_reads_back_texts. eapply Forall_impl; [exact Hkids|].
    intros c Hc. apply IH, Hc. }
  destruct Hts as [ts Hts].
  assert (HmapM : mapM (fun c => serializeNode fuel c h (indent + 4))
                       (children n) = Some ts).
  { apply mapM_Some_2. eapply Forall2_impl; [exact Hts|].
    intros c t [H1 _]. exact H1. }
  assert (Hback : Forall2 (reads_back fuel h) (children n) ts).
  { eapply Forall2_impl; [exact Hts|]. intros c t [_ H2]. exact H2. }
  clear Hts Hkids IH.
  cbn [serializeNode]. rewrite Hn. cbn [mbind option_bind]. rewrite HmapM.
  cbn [mbind option_bind].
  eexists. split; [reflexivity|].
  unfold node_ok, vec3_stable, quat_stable in Hok.
  repeat match goal with
         | H : (_ && _) = true |- _ => apply andb_prop in H as [? ?]
         end.
  repeat match goal with
         | H : (_ <=? _) = true |- _ => apply Z.leb_le in H
         end.
  intros h0 rest b Hb. rewrite <- !app_assoc in Hb.
  unfold getPosition, getRotation, getScale in *.
  cbn [deser]. rewrite (read_word_ws _ _ Hb).
  read_step. read_step. rewrite String.eqb_refl. cbn [negb].
  do 2 read_step. unfold make_shared.
  set (a0 := fresh (dom h0)).
  repeat read_step.
  rewrite !alter_insert_eq. rewrite Nat2Z.id.
  match goal with
  | |- context [lod_loop _ a0 (Good ([nl] ++ concat ?lines ++ ?restL))
                         (<[a0 := ?n1]> h0)] =>
      destruct (lod_loop_levels (repeat " "%char indent) (levels (lod n))
                  (all_space_repeat indent) [] restL
                  ([nl] ++ concat lines ++ restL) a0 n1 h0)
        as (bL & HL & HbL);
      [ apply lod_strict_sorted; assumption
      | assumption
      | reflexivity
      | apply skip_ws_app; reflexivity
      | rewrite HL ]
  end.
  cbn [mbind outcome_bind]. rewrite (read_word_ws _ _ HbL).
  repeat read_step.
  rewrite !alter_insert_eq. rewrite Nat2Z.id.
  assert (Hfresh : a0 ∉ dom h0) by apply is_fresh.
  match goal with
  | |- context [child_loop _ _ a0 _ (<[a0 := ?n1]> h0)] =>
      set (nhdr := n1); set (g := <[a0 := nhdr]> h0)
  end.
  destruct (child_loop_rebuilds fuel h a0 (dom g) (children n) ts
              ltac:(unfold g; rewrite dom_insert_L; set_solver) Hback
              g nhdr rest ([nl] ++ concat ts ++ rest) [] [])
    as (b' & g' & rs & Hloop & Hb' & Hnode' & Hall & Hframe).
  { unfold g. apply lookup_insert_eq. }
  { reflexivity. }
  { reflexivity. }
  { constructor. }
  { apply skip_ws_app. reflexivity. }
  rewrite Hloop. cbn [mbind outcome_bind].
  exists a0, b', g'. split; [reflexivity|]. split; [exact Hb'|]. split.
  - apply map_subseteq_spec. intros x nx Hx. apply Hframe.
    + intros ->. apply Hfresh. eapply elem_of_dom_2, Hx.
    + unfold g. rewrite lookup_insert_ne; [exact Hx|].
      intros <-. apply Hfresh. eapply elem_of_dom_2, Hx.
  - split; [exact Hfresh|].
    exists n, (set_children ([] ++ rs) nhdr).
    split; [exact Hn|]. split; [exact Hnode'|]. split.
    + unfold same_payload, nhdr. simpl.
      rewrite !vec3_eta, quat_roundtrip_order.
      repeat split; try reflexivity.
      * destruct (boundingBox n); reflexivity.
      * destruct (lod n); reflexivity.
    + simpl in Hall. simpl.
      eapply Forall2_impl; [exact Hall|]. intros c r Hc.
      eapply rebuilt_old_mono; [|exact Hc].
      unfold g. rewrite dom_insert_L. set_solver.
Qed.


Lemma serialize_reads_back (fuel : nat) (h : heap) (root : nat) :
  wf_tree fuel h root ->
  exists text, serialize fuel root h = Some text /\
    forall h0 : heap, exists (r : nat) (h1 : heap),
      deserialize fuel (Some text) h0 = Returns (Some r, h1) /\
      h0 ⊆ h1 /\
      rebuilt fuel h root (dom h0) h1 r.
Proof.
  intros Hwf.
  destruct (serialized_reads_back fuel h root 0 Hwf) as (text & Hser & Hback).
  exists text. split; [exact Hser|]. intros h0.
  destruct (Hback h0 [] text) as (r & b' & h1 & Hdes & _ & Hext & Hcopy).
  { rewrite app_nil_r. reflexivity. }
  exists r, h1. unfold deserialize. rewrite Hdes. cbn [mbind outcome_bind].
  auto.
Qed.




(** *** Rotation *)

(** C5, as the code has it.  The serializer writes the rotation as the
    tokens x, y, z, w, and the deserializer reads four tokens in that same
    order and hands them to the quaternion constructor as
    (w, x, y, z) = (fourth, first, second, third): the first token becomes
    x and the fourth w.  For a tree that the format can carry, the
    rotation stored after writing and reading is the rotation written. *)
Theorem rotation_written_and_read_in_order (fuel : nat) (h : heap)
    (root : nat) :
  wf_tree fuel h root ->
  exists (n : SceneNode) (text post : list ascii),
    h !! root = Some n /\
    serialize fuel root h = Some text /\
    text = lit "Node " ++ lit (name n) ++ [nl] ++
           lit "  Position " ++
           show_float (v3x (position (transform n))) ++ lit " " ++
           show_float (v3y (position (transform n))) ++ lit " " ++
           show_float (v3z (position (transform n))) ++ [nl] ++
           lit "  Rotation " ++
           show_float (qx (rotation (transform n))) ++ lit " " ++
           show_float (qy (rotation (transform n))) ++ lit " " ++
           show_float (qz (rotation (transform n))) ++ lit " " ++
           show_float (qw (rotation (transform n))) ++ [nl] ++ post /\
    forall h0 : heap, exists (r : nat) (h1 : heap) (n' : SceneNode),
      deserialize fuel (Some text) h0 = Returns (Some r, h1) /\
      h1 !! r = Some n' /\
      qx (rotation (transform n')) = qx (rotation (transform n)) /\
      qy (rotation (transform n')) = qy (rotation (transform n)) /\
      qz (rotation (transform n')) = qz (rotation (transform n)) /\
      qw (rotation (transform n')) = qw (rotation (transform n)).
Proof.
  intros Hwf.
  destruct (serialize_reads_back fuel h root Hwf) as (text & Hser & Hback).
  destruct fuel as [|fuel]; [destruct Hwf|].
  destruct Hwf as (n & Hn & _ & _).
  pose proof Hser as Htext. unfold serialize in Htext.
  cbn [serializeNode] in Htext. rewrite Hn in Htext.
  cbn [mbind option_bind] in Htext.
  destruct (mapM _ (children n)) as [kids|]; [|discriminate Htext].
  cbn [mbind option_bind] in Htext. injection Htext as Htext.
  unfold getPosition, getRotation, getScale in Htext.
  cbn [repeat app] in Htext.
  exists n, text. eexists.
  split; [exact Hn|]. split; [exact Hser|]. split.
  - rewrite <- Htext. reflexivity.
  - intros h0. destruct (Hback h0) as (r & h1 & Hdes & _ & Hcopy).
    destruct Hcopy as (_ & n0 & n' & Hn0 & Hn' & (_ & _ & Hrot & _) & _).
    exists r, h1, n'. split; [exact Hdes|]. split; [exact Hn'|].
    assert (n0 = n) by congruence. subst n0. rewrite Hrot. auto.
Qed.

Lemma rotation_written_and_read_in_order_witness :
  let q := mkQuatXYZW f1 f2 (float_of_Z 3) (float_of_Z 4) in
  let n := set_transform (setRotation q Transform_new) (SceneNode_new "n") in
  let h : gmap nat SceneNode := {[0%nat := n]} in
  wf_tree 1 h 0%nat /\
  exists (text : list ascii),
    serialize 1 0%nat h = Some text /\
    forall h0 : gmap nat SceneNode,
    exists (r : nat) (h1 : gmap nat SceneNode) (n' : SceneNode),
      deserialize 1 (Some text) h0 = Returns (Some r, h1) /\
      h1 !! r = Some n' /\
      qx (rotation (transform n')) = f1 /\
      qy (rotation (transform n')) = f2 /\
      qz (rotation (transform n')) = float_of_Z 3 /\
      qw (rotation (transform n')) = float_of_Z 4.
Proof.
  intros q n h.
  assert (Hwf : wf_tree 1 h 0%nat).
  { cbn [wf_tree]. exists n. split; [vm_compute; reflexivity|].
    split; [vm_compute; reflexivity | constructor]. }
  split; [exact Hwf|].
  destruct (rotation_written_and_read_in_order 1 h 0%nat Hwf)
    as (n0 & text & post & Hn0 & Hser & _ & Hback).
  assert (Hn : h !! 0%nat = Some n) by (vm_compute; reflexivity).
  assert (n0 = n) by congruence. subst n0.
  exists text. split; [exact Hser|]. exact Hback.
Defined.

(** The claim C5 as worded fails: of the tokens 1 2 3 4 after [Rotation]
    the first goes to x and the fourth to w, not the first to w; and the
    quaternion (x, y, z, w) = (1, 2, 3, 4), all components distinct, is
    stored after writing and reading as it was written. *)
Lemma rotation_order_mismatch_counterexample :
  let t1 := f1 in
  let t2 := f2 in
  let t3 := float_of_Z 3 in
  let t4 := float_of_Z 4 in
  let text := lit "Node n Position 0 0 0 Rotation 1 2 3 4 Scale 1 1 1 LODLevels 0 BoundingBox -1 -1 -1 1 1 1 Children 0" in
  let q := mkQuatXYZW t1 t2 t3 t4 in
  let n := set_transform (setRotation q Transform_new) (SceneNode_new "n") in
  (exists (r : nat) (h1 : gmap nat SceneNode),
     deserialize 1 (Some text) ∅ = Returns (Some r, h1) /\
     (rotation ∘ transform) <$> h1 !! r = Some (mkQuatXYZW t1 t2 t3 t4) /\
     (rotation ∘ transform) <$> h1 !! r
     <> Some (rotation_first_token_to_w t1 t2 t3 t4)) /\
  (exists (written : list ascii) (r : nat) (h1 : gmap nat SceneNode),
     serialize 1 0%nat {[0%nat := n]} = Some written /\
     deserialize 1 (Some written) ∅ = Returns (Some r, h1) /\
     (rotation ∘ transform) <$> h1 !! r = Some q).
Proof.
  intros t1 t2 t3 t4 text q n. split.
  - eexists. eexists. split; [vm_compute; reflexivity|].
    split; [vm_compute; reflexivity|]. vm_compute. discriminate.
  - eexists. eexists. eexists. split; [vm_compute; reflexivity|].
    split; vm_compute; reflexivity.
Qed.

(** *** Failure *)

Lemma child_loop_skips_failed_child
    (rec : istream -> heap -> outcome (option nat * istream * heap))
    (count node : nat) (s s1 : istream) (h h1 : heap) :
  rec s h = Returns (None, s1, h1) ->
  child_loop rec (S count) node s h = child_loop rec count node s1 h1.
Proof. intros H. cbn [child_loop]. rewrite H. reflexivity. Qed.

Lemma deser_after_Node_returns_node (fuel : nat) (s s' : istream) (h : heap)
    (res : option nat * istream * heap) :
  read_word s = (Some "Node"%string, s') ->
  deser (S fuel) s h = Returns res ->
  exists node, res.1.1 = Some node.
Proof.
  intros Hread. cbn [deser]. rewrite Hread. rewrite String.eqb_refl.
  cbn [negb].
  repeat first
    [ match goal with
      | |- context [extracted ?x] =>
          destruct x as [[?|] ?]; cbn [extracted mbind outcome_bind];
          try discriminate
      | |- context [lod_loop ?a ?b ?c ?d] =>
          destruct (lod_loop a b c d) as [[? ?]| |];
          cbn [mbind outcome_bind]; try discriminate
      | |- context [child_loop ?a ?b ?c ?d ?e] =>
          destruct (child_loop a b c d e) as [[? ?]| |];
          cbn [mbind outcome_bind]; try discriminate
      | |- context [make_shared ?a ?b] => destruct (make_shared a b)
      | |- context [extracted_word ?x] => destruct (extracted_word x)
      | |- context [let '(_, _) := read_word ?x in _] => destruct (read_word x)
      end ].
  intros H. injection H as <-. eexists. reflexivity.
Qed.

(** C6, as the code has it.  [deser] gives no node when the stream yields
    no first token or a first token other than [Node], and then leaves
    the store as it was; when the first token is [Node], no later token
    is checked: every return carries a node.  In the children loop a
    child for which [deser] gives no node is skipped, and the loop goes
    on with the parent.  A file that cannot be opened gives no node. *)
Theorem deser_fails_only_at_first_token (fuel : nat) (s : istream) (h : heap) :
  (forall tok s', read_word s = (tok, s') -> tok <> Some "Node"%string ->
     deser (S fuel) s h = Returns (None, s', h)) /\
  (forall s' res, read_word s = (Some "Node"%string, s') ->
     deser (S fuel) s h = Returns res -> exists node, res.1.1 = Some node) /\
  (forall rec count node s1 h1, rec s h = Returns (None, s1, h1) ->
     child_loop rec (S count) node s h = child_loop rec count node s1 h1) /\
  deserialize fuel None h = Returns (None, h).
Proof.
  split; [|split; [|split]].
  - intros tok s' Hread Htok. cbn [deser]. rewrite Hread.
    destruct tok as [t|]; [|reflexivity].
    destruct (String.eqb_spec t "Node") as [->|Hne]; [congruence|].
    reflexivity.
  - intros s' res Hread Hdes.
    exact (deser_after_Node_returns_node fuel s s' h res Hread Hdes).
  - intros rec count node s1 h1 Hrec.
    apply child_loop_skips_failed_child, Hrec.
  - reflexivity.
Qed.

Lemma deser_fails_only_at_first_token_witness :
  let s := Good (lit "Nodes x") in
  read_word s = (Some "Nodes"%string, Good (lit " x")) /\
  deser 1 s ∅ = Returns (None, Good (lit " x"), ∅).
Proof.
  intros s.
  assert (Hread : read_word s = (Some "Nodes"%string, Good (lit " x")))
    by reflexivity.
  split; [exact Hread|].
  apply (proj1 (deser_fails_only_at_first_token 0 s ∅) _ _ Hread).
  discriminate.
Defined.

(** The claim C6 as worded fails: a stream that announces two children
    and ends after the first gives the root with that one child. *)
Lemma truncated_children_counterexample :
  let text := lit "Node r Position 0 0 0 Rotation 0 0 0 1 Scale 1 1 1 LODLevels 0 BoundingBox -1 -1 -1 1 1 1 Children 2 Node a Position 0 0 0 Rotation 0 0 0 1 Scale 1 1 1 LODLevels 0 BoundingBox -1 -1 -1 1 1 1 Children 0" in
  exists (r c : nat) (h1 : gmap nat SceneNode),
    deserialize 2 (Some text) ∅ = Returns (Some r, h1) /\
    children <$> h1 !! r = Some [c] /\
    name <$> h1 !! c = Some "a"%string.
Proof.
  intros text. eexists. eexists. eexists.
  split; [vm_compute; reflexivity|].
  split; vm_compute; reflexivity.
Qed.

(* ===================================================================== *)
(** * Further properties *)

(** ** Traversals *)

Lemma for_each_cons {A S : Type} (body : A -> S -> option S) (c : A)
    (cs : list A) (s : S) :
  for_each body (c :: cs) s = body c s ≫= for_each body cs.
Proof.
  unfold for_each. simpl. destruct (body c s) as [s'|]; simpl; [reflexivity|].
  induction cs as [|x cs IH]; simpl; auto.
Qed.

Lemma for_each_nil {A S : Type} (body : A -> S -> option S) (s : S) :
  for_each body [] s = Some s.
Proof. reflexivity. Qed.

Lemma updateWorldMatrix_same_store (fuel : nat) (force : bool) :
  forall (a : nat) (h h' : heap),
    updateWorldMatrix fuel force a h = Some h' -> h' = h.
Proof.
  induction fuel as [|fuel IH]; intros a h h'; [discriminate|].
  cbn [updateWorldMatrix]. destruct (h !! a) as [n|]; [|discriminate].
  cbn [mbind option_bind]. generalize (children n). intros cs.
  induction cs as [|c cs IHcs]; [intros [= <-]; reflexivity|].
  rewrite for_each_cons.
  destruct (updateWorldMatrix fuel force c h) as [h1|] eqn:Hc;
    [|discriminate].
  apply IH in Hc. subst h1. exact IHcs.
Qed.

(** X1.  [updateWorldMatrix], whatever [force], returns on every finite
    subtree and leaves the store exactly as it was. *)
Theorem updateWorldMatrix_changes_nothing (fuel : nat) (force : bool)
    (a : nat) (h : heap) :
  (subtree_within fuel h a -> updateWorldMatrix fuel force a h = Some h) /\
  (forall h', updateWorldMatrix fuel force a h = Some h' -> h' = h).
Proof.
  split; [|intros h'; apply updateWorldMatrix_same_store].
  revert a. induction fuel as [|fuel IH]; intros a; [intros []|].
  cbn [updateWorldMatrix subtree_within].
  intros (n & Hn & Hkids). rewrite Hn. cbn [mbind option_bind].
  induction Hkids as [|c cs Hc _ IHcs]; [reflexivity|].
  rewrite for_each_cons, (IH c Hc). exact IHcs.
Qed.

Lemma updateWorldMatrix_changes_nothing_witness :
  let h : gmap nat SceneNode :=
    addChild 0%nat 1%nat
      (<[1%nat := SceneNode_new "c"]> {[0%nat := SceneNode_new "p"]}) in
  subtree_within 2 h 0%nat /\ updateWorldMatrix 2 true 0%nat h = Some h.
Proof.
  intros h.
  assert (Hs : subtree_within 2 h 0%nat).
  { eexists. split; [vm_compute; reflexivity|].
    constructor; [|constructor].
    eexists. split; [vm_compute; reflexivity | constructor]. }
  split; [exact Hs|].
  exact (proj1 (updateWorldMatrix_changes_nothing 2 true 0%nat h) Hs).
Defined.

Lemma mapM_cons {A B : Type} (f : A -> option B) (x : A) (l : list A) :
  mapM f (x :: l) = y ← f x; k ← mapM f l; Some (y :: k).
Proof. reflexivity. Qed.

(** [gather] appends the nodes of the subtree in pre-order. *)
Lemma gather_preorder (fuel : nat) (h : heap) :
  forall (a : nat) (all : list nat),
    gather fuel a h all = (fun l => all ++ l) <$> preorder fuel h a.
Proof.
  induction fuel as [|fuel IH]; intros a all; [reflexivity|].
  cbn [gather preorder]. destruct (h !! a) as [n|]; [|reflexivity].
  cbn [mbind option_bind].
  assert (Hloop : forall cs acc,
            for_each (fun c => gather fuel c h) cs acc
            = (fun ks => acc ++ concat ks) <$> mapM (preorder fuel h) cs).
  { induction cs as [|c cs IHcs]; intros acc.
    - cbn. rewrite app_nil_r. reflexivity.
    - rewrite for_each_cons, mapM_cons, IH.
      destruct (preorder fuel h c) as [lc|]; [|reflexivity].
      cbn [fmap option_fmap option_map mbind option_bind]. rewrite IHcs.
      destruct (mapM (preorder fuel h) cs) as [ks|]; [|reflexivity].
      cbn. rewrite <- app_assoc. reflexivity. }
  rewrite Hloop. destruct (mapM (preorder fuel h) (children n)); [|reflexivity].
  cbn. rewrite <- app_assoc. reflexivity.
Qed.

Lemma find_app {A : Type} (p : A -> bool) (l1 l2 : list A) :
  List.find p (l1 ++ l2)
  = match List.find p l1 with Some x => Some x | None => List.find p l2 end.
Proof.
  induction l1 as [|x l1 IH]; simpl; [reflexivity|].
  destruct (p x); [reflexivity | exact IH].
Qed.

Lemma findNode_preorder (fuel : nat) (nm : string) (h : heap) :
  forall (a : nat) (l : list nat),
    preorder fuel h a = Some l ->
    findNode fuel nm a h = Some (List.find (has_name h nm) l).
Proof.
  induction fuel as [|fuel IH]; intros a l; [discriminate|].
  cbn [preorder findNode]. destruct (h !! a) as [n|] eqn:Hn; [|discriminate].
  cbn [mbind option_bind].
  destruct (mapM (preorder fuel h) (children n)) as [ks|] eqn:Hks;
    [|discriminate].
  cbn [mbind option_bind]. intros [= <-].
  cbn [List.find]. unfold has_name at 1. rewrite Hn.
  destruct (String.eqb (name n) nm); [reflexivity|].
  apply mapM_Some_1 in Hks. clear Hn.
  induction Hks as [|c lc cs ks Hc _ IHks]; [reflexivity|].
  cbn [find_first concat]. rewrite (IH c lc Hc), find_app.
  destruct (List.find (has_name h nm) lc); [reflexivity | exact IHks].
Qed.

(** X2.  [findNode] returns the first node, in the order in which [gather]
    lists the subtree (pre-order), that bears the name; it returns
    [nullptr] exactly when no node of the subtree bears it, and a node it
    returns bears the name. *)
Theorem findNode_first_in_gather_order (fuel : nat) (nm : string)
    (root : nat) (h : heap) (all : list nat) :
  gather fuel root h [] = Some all ->
  findNode fuel nm root h = Some (List.find (has_name h nm) all) /\
  (findNode fuel nm root h = Some None <->
   Forall (fun x => has_name h nm x = false) all) /\
  (forall x, findNode fuel nm root h = Some (Some x) ->
     x ∈ all /\ name <$> h !! x = Some nm).
Proof.
  intros Hg. rewrite gather_preorder in Hg.
  destruct (preorder fuel h root) as [l|] eqn:Hpre; [|discriminate].
  cbn in Hg. injection Hg as <-.
  pose proof (findNode_preorder fuel nm h root l Hpre) as Hfind.
  split; [exact Hfind|]. rewrite Hfind. split; [split|].
  - intros [= Hnone]. rewrite Forall_forall. intros x Hx.
    apply (find_none _ _ Hnone), list_elem_of_In, Hx.
  - intros Hall. f_equal.
    destruct (List.find (has_name h nm) l) as [x|] eqn:Hx; [|reflexivity].
    apply find_some in Hx as [Hin Hname].
    rewrite Forall_forall in Hall.
    rewrite (Hall x) in Hname by (apply list_elem_of_In, Hin). discriminate.
  - intros x [= Hx]. apply find_some in Hx as [Hin Hname].
    split; [apply list_elem_of_In, Hin|].
    unfold has_name in Hname. destruct (h !! x) as [n|]; [|discriminate].
    apply String.eqb_eq in Hname. cbn. congruence.
Qed.

Lemma findNode_first_in_gather_order_witness :
  let h : gmap nat SceneNode :=
    addChild 0%nat 2%nat
      (addChild 1%nat 3%nat
         (addChild 0%nat 1%nat
            (<[3%nat := SceneNode_new "x"]>
               (<[2%nat := SceneNode_new "x"]>
                  (<[1%nat := SceneNode_new "a"]>
                     {[0%nat := SceneNode_new "Root"]}))))) in
  gather 3 0%nat h [] = Some [0; 1; 3; 2]%nat /\
  findNode 3 "x" 0%nat h = Some (Some 3%nat).
Proof.
  intros h.
  assert (Hg : gather 3 0%nat h [] = Some [0; 1; 3; 2]%nat)
    by (vm_compute; reflexivity).
  split; [exact Hg|].
  rewrite (proj1 (findNode_first_in_gather_order 3 "x" 0%nat h _ Hg)).
  vm_compute. reflexivity.
Defined.

(** ** Cycles *)

(** X3.  [addChild] checks for no cycle.  On a node from which the parent
    references never reach a root, [getWorldMatrix] does not return,
    however many frames it is given. *)
Theorem getWorldMatrix_diverges_on_parent_cycle (h : heap) (P : nat -> Prop) :
  (forall x, P x ->
     exists n p, h !! x = Some n /\ lock h (parent n) = Some p /\ P p) ->
  forall (fuel : nat) (a : nat), P a -> getWorldMatrix fuel a h = None.
Proof.
  intros Hclosed. induction fuel as [|fuel IH]; intros a Ha; [reflexivity|].
  destruct (Hclosed a Ha) as (n & p & Hn & Hl & Hp).
  cbn [getWorldMatrix]. rewrite Hn. cbn [mbind option_bind].
  rewrite Hl, (IH p Hp). reflexivity.
Qed.

Lemma getWorldMatrix_diverges_on_parent_cycle_witness :
  let h : gmap nat SceneNode :=
    addChild 0%nat 0%nat {[0%nat := SceneNode_new "self"]} in
  (forall x, x = 0%nat ->
     exists n p, h !! x = Some n /\ lock h (parent n) = Some p /\ p = 0%nat) /\
  forall fuel : nat, getWorldMatrix fuel 0%nat h = None.
Proof.
  intros h.
  assert (Hc : forall x, x = 0%nat ->
     exists n p, h !! x = Some n /\ lock h (parent n) = Some p /\ p = 0%nat).
  { intros x ->. eexists. exists 0%nat.
    split; [vm_compute; reflexivity|]. split; [vm_compute; reflexivity|].
    reflexivity. }
  split; [exact Hc|]. intros fuel.
  exact (getWorldMatrix_diverges_on_parent_cycle h (fun x => x = 0%nat) Hc
           fuel 0%nat eq_refl).
Defined.

Lemma mapM_None_elem {A B : Type} (f : A -> option B) (l : list A) (x : A) :
  x ∈ l -> f x = None -> mapM f l = None.
Proof.
  intros Hin Hx. apply mapM_None_2. apply Exists_exists. eauto.
Qed.

Lemma for_each_None_elem {A S : Type} (body : A -> S -> option S)
    (cs : list A) (x : A) (s : S) :
  x ∈ cs -> body x s = None ->
  (forall c s', body c s = Some s' -> s' = s) ->
  for_each body cs s = None.
Proof.
  intros Hin Hx Hsame. induction cs as [|c cs IH].
  - apply elem_of_nil in Hin. destruct Hin.
  - rewrite for_each_cons. apply elem_of_cons in Hin as [<-|Hin].
    + rewrite Hx. reflexivity.
    + destruct (body c s) as [s'|] eqn:Hc; [|reflexivity].
      apply Hsame in Hc. subst s'. apply IH, Hin.
Qed.

(** X4.  On a node from which some chain of children references never ends
    (a node listed below itself), the traversals that visit the whole
    subtree do not return, however many frames they are given:
    [serializeNode], [draw], [updateWorldMatrix] and [gather]. *)
Theorem subtree_traversals_diverge_on_child_cycle (h : heap)
    (P : nat -> Prop) :
  (forall x, P x ->
     exists n c, h !! x = Some n /\ c ∈ children n /\ P c) ->
  forall (fuel : nat) (a : nat), P a ->
    (forall indent, serializeNode fuel a h indent = None) /\
    (forall depth, draw fuel a h depth = None) /\
    (forall force, updateWorldMatrix fuel force a h = None) /\
    (forall all, gather fuel a h all = None).
Proof.
  intros Hclosed.
  assert (Hpre : forall fuel a, P a -> preorder fuel h a = None).
  { induction fuel as [|fuel IH]; intros a Ha; [reflexivity|].
    destruct (Hclosed a Ha) as (n & c & Hn & Hc & Hpc).
    cbn [preorder]. rewrite Hn. cbn [mbind option_bind].
    erewrite mapM_None_elem; [reflexivity | exact Hc | apply IH, Hpc]. }
  induction fuel as [|fuel IH]; intros a Ha;
    [repeat split; reflexivity|].
  destruct (Hclosed a Ha) as (n & c & Hn & Hc & Hpc).
  destruct (IH c Hpc) as (Hser & Hdraw & Hupd & _).
  split; [|split; [|split]].
  - intros indent. cbn [serializeNode]. rewrite Hn. cbn [mbind option_bind].
    erewrite mapM_None_elem; [reflexivity | exact Hc | apply Hser].
  - intros depth. cbn [draw]. rewrite Hn. cbn [mbind option_bind].
    erewrite mapM_None_elem; [reflexivity | exact Hc | apply Hdraw].
  - intros force. cbn [updateWorldMatrix]. rewrite Hn.
    cbn [mbind option_bind].
    apply (for_each_None_elem _ _ c h Hc (Hupd force)).
    intros c0 s' Hc0.
    exact (updateWorldMatrix_same_store fuel force c0 h s' Hc0).
  - intros all. rewrite gather_preorder, (Hpre _ _ Ha). reflexivity.
Qed.

Lemma subtree_traversals_diverge_on_child_cycle_witness :
  let h : gmap nat SceneNode :=
    addChild 0%nat 0%nat {[0%nat := SceneNode_new "self"]} in
  (forall x, x = 0%nat ->
     exists n c, h !! x = Some n /\ c ∈ children n /\ c = 0%nat) /\
  forall fuel : nat, serializeNode fuel 0%nat h 0 = None.
Proof.
  intros h.
  assert (Hc : forall x, x = 0%nat ->
     exists n c, h !! x = Some n /\ c ∈ children n /\ c = 0%nat).
  { intros x ->. eexists. exists 0%nat.
    split; [vm_compute; reflexivity|]. split; [left | reflexivity]. }
  split; [exact Hc|]. intros fuel.
  exact (proj1 (subtree_traversals_diverge_on_child_cycle h
                  (fun x => x = 0%nat) Hc fuel 0%nat eq_refl) 0%nat).
Defined.

(** ** World matrices and the matrix caches *)

Lemma getWorldMatrix_returns_ancestry (fuel : nat) (h : heap) :
  forall (a : nat) (r : mat4 * gmap nat SceneNode),
    getWorldMatrix fuel a h = Some r ->
    exists path, ancestry h path a /\ (length path <= fuel)%nat.
Proof.
  induction fuel as [|fuel IH]; intros a r; [discriminate|].
  cbn [getWorldMatrix]. destruct (h !! a) as [n|] eqn:Hn; [|discriminate].
  cbn [mbind option_bind].
  destruct (lock h (parent n)) as [p|] eqn:Hl.
  - destruct (getWorldMatrix fuel p h) as [rp|] eqn:Hp; [|discriminate].
    intros _. destruct (IH p rp Hp) as (path & Hanc & Hlen).
    exists (path ++ [a]). split.
    + eapply ancestry_step; eauto.
    + rewrite length_app. simpl. lia.
  - intros _. exists [a]. split; [|simpl; lia].
    eapply ancestry_root; eauto.
Qed.

Lemma path_product_functional (h : heap) (path : list nat) :
  forall m m', path_product h path m -> path_product h path m' -> m = m'.
Proof.
  induction path as [|a path IH] using rev_ind; intros m m' H H'.
  - inversion H as [? ? ? E | ? ? p ? ? ? E]. destruct p; discriminate E.
  - destruct path as [|b path'].
    + apply path_product_inv_single in H as (n & Hn & ->).
      apply path_product_inv_single in H' as (n' & Hn' & ->). congruence.
    + apply path_product_inv_snoc in H as (n & pm & Hn & Hp & ->);
        [|discriminate].
      apply path_product_inv_snoc in H' as (n' & pm' & Hn' & Hp' & ->);
        [|discriminate].
      rewrite (IH pm pm' Hp Hp'). congruence.
Qed.

Lemma path_product_cache_equiv (h g : heap) (path : list nat) (m : mat4) :
  heap_cache_equiv h g -> path_product h path m -> path_product g path m.
Proof.
  intros He Hp. induction Hp as [a n Hn | a n path m Hn Hp IH].
  - destruct (heap_cache_equiv_lookup _ _ _ _ He Hn) as (n' & Hn' & Hc).
    replace (node_matrix n) with (node_matrix n') by apply Hc.
    constructor. exact Hn'.
  - destruct (heap_cache_equiv_lookup _ _ _ _ He Hn) as (n' & Hn' & Hc).
    replace (node_matrix n) with (node_matrix n') by apply Hc.
    constructor; assumption.
Qed.

(** X5.  [getWorldMatrix] writes matrix caches and nothing else: in the store
    it leaves, every node has the name, parent, children, box, LOD table,
    flag, position, rotation and scale it had, and gives the same local
    matrix. *)
Theorem getWorldMatrix_writes_caches_only (fuel : nat) (a : nat) (h h' : heap)
    (m : mat4) :
  getWorldMatrix fuel a h = Some (m, h') ->
  forall x : nat, option_Forall2 cache_equiv (h !! x) (h' !! x).
Proof.
  intros Hw.
  destruct (getWorldMatrix_returns_ancestry fuel h a _ Hw)
    as (path & Hanc & Hlen).
  destruct (getWorldMatrix_path h path a Hanc fuel Hlen)
    as (m1 & h1 & Hw1 & _ & He).
  rewrite Hw in Hw1. injection Hw1 as <- <-. exact He.
Qed.

Lemma getWorldMatrix_writes_caches_only_witness :
  let h : gmap nat SceneNode :=
    addChild 0%nat 1%nat
      (<[1%nat := SceneNode_new "c"]> {[0%nat := SceneNode_new "p"]}) in
  exists (m : mat4) (h' : gmap nat SceneNode),
    getWorldMatrix 2 1%nat h = Some (m, h') /\
    forall x : nat, option_Forall2 cache_equiv (h !! x) (h' !! x).
Proof.
  intros h.
  destruct (getWorldMatrix 2 1%nat h) as [[m h']|] eqn:E;
    [|vm_compute in E; discriminate E].
  exists m, h'. split; [reflexivity|].
  exact (getWorldMatrix_writes_caches_only 2 1%nat h h' m E).
Defined.

(** X6.  The matrix [getWorldMatrix] returns does not depend on what the
    caches hold: on a store that differs in caches only it returns the
    same matrix, so a second call returns what the first did. *)
Theorem getWorldMatrix_cache_independent (fuel : nat) (a : nat) (h h' : heap)
    (m : mat4) :
  getWorldMatrix fuel a h = Some (m, h') ->
  (forall g : heap, heap_cache_equiv h g ->
     exists g', getWorldMatrix fuel a g = Some (m, g')) /\
  (exists h'', getWorldMatrix fuel a h' = Some (m, h'')).
Proof.
  intros Hw.
  destruct (getWorldMatrix_returns_ancestry fuel h a _ Hw)
    as (path & Hanc & Hlen).
  destruct (getWorldMatrix_path h path a Hanc fuel Hlen)
    as (m1 & h1 & Hw1 & Hprod & He).
  rewrite Hw in Hw1. injection Hw1 as <- <-.
  assert (Hany : forall g : heap, heap_cache_equiv h g ->
            exists g', getWorldMatrix fuel a g = Some (m, g')).
  { intros g Hg.
    pose proof (ancestry_cache_equiv h g path a Hg Hanc) as Hancg.
    destruct (getWorldMatrix_path g path a Hancg fuel Hlen)
      as (m2 & g2 & Hw2 & Hprod2 & _).
    exists g2. rewrite Hw2. do 2 f_equal.
    eapply path_product_functional; [exact Hprod2|].
    eapply path_product_cache_equiv; eauto. }
  split; [exact Hany | exact (Hany h' He)].
Qed.

Lemma getWorldMatrix_cache_independent_witness :
  let h : gmap nat SceneNode :=
    addChild 0%nat 1%nat
      (<[1%nat := SceneNode_new "c"]> {[0%nat := SceneNode_new "p"]}) in
  exists (m : mat4) (h' h'' : gmap nat SceneNode),
    getWorldMatrix 2 1%nat h = Some (m, h') /\
    getWorldMatrix 2 1%nat h' = Some (m, h'').
Proof.
  intros h.
  destruct (getWorldMatrix 2 1%nat h) as [[m h']|] eqn:E;
    [|vm_compute in E; discriminate E].
  destruct (proj2 (getWorldMatrix_cache_independent 2 1%nat h h' m E))
    as [h'' E2].
  exists m, h', h''. split; [reflexivity | exact E2].
Defined.

(** ** Attaching and detaching *)

Lemma ancestry_self (h : heap) (path : list nat) (a : nat) :
  ancestry h path a -> a ∈ path.
Proof.
  intros H. destruct H.
  - left.
  - apply elem_of_app. right. left.
Qed.

Lemma ancestry_agree (h h' : heap) (path : list nat) (a : nat) :
  ancestry h path a ->
  (forall x, x ∈ path ->
     exists n n', h !! x = Some n /\ h' !! x = Some n' /\ parent n' = parent n) ->
  (forall x : nat, h' !! x = None <-> h !! x = None) ->
  ancestry h' path a.
Proof.
  intros Hanc. induction Hanc as [a n Hn Hl | a p n path Hn Hl Hp IH];
    intros Hsame Hlive.
  - destruct (Hsame a ltac:(left)) as (n0 & n' & Hn0 & Hn' & Hpar).
    assert (n0 = n) by congruence. subst n0.
    eapply ancestry_root; [exact Hn'|]. rewrite Hpar.
    destruct (parent n) as [q|]; [|reflexivity]. simpl in *.
    destruct (h !! q) eqn:Hq; [discriminate|].
    apply Hlive in Hq. rewrite Hq. reflexivity.
  - destruct (Hsame a ltac:(apply elem_of_app; right; left))
      as (n0 & n' & Hn0 & Hn' & Hpar).
    assert (n0 = n) by congruence. subst n0.
    eapply ancestry_step; [exact Hn' | | apply IH].
    + rewrite Hpar. destruct (parent n) as [q|]; [|discriminate]. simpl in *.
      destruct (h !! q) eqn:Hq; [|discriminate].
      destruct (h' !! q) eqn:Hq'; [exact Hl|].
      apply Hlive in Hq'. congruence.
    + intros x Hx. apply Hsame, elem_of_app. left. exact Hx.
    + exact Hlive.
Qed.

Lemma path_product_agree (h h' : heap) (path : list nat) (m : mat4) :
  path_product h path m ->
  (forall x, x ∈ path ->
     exists n n', h !! x = Some n /\ h' !! x = Some n' /\
                  node_matrix n' = node_matrix n) ->
  path_product h' path m.
Proof.
  intros Hp. induction Hp as [a n Hn | a n path m Hn Hp IH]; intros Hsame.
  - destruct (Hsame a ltac:(left)) as (n0 & n' & Hn0 & Hn' & Ht).
    assert (n0 = n) by congruence. subst n0. rewrite <- Ht.
    constructor. exact Hn'.
  - destruct (Hsame a ltac:(apply elem_of_app; right; left))
      as (n0 & n' & Hn0 & Hn' & Ht).
    assert (n0 = n) by congruence. subst n0. rewrite <- Ht.
    constructor; [exact Hn'|]. apply IH. intros x Hx.
    apply Hsame, elem_of_app. left. exact Hx.
Qed.

Lemma ancestry_live (h : heap) (path : list nat) (a : nat) :
  ancestry h path a -> forall x, x ∈ path -> is_Some (h !! x).
Proof.
  induction 1 as [a n Hn Hl | a p n path Hn Hl Hp IH]; intros x Hx.
  - apply list_elem_of_singleton in Hx as ->. eauto.
  - apply elem_of_app in Hx as [Hx|Hx]; [apply IH, Hx|].
    apply list_elem_of_singleton in Hx as ->. eauto.
Qed.

Lemma addChild_live (this child x : nat) (h : heap) :
  addChild this child h !! x = None <-> h !! x = None.
Proof.
  unfold addChild. rewrite <- !not_elem_of_dom, !dom_alter_L. reflexivity.
Qed.

(** X7.  After [p.addChild(c)], for [c] not among [p] and its ancestors, the
    world matrix of [c] is the world matrix of [p] times the local matrix
    of [c]. *)
Theorem addChild_world_matrix (h : heap) (path : list nat) (p c : nat)
    (nc : SceneNode) (fuel : nat) :
  ancestry h path p -> c ∉ path -> h !! c = Some nc ->
  (length path < fuel)%nat ->
  exists (m : mat4) (g1 g2 : heap),
    getWorldMatrix fuel p h = Some (m, g1) /\
    getWorldMatrix fuel c (addChild p c h)
    = Some (mat4_mul m (node_matrix nc), g2).
Proof.
  intros Hanc Hc Hnc Hfuel.
  destruct (getWorldMatrix_path h path p Hanc fuel ltac:(lia))
    as (m & g1 & Hw & Hprod & _).
  assert (Hpc : p <> c).
  { intros ->. apply Hc. eapply ancestry_self, Hanc. }
  set (h' := addChild p c h).
  assert (Hsame : forall x, x ∈ path ->
            exists n n', h !! x = Some n /\ h' !! x = Some n' /\
                         parent n' = parent n /\
                         node_matrix n' = node_matrix n).
  { intros x Hx. destruct (ancestry_live h path p Hanc x Hx) as [n Hn].
    assert (x <> c) by (intros ->; contradiction).
    destruct (decide (x = p)) as [->|Hxp].
    - exists n, (set_children (children n ++ [c]) n).
      split; [exact Hn|]. split; [|split; reflexivity].
      unfold h'. apply addChild_lookup_this; assumption.
    - exists n, n. split; [exact Hn|]. split; [|split; reflexivity].
      unfold h'. rewrite addChild_lookup_other; assumption. }
  assert (Hanc' : ancestry h' (path ++ [c]) c).
  { eapply (ancestry_step h' c p (set_parent (Some p) nc)).
    - unfold h'. apply addChild_lookup_child; assumption.
    - cbn [parent set_parent lock].
      destruct (h' !! p) eqn:Hp; [reflexivity|].
      apply addChild_live in Hp.
      destruct (ancestry_live h path p Hanc p (ancestry_self _ _ _ Hanc))
        as [? Hp']. congruence.
    - eapply ancestry_agree;
        [exact Hanc | | exact (fun x => addChild_live p c x h)].
      intros x Hx. destruct (Hsame x Hx) as (n & n' & ? & ? & ? & _). eauto. }
  destruct (getWorldMatrix_path h' (path ++ [c]) c Hanc' fuel)
    as (m' & g2 & Hw' & Hprod' & _).
  { rewrite length_app. simpl. lia. }
  exists m, g1, g2. split; [exact Hw|]. rewrite Hw'. do 2 f_equal.
  eapply path_product_functional; [exact Hprod'|].
  change (node_matrix nc) with (node_matrix (set_parent (Some p) nc)).
  constructor.
  - unfold h'. apply addChild_lookup_child; assumption.
  - eapply path_product_agree; [exact Hprod|].
    intros x Hx. destruct (Hsame x Hx) as (n & n' & ? & ? & _ & ?). eauto.
Qed.

Lemma addChild_world_matrix_witness :
  let np := set_transform (setPosition (mkVec3 f1 f2 f0) Transform_new)
              (SceneNode_new "p") in
  let nc := set_transform (setScale (mkVec3 f2 f2 f2) Transform_new)
              (SceneNode_new "c") in
  let h : gmap nat SceneNode := <[1%nat := nc]> {[0%nat := np]} in
  ancestry h [0%nat] 0%nat /\ (1%nat ∉ [0%nat]) /\ h !! 1%nat = Some nc /\
  exists (m : mat4) (g1 g2 : gmap nat SceneNode),
    getWorldMatrix 2 0%nat h = Some (m, g1) /\
    getWorldMatrix 2 1%nat (addChild 0%nat 1%nat h)
    = Some (mat4_mul m (node_matrix nc), g2).
Proof.
  intros np nc h.
  assert (Ha : ancestry h [0%nat] 0%nat).
  { apply (ancestry_root h 0%nat np); vm_compute; reflexivity. }
  assert (Hc : 1%nat ∉ [0%nat]).
  { intros H. apply list_elem_of_singleton in H. discriminate H. }
  assert (Hn : h !! 1%nat = Some nc) by (vm_compute; reflexivity).
  split; [exact Ha|]. split; [exact Hc|]. split; [exact Hn|].
  apply (addChild_world_matrix h [0%nat] 0%nat 1%nat nc 2 Ha Hc Hn).
  simpl. lia.
Defined.

Lemma erase_remove_appended (c : nat) (v : list nat) :
  c ∉ v -> erase_remove c (v ++ [c]) = v.
Proof.
  intros Hc. unfold erase_remove. rewrite filter_app.
  fold (erase_remove c v). rewrite (erase_remove_absent c v Hc).
  rewrite filter_cons_False by (intros H; apply H; reflexivity).
  rewrite filter_nil. apply app_nil_r.
Qed.

(** X8.  Attaching a node that was not listed and detaching it again restores
    the parent, children sequence included, and every other node, but not
    the child: it still names the parent it was detached from. *)
Theorem addChild_removeChild (h : heap) (p c : nat) (np nc : SceneNode) :
  h !! p = Some np -> h !! c = Some nc -> p <> c -> c ∉ children np ->
  let h' := removeChild p c (addChild p c h) in
  h' !! p = Some np /\
  h' !! c = Some (set_parent (Some p) nc) /\
  (forall x, x <> c -> h' !! x = h !! x).
Proof.
  intros Hp Hc Hpc Hnot h'.
  assert (Hp' : h' !! p = Some np).
  { unfold h'.
    rewrite (removeChild_children _ p c _
               (addChild_lookup_this p c h np Hpc Hp)).
    cbn [children set_children]. rewrite erase_remove_appended by exact Hnot.
    destruct np; reflexivity. }
  split; [exact Hp'|]. split.
  - unfold h', removeChild. rewrite lookup_alter_ne by congruence.
    apply addChild_lookup_child; assumption.
  - intros x Hx. destruct (decide (x = p)) as [->|Hxp]; [congruence|].
    unfold h', removeChild. rewrite lookup_alter_ne by congruence.
    apply addChild_lookup_other; assumption.
Qed.

Lemma addChild_removeChild_witness :
  let np := SceneNode_new "p" in
  let nc := SceneNode_new "c" in
  let h : gmap nat SceneNode := <[1%nat := nc]> {[0%nat := np]} in
  let h' := removeChild 0%nat 1%nat (addChild 0%nat 1%nat h) in
  h !! 0%nat = Some np /\ h !! 1%nat = Some nc /\ 0%nat <> 1%nat /\
  (1%nat ∉ children np) /\
  h' !! 0%nat = Some np /\ parent <$> h' !! 1%nat = Some (Some 0%nat).
Proof.
  intros np nc h h'.
  assert (Hp : h !! 0%nat = Some np) by (vm_compute; reflexivity).
  assert (Hc : h !! 1%nat = Some nc) by (vm_compute; reflexivity).
  assert (Hne : 0%nat <> 1%nat) by discriminate.
  assert (Hnot : 1%nat ∉ children np) by (apply not_elem_of_nil).
  destruct (addChild_removeChild h 0%nat 1%nat np nc Hp Hc Hne Hnot)
    as (H1 & H2 & _).
  split; [exact Hp|]. split; [exact Hc|]. split; [exact Hne|].
  split; [exact Hnot|]. split; [exact H1|].
  unfold h'. rewrite H2. reflexivity.
Defined.

(** ** Culling twice *)

Lemma isVisible_frame (c : FrustumCuller) (fuel : nat)
    (node : nat) (h h' : heap) (b : bool) :
  isVisible c fuel node h = Some (b, h') ->
  (forall x : nat, x <> node ->
     option_Forall2 cache_equiv (h !! x) (h' !! x)) /\
  (exists n n' : SceneNode,
     h !! node = Some n /\ h' !! node = Some n' /\
     cache_equiv (set_visible b n) n').
Proof.
  unfold isVisible.
  destruct (getWorldMatrix fuel node h) as [[wm h1]|] eqn:Hw; [|discriminate].
  cbn [mbind option_bind].
  destruct (h1 !! node) as [n1|] eqn:Hn1; [|discriminate].
  cbn [mbind option_bind]. intros Hres.
  destruct (getWorldMatrix_returns_ancestry fuel h node _ Hw)
    as (path & Hanc & Hlen).
  destruct (getWorldMatrix_path h path node Hanc fuel Hlen)
    as (m1 & g1 & Hw1 & _ & He).
  rewrite Hw in Hw1. injection Hw1 as <- <-.
  assert (Hh' : h' = <[node := set_visible b n1]> h1).
  { destruct (some_plane_rejects _ _ _); injection Hres as <- <-; auto. }
  subst h'. clear Hres.
  destruct (ancestry_live h path node Hanc node (ancestry_self _ _ _ Hanc))
    as [n0 Hn0].
  destruct (heap_cache_equiv_lookup _ _ _ _ He Hn0) as (n1' & Hn1' & Hc0).
  assert (n1' = n1) by congruence. subst n1'.
  split.
  - intros x Hx. rewrite lookup_insert_ne by congruence. apply He.
  - exists n0, (set_visible b n1). split; [exact Hn0|].
    rewrite lookup_insert_eq. split; [reflexivity|].
    unfold cache_equiv in *. cbn [name parent children boundingBox lod
      visible transform set_visible] in *.
    unfold node_matrix in *. cbn [transform set_visible] in *. tauto.
Qed.

Lemma same_geometry_refl (h : heap) : same_geometry h h.
Proof. intros x. destruct (h !! x); constructor. auto. Qed.

Lemma same_geometry_sym (h g : heap) : same_geometry h g -> same_geometry g h.
Proof.
  intros H x. specialize (H x). destruct H as [n n' (H1 & H2 & H3 & H4)|];
    constructor. auto.
Qed.

Lemma same_geometry_trans (h1 h2 h3 : heap) :
  same_geometry h1 h2 -> same_geometry h2 h3 -> same_geometry h1 h3.
Proof.
  intros H12 H23 x. specialize (H12 x). specialize (H23 x).
  destruct H12 as [a b Hab|]; inversion H23 as [? c Hbc |]; subst;
    constructor.
  destruct Hab as (?&?&?&?), Hbc as (?&?&?&?). repeat split; congruence.
Qed.

Lemma same_geometry_lookup (h g : heap) (x : nat) (n : SceneNode) :
  same_geometry h g -> h !! x = Some n ->
  exists n', g !! x = Some n' /\ name n' = name n /\ parent n' = parent n /\
             boundingBox n' = boundingBox n /\ node_matrix n' = node_matrix n.
Proof.
  intros Hs Hx. specialize (Hs x). rewrite Hx in Hs.
  inversion Hs as [? n' Hn |]; subst. eauto.
Qed.

Lemma cache_equiv_geometry (h h' : heap) :
  heap_cache_equiv h h' -> same_geometry h h'.
Proof.
  intros He x. specialize (He x). destruct He as [n n' Hc|]; constructor.
  unfold cache_equiv in Hc. tauto.
Qed.

Lemma isVisible_geometry_out (c : FrustumCuller) (fuel : nat) (x : nat)
    (h h' : heap) (b : bool) :
  isVisible c fuel x h = Some (b, h') -> same_geometry h h'.
Proof.
  intros Hv. destruct (isVisible_frame _ _ _ _ _ _ Hv)
    as (Hoth & (n & n' & Hn & Hn' & Hc)).
  intros y. destruct (decide (y = x)) as [->|Hne].
  - rewrite Hn, Hn'. constructor. unfold cache_equiv in Hc.
    cbn [name parent boundingBox set_visible] in Hc.
    unfold node_matrix in *. cbn [transform set_visible] in Hc. tauto.
  - specialize (Hoth y Hne). destruct Hoth as [a a' Hc'|]; constructor.
    unfold cache_equiv in Hc'. tauto.
Qed.

Lemma isVisible_geometry (c : FrustumCuller) (fuel : nat) (x : nat)
    (h g h' : heap) (b : bool) :
  same_geometry h g -> isVisible c fuel x h = Some (b, h') ->
  exists g', isVisible c fuel x g = Some (b, g').
Proof.
  intros Hs. unfold isVisible at 1.
  destruct (getWorldMatrix fuel x h) as [[wm h1]|] eqn:Hw; [|discriminate].
  cbn [mbind option_bind].
  destruct (h1 !! x) as [n1|] eqn:Hn1; [|discriminate].
  cbn [mbind option_bind]. intros Hres.
  destruct (getWorldMatrix_returns_ancestry fuel h x _ Hw)
    as (path & Hanc & Hlen).
  destruct (getWorldMatrix_path h path x Hanc fuel Hlen)
    as (m1 & k1 & Hw1 & Hprod & He).
  rewrite Hw in Hw1. injection Hw1 as <- <-.
  assert (Hsame : forall y, y ∈ path ->
            exists n n', h !! y = Some n /\ g !! y = Some n' /\
              parent n' = parent n /\ node_matrix n' = node_matrix n).
  { intros y Hy. destruct (ancestry_live h path x Hanc y Hy) as [n Hn].
    destruct (same_geometry_lookup _ _ _ _ Hs Hn) as (n' & Hn' & _ & ? & _ & ?).
    exists n, n'. auto. }
  assert (Hanc' : ancestry g path x).
  { eapply ancestry_agree; [exact Hanc | |].
    - intros y Hy. destruct (Hsame y Hy) as (n & n' & ? & ? & ? & _). eauto.
    - intros y. specialize (Hs y). destruct Hs; split; congruence. }
  destruct (getWorldMatrix_path g path x Hanc' fuel Hlen)
    as (m2 & g1 & Hw2 & Hprod2 & He2).
  assert (m2 = wm) as ->.
  { eapply path_product_functional; [exact Hprod2|].
    eapply path_product_agree; [exact Hprod|].
    intros y Hy. destruct (Hsame y Hy) as (n & n' & ? & ? & _ & ?). eauto. }
  destruct (ancestry_live h path x Hanc x (ancestry_self _ _ _ Hanc))
    as [n0 Hn0].
  destruct (heap_cache_equiv_lookup _ _ _ _ He Hn0) as (n1' & Hn1' & Hc1).
  assert (n1' = n1) by congruence. subst n1'.
  destruct (same_geometry_lookup _ _ _ _ Hs Hn0) as (m0 & Hm0 & _ & _ & Hbb & _).
  destruct (heap_cache_equiv_lookup _ _ _ _ He2 Hm0) as (m1 & Hm1 & Hc2).
  unfold isVisible. rewrite Hw2. cbn [mbind option_bind]. rewrite Hm1.
  cbn [mbind option_bind].
  replace (boundingBox m1) with (boundingBox n1).
  - destruct (some_plane_rejects _ _ _); injection Hres as <- _; eauto.
  - unfold cache_equiv in Hc1, Hc2. destruct Hc1 as (_&_&_&->&_).
    destruct Hc2 as (_&_&_&->&_). congruence.
Qed.

Lemma verdict_geometry (c : FrustumCuller) (fuel : nat) (x : nat)
    (h g h' : heap) (b : bool) :
  same_geometry h g -> isVisible c fuel x h = Some (b, h') ->
  verdict c fuel g x = b.
Proof.
  intros Hs Hv. destruct (isVisible_geometry _ _ _ _ _ _ _ Hs Hv) as [g' Hg].
  unfold verdict. rewrite Hg. reflexivity.
Qed.

(** X9.  [isVisible] changes the flag of its node and matrix caches, nothing
    else, and asking again on the store it leaves gives the same answer. *)
Theorem isVisible_frame_and_repeat (c : FrustumCuller) (fuel : nat)
    (node : nat) (h h' : heap) (b : bool) :
  isVisible c fuel node h = Some (b, h') ->
  (forall x : nat, x <> node ->
     option_Forall2 cache_equiv (h !! x) (h' !! x)) /\
  (exists n n' : SceneNode,
     h !! node = Some n /\ h' !! node = Some n' /\
     cache_equiv (set_visible b n) n') /\
  (exists h'' : heap, isVisible c fuel node h' = Some (b, h'')).
Proof.
  intros Hv. destruct (isVisible_frame _ _ _ _ _ _ Hv) as [Hoth Hnode].
  split; [exact Hoth|]. split; [exact Hnode|].
  eapply isVisible_geometry; [|exact Hv].
  eapply isVisible_geometry_out, Hv.
Qed.

Lemma isVisible_frame_and_repeat_witness :
  let c := FrustumCuller_new (mat4_diag f1) in
  let h : gmap nat SceneNode := {[0%nat := SceneNode_new "a"]} in
  exists (b : bool) (h' : gmap nat SceneNode),
    isVisible c 1 0%nat h = Some (b, h') /\
    exists h'' : gmap nat SceneNode, isVisible c 1 0%nat h' = Some (b, h'').
Proof.
  intros c h.
  destruct (isVisible_identity_default 0%nat "a") as (h' & Hv & _).
  exists true, h'. split; [exact Hv|].
  exact (proj2 (proj2 (isVisible_frame_and_repeat c 1 0%nat h h' true Hv))).
Defined.

(** ** Level-of-detail tables *)

Lemma unguarded_linear_insert_perm (val : LODLevel) (rp : list LODLevel) :
  unguarded_linear_insert val rp ≡ₚ val :: rp.
Proof.
  induction rp as [|p ps IH]; cbn [unguarded_linear_insert]; [reflexivity|].
  destruct (lod_less val p); [|reflexivity].
  rewrite IH. apply Permutation_swap.
Qed.

Lemma insertion_step_perm (prefix : list LODLevel) (val : LODLevel) :
  insertion_step prefix val ≡ₚ prefix ++ [val].
Proof.
  unfold insertion_step. destruct prefix as [|first rest]; [reflexivity|].
  destruct (lod_less val first).
  - apply Permutation_cons_append.
  - rewrite <- Permutation_rev, unguarded_linear_insert_perm.
    rewrite <- Permutation_rev. apply Permutation_cons_append.
Qed.

Lemma fold_insertion_perm (todo done : list LODLevel) :
  fold_left insertion_step todo done ≡ₚ done ++ todo.
Proof.
  revert done. induction todo as [|x todo IH]; intros done; cbn [fold_left].
  - rewrite app_nil_r. reflexivity.
  - rewrite IH, insertion_step_perm, <- app_assoc. reflexivity.
Qed.

Lemma fold_insertion_sorts (todo done : list LODLevel) :
  Forall (fun l => distanceThreshold l <> S754_nan) done ->
  Forall (fun l => distanceThreshold l <> S754_nan) todo ->
  lod_sorted done -> lod_sorted (fold_left insertion_step todo done).
Proof.
  revert done. induction todo as [|x todo IH]; intros done Hd Ht Hs;
    cbn [fold_left]; [exact Hs|].
  apply Forall_cons in Ht as [Hx Ht]. apply IH; [|exact Ht|].
  - rewrite insertion_step_perm. apply Forall_app. split; [exact Hd|].
    constructor; [exact Hx|constructor].
  - apply insertion_step_sorted; assumption.
Qed.

Lemma std_sort_snoc_sorted (lvls : list LODLevel) (val : LODLevel) :
  Forall (fun l => distanceThreshold l <> S754_nan) lvls ->
  lod_sorted (std_sort (lvls ++ [val])).
Proof.
  intros Hnan. unfold std_sort. rewrite fold_left_app. cbn [fold_left].
  apply insertion_step_sorted.
  - rewrite (fold_insertion_perm lvls []). exact Hnan.
  - apply (fold_insertion_sorts lvls []);
      [constructor | exact Hnan | constructor].
Qed.

Lemma std_sort_perm (lvls : list LODLevel) : std_sort lvls ≡ₚ lvls.
Proof. exact (fold_insertion_perm lvls []). Qed.



Lemma build_lod_snoc (entries : list (float * string)) (e : float * string) :
  build_lod (entries ++ [e]) = addLevel (fst e) (snd e) (build_lod entries).
Proof. unfold build_lod. rewrite fold_left_app. reflexivity. Qed.

Lemma build_lod_levels (entries : list (float * string)) :
  Forall (fun e => fst e <> S754_nan) entries ->
  lod_sorted (levels (build_lod entries)) /\
  levels (build_lod entries) ≡ₚ map level_of entries.
Proof.
  induction entries as [|e entries IH] using rev_ind; intros Hnan.
  - split; [constructor|reflexivity].
  - apply Forall_app in Hnan as [Hnan _]. destruct (IH Hnan) as [Hs Hp].
    rewrite build_lod_snoc. unfold addLevel. cbn [levels]. split.
    + apply std_sort_snoc_sorted. rewrite Hp. apply Forall_map. exact Hnan.
    + rewrite std_sort_perm, Hp, map_app. reflexivity.
Qed.

(** X11.  For a table filled by calls of [addLevel] in any order, none with a NaN
    threshold: when some threshold is strictly above [d], [getMesh d] is the
    mesh given with a smallest such threshold; when none is, it is the mesh
    given with a largest threshold. *)
Theorem getMesh_after_addLevels (entries : list (float * string))
    (d : float) :
  Forall (fun e => fst e <> S754_nan) entries ->
  (Exists (fun e => fltb d (fst e) = true) entries ->
   exists e, e ∈ entries /\ fltb d (fst e) = true /\
     getMesh (build_lod entries) d = snd e /\
     forall e', e' ∈ entries -> fltb d (fst e') = true ->
                fltb (fst e') (fst e) = false) /\
  (entries <> [] ->
   Forall (fun e => fltb d (fst e) = false) entries ->
   exists e, e ∈ entries /\
     getMesh (build_lod entries) d = snd e /\
     forall e', e' ∈ entries -> fltb (fst e) (fst e') = false).
Proof.
  intros Hnan. destruct (build_lod_levels entries Hnan) as [Hs Hp].
  assert (Hin : forall l, l ∈ levels (build_lod entries) <->
                          exists e, e ∈ entries /\ l = level_of e).
  { intros l. rewrite Hp, list_elem_of_fmap. split.
    - intros (e & -> & He). eauto.
    - intros (e & He & ->). eauto. }
  split.
  - intros Hex.
    assert (Hex' : Exists (fun l => fltb d (distanceThreshold l) = true)
                     (levels (build_lod entries))).
    { apply Exists_exists in Hex as (e & He & Hd). apply Exists_exists.
      exists (level_of e). split; [apply Hin; eauto | exact Hd]. }
    destruct (getMesh_scan_smallest d _ Hs Hex')
      as (lvl & Hl & Hd & Hscan & Hmin).
    apply Hin in Hl as (e & He & ->). exists e.
    split; [exact He|]. split; [exact Hd|]. split.
    + unfold getMesh. rewrite Hscan. reflexivity.
    + intros e' He' Hd'. apply (Hmin (level_of e')); [|exact Hd'].
      apply Hin. eauto.
  - intros Hne Hall.
    assert (Hnone : getMesh_scan d (levels (build_lod entries)) = None).
    { apply getMesh_scan_none, Forall_forall. intros l Hl.
      apply Hin in Hl as (e & He & ->).
      rewrite Forall_forall in Hall. exact (Hall e He). }
    destruct (last (levels (build_lod entries))) as [lvl|] eqn:Hlast.
    + destruct (lod_sorted_last_largest _ _ Hs Hlast) as [Hl Hmax].
      apply Hin in Hl as (e & He & ->). exists e. split; [exact He|]. split.
      * unfold getMesh. rewrite Hnone, Hlast. reflexivity.
      * intros e' He'. apply (Hmax (level_of e')). apply Hin. eauto.
    + apply last_None in Hlast. rewrite Hlast in Hp.
      symmetry in Hp. apply Permutation_nil_r in Hp.
      apply fmap_nil_inv in Hp. contradiction.
Qed.

Lemma getMesh_after_addLevels_witness :
  let entries := [ (float_of_Z 200, "far"%string); (float_of_Z 10, "near"%string);
                   (float_of_Z 50, "mid"%string) ] in
  Forall (fun e => fst e <> S754_nan) entries /\
  Exists (fun e => fltb (float_of_Z 20) (fst e) = true) entries /\
  (exists e, e ∈ entries /\ fltb (float_of_Z 20) (fst e) = true /\
     getMesh (build_lod entries) (float_of_Z 20) = snd e /\
     forall e', e' ∈ entries -> fltb (float_of_Z 20) (fst e') = true ->
                fltb (fst e') (fst e) = false) /\
  getMesh (build_lod entries) (float_of_Z 20) = "mid"%string.
Proof.
  intros entries.
  assert (Hn : Forall (fun e => fst e <> S754_nan) entries).
  { repeat constructor; discriminate. }
  assert (Hex : Exists (fun e => fltb (float_of_Z 20) (fst e) = true) entries).
  { apply Exists_cons_hd. vm_compute. reflexivity. }
  split; [exact Hn|]. split; [exact Hex|].
  split; [|vm_compute; reflexivity].
  exact (proj1 (getMesh_after_addLevels entries (float_of_Z 20) Hn) Hex).
Defined.

Lemma fltb_nan_l (x : float) : fltb S754_nan x = false.
Proof. reflexivity. Qed.

Lemma getMesh_scan_elem (d : float) (lvls : list LODLevel) (m : string) :
  getMesh_scan d lvls = Some m ->
  exists lvl, lvl ∈ lvls /\ fltb d (distanceThreshold lvl) = true /\
              meshName lvl = m.
Proof.
  induction lvls as [|l ls IH]; cbn [getMesh_scan]; [discriminate|].
  destruct (fltb d (distanceThreshold l)) eqn:Hl.
  - intros [= <-]. exists l. split; [left|]. auto.
  - intros H. destruct (IH H) as (lvl & Hin & Hd & Hm).
    exists lvl. split; [right; exact Hin|]. auto.
Qed.

(** X12.  On any table, sorted or not, that has a level, [getMesh] answers with
    the mesh of one of its levels; asked for a NaN distance it answers with
    the mesh of the last level. *)
Theorem getMesh_any_table (table : LOD) (d : float) (lvl : LODLevel) :
  last (levels table) = Some lvl ->
  (exists l, l ∈ levels table /\ getMesh table d = meshName l) /\
  (d = S754_nan -> getMesh table d = meshName lvl).
Proof.
  intros Hlast.
  assert (Hin : lvl ∈ levels table).
  { apply last_Some in Hlast as [l' ->]. apply elem_of_app. right. left. }
  split.
  - unfold getMesh. destruct (getMesh_scan d (levels table)) as [m|] eqn:Hs.
    + destruct (getMesh_scan_elem _ _ _ Hs) as (l & Hl & _ & <-). eauto.
    + rewrite Hlast. eauto.
  - intros ->. unfold getMesh.
    replace (getMesh_scan S754_nan (levels table)) with (@None string).
    + rewrite Hlast. reflexivity.
    + symmetry. apply getMesh_scan_none, Forall_forall. intros l _.
      apply fltb_nan_l.
Qed.

Lemma getMesh_any_table_witness :
  let table := mkLOD [ mkLODLevel (float_of_Z 200) "far";
                       mkLODLevel (float_of_Z 10) "near" ] in
  last (levels table) = Some (mkLODLevel (float_of_Z 10) "near") /\
  (exists l, l ∈ levels table /\
             getMesh table (float_of_Z 20) = meshName l) /\
  getMesh table S754_nan = "near"%string.
Proof.
  intros table.
  assert (Hl : last (levels table) = Some (mkLODLevel (float_of_Z 10) "near"))
    by reflexivity.
  split; [exact Hl|]. split.
  - exact (proj1 (getMesh_any_table table (float_of_Z 20) _ Hl)).
  - exact (proj2 (getMesh_any_table table S754_nan _ Hl) eq_refl).
Defined.

(** ** What the text depends on *)

Lemma rebuilt_same_text (fuel : nat) (h h' : heap) (old : gset nat) :
  forall (a a' : nat) (indent : nat),
    rebuilt fuel h a old h' a' ->
    exists text, serializeNode fuel a h indent = Some text /\
                 serializeNode fuel a' h' indent = Some text.
Proof.
  induction fuel as [|fuel IH]; intros a a' indent; [intros []|].
  cbn [rebuilt serializeNode].
  intros (_ & n & n' & Hn & Hn' & Hpay & Hkids).
  rewrite Hn, Hn'. cbn [mbind option_bind].
  destruct Hpay as (Hname & Hpos & Hrot & Hscl & Hbb & Hlod).
  unfold getPosition, getRotation, getScale.
  rewrite Hname, Hpos, Hrot, Hscl, Hbb, Hlod.
  rewrite <- (Forall2_length _ _ _ Hkids).
  assert (Hm : exists texts,
             mapM (fun c => serializeNode fuel c h (indent + 4)) (children n)
             = Some texts /\
             mapM (fun c => serializeNode fuel c h' (indent + 4)) (children n')
             = Some texts).
  { clear -IH Hkids. induction Hkids as [|c c' cs cs' Hc _ IHk].
    - exists []. split; reflexivity.
    - destruct (IH c c' (indent + 4)%nat Hc) as (t & Ht & Ht').
      destruct IHk as (ts & Hts & Hts').
      exists (t :: ts). rewrite !mapM_cons, Ht, Ht', Hts, Hts'.
      split; reflexivity. }
  destruct Hm as (texts & -> & ->). cbn [mbind option_bind].
  eexists. split; reflexivity.
Qed.



(** X14.  Writing a tree the format can carry, reading the text back and writing
    the tree that was read gives the same text again. *)
Theorem serialize_deserialize_serialize (fuel : nat) (h : heap) (root : nat) :
  wf_tree fuel h root ->
  exists text, serialize fuel root h = Some text /\
    forall h0 : heap, exists (r : nat) (h1 : heap),
      deserialize fuel (Some text) h0 = Returns (Some r, h1) /\
      serialize fuel r h1 = Some text.
Proof.
  intros Hwf.
  destruct (serialize_reads_back fuel h root Hwf) as (text & Hser & Hback).
  exists text. split; [exact Hser|]. intros h0.
  destruct (Hback h0) as (r & h1 & Hdes & _ & Hcopy).
  exists r, h1. split; [exact Hdes|].
  destruct (rebuilt_same_text fuel h h1 (dom h0) root r 0 Hcopy)
    as (text' & Ht & Ht').
  unfold serialize in *. congruence.
Qed.

Lemma serialize_deserialize_serialize_witness :
  let nR := set_children [1%nat] (SceneNode_new "Root") in
  let nA := set_lod (mkLOD [ mkLODLevel (float_of_Z 10) "near" ])
              (set_parent (Some 0%nat) (SceneNode_new "A")) in
  let h : gmap nat SceneNode := <[1%nat := nA]> {[0%nat := nR]} in
  wf_tree 2 h 0%nat /\
  exists text, serialize 2 0%nat h = Some text /\
    forall h0 : gmap nat SceneNode, exists (r : nat) (h1 : gmap nat SceneNode),
      deserialize 2 (Some text) h0 = Returns (Some r, h1) /\
      serialize 2 r h1 = Some text.
Proof.
  intros nR nA h.
  assert (Hwf : wf_tree 2 h 0%nat).
  { cbn [wf_tree]. exists nR.
    split; [vm_compute; reflexivity|]. split; [vm_compute; reflexivity|].
    constructor; [|constructor].
    exists nA. split; [vm_compute; reflexivity|].
    split; [vm_compute; reflexivity | constructor]. }
  split; [exact Hwf|].
  exact (serialize_deserialize_serialize 2 h 0%nat Hwf).
Defined.

(** ** What reading allocates *)

Lemma skip_ws_length (b : list ascii) :
  (length (skip_ws b) <= length b)%nat.
Proof.
  induction b as [|c b IH]; cbn [skip_ws length]; [lia|].
  destruct (is_space c); cbn [length]; lia.
Qed.

Lemma scan_length {St : Type} (step : St -> ascii -> option St) (b : list ascii) :
  forall st : St, (length (snd (scan step st b)) <= length b)%nat.
Proof.
  induction b as [|c b IH]; intros st; cbn [scan snd length]; [lia|].
  destruct (step st c) as [st'|]; cbn [snd length]; [|lia].
  specialize (IH st'). lia.
Qed.

Lemma read_word_remaining (s : istream) :
  (remaining (snd (read_word s)) <= remaining s)%nat /\
  (is_Some (fst (read_word s)) ->
   (remaining (snd (read_word s)) < remaining s)%nat).
Proof.
  destruct s as [b|]; cbn [read_word]; [|split; [reflexivity|]].
  2: { cbn [fst]. intros [? [=]]. }
  pose proof (skip_ws_length b) as Hw.
  destruct (skip_ws b) as [|c b'] eqn:Hb.
  - cbn [fst snd remaining]. split; [lia|]. intros [? [=]].
  - assert (Hc : is_space c = false).
    { destruct b as [|c0 b0]; [discriminate|].
      revert Hb. clear. revert c0.
      induction b0 as [|c1 b1 IH]; intros c0; cbn [skip_ws].
      - destruct (is_space c0) eqn:E; [discriminate|]. intros [= <- _]. exact E.
      - destruct (is_space c0) eqn:E; [|intros [= <- _]; exact E].
        apply IH. }
    assert (Hstep : word_step [] c = Some [c]).
    { unfold word_step. rewrite Hc. reflexivity. }
    cbn [scan]. rewrite !Hstep.
    pose proof (scan_length word_step b' [c]) as Hs.
    destruct (scan word_step [c] b') as [w rest].
    cbn [fst snd remaining length] in *. split; [lia|]. intros _. lia.
Qed.

Lemma read_float_remaining (s : istream) :
  (remaining (snd (read_float s)) <= remaining s)%nat.
Proof.
  destruct s as [b|]; cbn [read_float]; [|reflexivity].
  pose proof (skip_ws_length b) as Hw.
  destruct (skip_ws b) as [|c b'] eqn:Hb; [cbn [snd remaining]; lia|].
  pose proof (scan_length float_step (c :: b') fscan_start) as Hs.
  destruct (scan float_step fscan_start (c :: b')) as [st rest].
  destruct (convert_float (xtrc st)) as [v ok].
  destruct ok; cbn [fst snd remaining length] in *; lia.
Qed.

Lemma read_int_remaining (s : istream) :
  (remaining (snd (read_int s)) <= remaining s)%nat.
Proof.
  destruct s as [b|]; cbn [read_int]; [|reflexivity].
  pose proof (skip_ws_length b) as Hw.
  destruct (skip_ws b) as [|c b'] eqn:Hb; [cbn [snd remaining]; lia|].
  pose proof (scan_length int_step (c :: b') (mkIscan [] true)) as Hs.
  destruct (scan int_step (mkIscan [] true) (c :: b')) as [st rest].
  destruct (convert_int (itext st)) as [v ok].
  destruct ok; cbn [fst snd remaining length] in *; lia.
Qed.

Lemma touch_alter (f : SceneNode -> SceneNode) (node : nat) (h : heap)
    (n : SceneNode) :
  h !! node = Some n ->
  (forall n, parent (f n) = parent n /\ visible (f n) = visible n /\
             children (f n) = children n) ->
  touch node h (alter f node h).
Proof.
  intros Hn Hf. split.
  - intros x Hx. apply lookup_alter_ne. congruence.
  - exists n, (f n). split; [exact Hn|]. split; [|apply Hf].
    rewrite lookup_alter_eq, Hn. reflexivity.
Qed.

Lemma touch_trans (node : nat) (h1 h2 h3 : heap) :
  touch node h1 h2 -> touch node h2 h3 -> touch node h1 h3.
Proof.
  intros [Ho (n1 & n2 & H1 & H2 & Hp & Hv & Hc)]
         [Ho' (n2' & n3 & H2' & H3 & Hp' & Hv' & Hc')].
  assert (n2' = n2) by congruence. subst n2'. split.
  - intros x Hx. rewrite Ho', Ho by exact Hx. reflexivity.
  - exists n1, n3. repeat split; congruence.
Qed.

Lemma touch_refl (node : nat) (h : heap) (n : SceneNode) :
  h !! node = Some n -> touch node h h.
Proof. intros Hn. split; [reflexivity|]. exists n, n. auto. Qed.

Lemma touch_live (node : nat) (h h' : heap) :
  touch node h h' -> exists n', h' !! node = Some n'.
Proof. intros [_ (n & n' & _ & H & _)]. eauto. Qed.


Lemma dom_addChild (this child : nat) (h : heap) :
  dom (addChild this child h) = dom h.
Proof. unfold addChild. rewrite !dom_alter_L. reflexivity. Qed.

Lemma fresh_tree_keep (fuel : nat) (old : gset nat) (h h' : heap) :
  (forall x n, x ∉ old -> h !! x = Some n ->
     exists n', h' !! x = Some n' /\ children n' = children n /\
                (parent n <> None -> parent n' = parent n)) ->
  forall a, fresh_tree fuel old h a -> fresh_tree fuel old h' a.
Proof.
  intros Hkeep. induction fuel as [|fuel IH]; intros a; [intros []|].
  cbn [fresh_tree]. intros (Ha & n & Hn & Hkids). split; [exact Ha|].
  destruct (Hkeep a n Ha Hn) as (n' & Hn' & Hch & _).
  exists n'. split; [exact Hn'|]. rewrite Hch.
  eapply Forall_impl; [exact Hkids|]. cbn beta. intros c [Hpar Hc].
  split; [|apply IH, Hc].
  destruct (h !! c) as [nc|] eqn:Hnc; [|discriminate].
  cbn [fmap option_fmap option_map] in Hpar. injection Hpar as Hpar.
  assert (Hco : c ∉ old).
  { destruct fuel; [destruct Hc | exact (proj1 Hc)]. }
  destruct (Hkeep c nc Hco Hnc) as (nc' & Hnc' & _ & Hp).
  rewrite Hnc'. cbn [fmap option_fmap option_map].
  rewrite Hp by congruence. congruence.
Qed.

Lemma fresh_tree_old_mono (fuel : nat) (old old' : gset nat) (h : heap) :
  old' ⊆ old ->
  forall a, fresh_tree fuel old h a -> fresh_tree fuel old' h a.
Proof.
  intros Hsub. induction fuel as [|fuel IH]; intros a; [intros []|].
  cbn [fresh_tree]. intros (Ha & n & Hn & Hkids). split; [set_solver|].
  exists n. split; [exact Hn|].
  eapply Forall_impl; [exact Hkids|]. cbn beta. intros c [Hpar Hc].
  split; [exact Hpar | apply IH, Hc].
Qed.

Lemma lod_loop_post (count : nat) (node : nat) :
  forall (s s' : istream) (h h' : heap) (n : SceneNode),
    h !! node = Some n ->
    lod_loop count node s h = Returns (s', h') ->
    touch node h h' /\ (remaining s' <= remaining s)%nat.
Proof.
  induction count as [|count IH]; intros s s' h h' n Hn; cbn [lod_loop].
  - intros [= <- <-]. split; [eapply touch_refl, Hn | reflexivity].
  - pose proof (read_float_remaining s) as Hr1.
    destruct (read_float s) as [[d|] s1]; cbn [extracted mbind outcome_bind];
      [|discriminate].
    pose proof (proj1 (read_word_remaining s1)) as Hr2.
    destruct (read_word s1) as [w s2]. rewrite extracted_word_pair.
    cbn [snd] in *. intros Hl.
    pose proof (touch_alter
                  (fun n => set_lod (addLevel d (default EmptyString w) (lod n)) n)
                  node h n Hn ltac:(intros; repeat split)) as Ht.
    destruct (touch_live _ _ _ Ht) as [n1 Hn1].
    destruct (IH _ _ _ _ _ Hn1 Hl) as [Ht' Hr3].
    split; [eapply touch_trans; eassumption | lia].
Qed.

Lemma lod_loop_total (count : nat) (node : nat) :
  forall (s : istream) (h : heap), lod_loop count node s h <> OutOfFuel.
Proof.
  induction count as [|count IH]; intros s h; cbn [lod_loop]; [discriminate|].
  destruct (read_float s) as [[d|] s1]; cbn [extracted mbind outcome_bind];
    [|discriminate].
  destruct (extracted_word (read_word s1)) as [m s2]. apply IH.
Qed.

Lemma child_loop_post (fuel : nat)
    (rec : istream -> heap -> outcome (option nat * istream * heap)) :
  (forall s h r s' h', rec s h = Returns (r, s', h') ->
     reads fuel s h r s' h') ->
  forall (count node : nat) (s s' : istream) (h h' : heap) (n : SceneNode),
    h !! node = Some n ->
    child_loop rec count node s h = Returns (s', h') ->
    (remaining s' <= remaining s)%nat /\
    (forall x : nat, x <> node -> is_Some (h !! x) -> h' !! x = h !! x) /\
    exists (added : list nat) (n' : SceneNode),
      h' !! node = Some n' /\ parent n' = parent n /\
      visible n' = visible n /\ children n' = children n ++ added /\
      Forall (fun c => h !! c = None /\
                       parent <$> h' !! c = Some (Some node) /\
                       fresh_tree fuel (dom h) h' c)
             added.
Proof.
  intros Hrec. induction count as [|count IH];
    intros node s s' h h' n Hn; cbn [child_loop].
  - intros [= <- <-]. split; [reflexivity|]. split; [reflexivity|].
    exists [], n. rewrite app_nil_r. auto.
  - destruct (rec s h) as [[[c s1] h1]| |] eqn:Hr; cbn [mbind outcome_bind];
      [|discriminate..].
    destruct (Hrec _ _ _ _ _ Hr) as (Hrem & Hsub & Hc). destruct c as [c|].
    + destruct Hc as (Hfresh & (nc & Hnc & Hpc & _) & Htree). intros Hl.
      assert (Hne : node <> c) by congruence.
      pose proof (lookup_weaken _ _ _ _ Hn Hsub) as Hn1.
      pose proof (addChild_lookup_this node c h1 n Hne Hn1) as Hn2.
      destruct (IH node s1 s' _ h' _ Hn2 Hl)
        as (Hrem' & Hoth & added & n' & Hn' & Hp & Hv & Hch & Hadd).
      assert (Hc2 : addChild node c h1 !! c = Some (set_parent (Some node) nc))
        by (apply addChild_lookup_child; assumption).
      assert (Hdom : dom h ⊆ dom (addChild node c h1)).
      { rewrite dom_addChild. apply subseteq_dom, Hsub. }
      split; [lia|]. split.
      * intros x Hx [v Hv0].
        assert (x <> c) by congruence.
        rewrite Hoth; [| exact Hx |].
        -- rewrite addChild_lookup_other by assumption.
           rewrite Hv0. eapply lookup_weaken; eassumption.
        -- rewrite addChild_lookup_other by assumption.
           exists v. eapply lookup_weaken; eassumption.
      * exists (c :: added), n'. split; [exact Hn'|].
        split; [exact Hp|]. split; [exact Hv|]. split.
        -- rewrite Hch. cbn [children set_children].
           rewrite <- app_assoc. reflexivity.
        -- constructor.
           ++ split; [exact Hfresh|]. split.
              ** rewrite Hoth; [rewrite Hc2; reflexivity | congruence |].
                 rewrite Hc2. eauto.
              ** eapply fresh_tree_keep; [|exact Htree].
                 intros x nx Hx Hnx.
                 assert (Hxn : x <> node).
                 { intros ->. apply Hx. eapply elem_of_dom_2, Hn. }
                 destruct (decide (x = c)) as [->|Hxc].
                 --- exists (set_parent (Some node) nc).
                     rewrite Hoth; [| exact Hxn | rewrite Hc2; eauto].
                     split; [exact Hc2|].
                     assert (nx = nc) by congruence. subst nx.
                     split; [reflexivity|]. intros Hcontra. congruence.
                 --- exists nx. rewrite Hoth; [| exact Hxn |];
                       rewrite addChild_lookup_other by assumption;
                       [|eauto]. auto.
           ++ eapply Forall_impl; [exact Hadd|]. cbn beta.
              intros c' (Hc' & Hpar & Ht). split; [|split; [exact Hpar|]].
              ** destruct (h !! c') as [v|] eqn:Hv0; [|reflexivity].
                 pose proof (lookup_weaken _ _ _ _ Hv0 Hsub) as Hv1.
                 apply addChild_live in Hc'. congruence.
              ** eapply fresh_tree_old_mono; [exact Hdom | exact Ht].
    + subst h1. intros Hl.
      destruct (IH node s1 s' h h' n Hn Hl) as (Hrem' & Hrest).
      split; [lia | exact Hrest].
Qed.

Lemma child_loop_total (fuel : nat)
    (rec : istream -> heap -> outcome (option nat * istream * heap)) :
  (forall s h, (remaining s < fuel)%nat -> rec s h <> OutOfFuel) ->
  (forall s h r s' h', rec s h = Returns (r, s', h') ->
     (remaining s' <= remaining s)%nat) ->
  forall (count node : nat) (s : istream) (h : heap),
    (remaining s < fuel)%nat ->
    child_loop rec count node s h <> OutOfFuel.
Proof.
  intros Htot Hrem. induction count as [|count IH]; intros node s h Hs;
    cbn [child_loop]; [discriminate|].
  destruct (rec s h) as [[[c s1] h1]| |] eqn:Hr; cbn [mbind outcome_bind];
    [|discriminate | destruct (Htot s h Hs Hr)].
  apply IH. specialize (Hrem _ _ _ _ _ Hr). lia.
Qed.

(** One extraction of the body of [deser]: the case in which it fails is
    closed, what it leaves of the input and of the store is recorded. *)
Ltac deser_step node ha :=
  match goal with
  | |- context [extracted (read_float ?x)] =>
      let H := fresh "Hrem" in
      pose proof (read_float_remaining x) as H;
      destruct (read_float x) as [[?|] ?]; cbn [snd] in H;
      cbn [extracted mbind outcome_bind]; [|discriminate]
  | |- context [extracted (read_int ?x)] =>
      let H := fresh "Hrem" in
      pose proof (read_int_remaining x) as H;
      destruct (read_int x) as [[?|] ?]; cbn [snd] in H;
      cbn [extracted mbind outcome_bind]; [|discriminate]
  | |- context [let '(_, _) := read_word ?x in _] =>
      let H := fresh "Hrem" in
      pose proof (proj1 (read_word_remaining x)) as H;
      destruct (read_word x) as [? ?]; cbn [snd] in H
  | Ht : touch node ha ?hx |- context [alter ?f node ?hx] =>
      let Hn := fresh "Hn" in
      let Ht' := fresh "Ht" in
      destruct (touch_live _ _ _ Ht) as [? Hn];
      pose proof (touch_trans _ _ _ _ Ht
                    (touch_alter f node hx _ Hn
                       ltac:(intros; repeat split))) as Ht';
      clear Ht Hn;
      generalize dependent (alter f node hx); intros ? ?
  | Ht : touch node ha ?hx |- context [lod_loop ?a node ?c ?hx] =>
      let Hn := fresh "Hn" in
      let Ht' := fresh "Ht" in
      let Hl := fresh "Hl" in
      let H := fresh "Hrem" in
      destruct (touch_live _ _ _ Ht) as [? Hn];
      destruct (lod_loop a node c hx) as [[? ?]| |] eqn:Hl;
      cbn [mbind outcome_bind];
      [ | discriminate
        | first [discriminate | destruct (lod_loop_total _ _ _ _ Hl)] ];
      destruct (lod_loop_post _ _ _ _ _ _ _ Hn Hl) as [Ht' H];
      pose proof (touch_trans _ _ _ _ Ht Ht');
      clear Ht Ht' Hn Hl
  end.

Lemma deser_reads (fuel : nat) :
  forall (s s' : istream) (h0 h1 : heap) (r : option nat),
    deser fuel s h0 = Returns (r, s', h1) ->
    reads fuel s h0 r s' h1.
Proof.
  induction fuel as [|fuel IH]; intros s s' h0 h1 r; [discriminate|].
  cbn [deser]. pose proof (read_word_remaining s) as [Hrem0 _].
  destruct (read_word s) as [[t|] s1]; cbn [snd] in Hrem0;
    [|intros [= <- <- <-]; repeat split; [exact Hrem0 | reflexivity]].
  destruct (negb (String.eqb t "Node"));
    [intros [= <- <- <-]; repeat split; [exact Hrem0 | reflexivity]|].
  pose proof (proj1 (read_word_remaining s1)) as Hrem1.
  destruct (read_word s1) as [w s2]. rewrite extracted_word_pair.
  cbn [snd] in Hrem1.
  unfold make_shared. set (node := fresh (dom h0)).
  assert (Hfresh : h0 !! node = None).
  { apply not_elem_of_dom. apply is_fresh. }
  set (ha := <[node := SceneNode_new (default EmptyString w)]> h0).
  assert (Hta : touch node ha ha).
  { eapply touch_refl. apply lookup_insert_eq. }
  revert Hta. generalize ha at 2 3. intros hb Hta.
  repeat deser_step node ha.
  match goal with Ht : touch node ha ?hx |- _ => rename hx into hc end.
  match goal with Ht : touch node ha hc |- _ => rename Ht into Htc end.
  destruct (child_loop (deser fuel) _ node _ hc) as [[s3 h3]| |] eqn:Hl;
    cbn [mbind outcome_bind]; [|discriminate..].
  intros [= <- <- <-].
  destruct Htc as [Hoth (na & nb & Hna & Hnb & Hp & Hv & Hc)].
  unfold ha in Hna. rewrite lookup_insert_eq in Hna. injection Hna as <-.
  cbn [parent visible children SceneNode_new] in Hp, Hv, Hc.
  destruct (child_loop_post fuel (deser fuel) (fun s h r s' h' => IH s s' h h' r)
              _ _ _ _ _ _ _ Hnb Hl)
    as (Hrem' & Hkeep & added & n' & Hn' & Hp' & Hv' & Hch & Hadd).
  assert (Hold : forall y, y <> node -> h0 !! y = hc !! y).
  { intros y Hy. rewrite Hoth by exact Hy. unfold ha.
    rewrite lookup_insert_ne by congruence. reflexivity. }
  assert (Hdom : dom h0 ⊆ dom hc).
  { intros y Hy. apply elem_of_dom in Hy as [v Hy]. apply elem_of_dom.
    rewrite <- Hold by congruence. eauto. }
  split; [lia|]. split.
  - apply map_subseteq_spec. intros y v Hy.
    assert (Hne : y <> node) by congruence.
    rewrite Hkeep; [| exact Hne |]; rewrite <- Hold by exact Hne; eauto.
  - split; [exact Hfresh|]. split.
    + exists n'. split; [exact Hn'|]. split; congruence.
    + cbn [fresh_tree]. split; [apply not_elem_of_dom, Hfresh|].
      exists n'. split; [exact Hn'|]. rewrite Hch, Hc. cbn [app].
      eapply Forall_impl; [exact Hadd|]. cbn beta.
      intros c (_ & Hpar & Ht). split; [exact Hpar|].
      eapply fresh_tree_old_mono; [exact Hdom | exact Ht].
Qed.

Lemma deser_total (fuel : nat) :
  forall (s : istream) (h0 : heap),
    (remaining s < fuel)%nat -> deser fuel s h0 <> OutOfFuel.
Proof.
  induction fuel as [|fuel IH]; intros s h0 Hfuel; [lia|].
  cbn [deser]. pose proof (read_word_remaining s) as [_ Hrem0].
  destruct (read_word s) as [[t|] s1]; cbn [fst snd] in Hrem0; [|discriminate].
  specialize (Hrem0 ltac:(eauto)).
  destruct (negb (String.eqb t "Node")); [discriminate|].
  pose proof (proj1 (read_word_remaining s1)) as Hrem1.
  destruct (read_word s1) as [w s2]. rewrite extracted_word_pair.
  cbn [snd] in Hrem1.
  unfold make_shared. set (node := fresh (dom h0)).
  set (ha := <[node := SceneNode_new (default EmptyString w)]> h0).
  assert (Hta : touch node ha ha).
  { eapply touch_refl. apply lookup_insert_eq. }
  revert Hta. generalize ha at 2 3. intros hb Hta.
  repeat deser_step node ha.
  match goal with
  | |- context [child_loop ?rc ?k node ?sx ?hx] =>
      pose proof (child_loop_total fuel rc IH
                    (fun s1 h1 r1 s2 h2 H =>
                       proj1 (deser_reads fuel s1 s2 h1 h2 r1 H))
                    k node sx hx ltac:(lia)) as Hcl;
      destruct (child_loop rc k node sx hx) as [[? ?]| |]
  end; cbn [mbind outcome_bind]; [discriminate | discriminate | contradiction].
Qed.

(** X15.  Whatever the stream holds: with more fuel than the stream has
    characters [deser] does not run out of fuel, and a call that returns
    has left every node that existed as it was.  A node it returns is new,
    has no parent, is flagged visible, and is the root of a tree of new
    nodes in which every child names its parent; when it returns none the
    store is as before. *)
Theorem deser_allocates_fresh (fuel : nat) (s : istream) (h0 : heap) :
  ((remaining s < fuel)%nat -> deser fuel s h0 <> OutOfFuel) /\
  (forall (r : option nat) (s' : istream) (h1 : heap),
     deser fuel s h0 = Returns (r, s', h1) ->
     h0 ⊆ h1 /\
     match r with
     | None => h1 = h0
     | Some a =>
         h0 !! a = None /\
         (exists n, h1 !! a = Some n /\ parent n = None /\ visible n = true) /\
         fresh_tree fuel (dom h0) h1 a
     end).
Proof.
  split; [apply deser_total|].
  intros r s' h1 H. exact (proj2 (deser_reads fuel s s' h0 h1 r H)).
Qed.

Lemma deser_allocates_fresh_witness :
  let text := lit "Node r Position 1 2 3 Rotation 0 0 0 1 Scale 1 1 1 LODLevels 0 BoundingBox -1 -1 -1 1 1 1 Children 2 Node a Position 0 0 0 Rotation 0 0 0 1 Scale 1 1 1 LODLevels 0 BoundingBox -1 -1 -1 1 1 1 Children 0 end" in
  let h0 : gmap nat SceneNode := {[0%nat := SceneNode_new "old"]} in
  (remaining (Good text) < 300)%nat /\
  deser 300 (Good text) h0 <> OutOfFuel /\
  exists (a : nat) (s' : istream) (h1 : gmap nat SceneNode),
    deser 2 (Good text) h0 = Returns (Some a, s', h1) /\
    h0 ⊆ h1 /\ h0 !! a = None /\ fresh_tree 2 (dom h0) h1 a.
Proof.
  intros text h0.
  assert (Hlen : (remaining (Good text) < 300)%nat) by (vm_compute; lia).
  split; [exact Hlen|].
  split; [exact (proj1 (deser_allocates_fresh 300 (Good text) h0) Hlen)|].
  destruct (deser 2 (Good text) h0) as [[[r s'] h1]| |] eqn:E;
    [| vm_compute in E; discriminate E ..].
  destruct r as [a|]; [|vm_compute in E; discriminate E].
  exists a, s', h1. split; [reflexivity|].
  destruct (proj2 (deser_allocates_fresh 2 (Good text) h0) _ _ _ E)
    as (Hsub & Hf & _ & Ht).
  split; [exact Hsub|]. split; [exact Hf | exact Ht].
Defined.

(** ** Partitioners *)

Lemma interface_ops_snoc (ops : list OctreeOp) (op : OctreeOp) :
  interface_ops (ops ++ [op])
  = interface_ops ops
    ++ match op with Interface i => [i] | Subdivide => [] end.
Proof.
  unfold interface_ops. rewrite omap_app. destruct op; reflexivity.
Qed.

(** X16.  Whatever calls are made on an octree built by the constructor, its
    cube and depth stay as constructed, [objects] is the flat sequence of
    the nodes inserted since the last [clear], and the children are either
    all null or, when [subdivide] was called since the last [clear], the
    eight empty octants of the cube: no node is ever handed down to an
    octant and no octant is ever subdivided. *)
Theorem octree_after_calls (c : vec3) (hs : float) (d : Z)
    (ops : list OctreeOp) :
  int_min <= d < int_max ->
  fold_left octree_op ops (Octree.new c hs d)
  = Octree.mk c hs d (inserted_since_clear [] (interface_ops ops))
      (if subdivided_since_clear ops then octants c hs d
       else repeat None 8).
Proof.
  intros _. induction ops as [|op ops IH] using rev_ind; [reflexivity|].
  rewrite fold_left_app, IH. cbn [fold_left].
  rewrite interface_ops_snoc. unfold inserted_since_clear, subdivided_since_clear.
  rewrite !fold_left_app.
  destruct op as [[node|]|]; cbn [fold_left octree_op app].
  - reflexivity.
  - unfold Octree.clear. cbn [Octree.center Octree.halfSize Octree.depth
      Octree.children]. f_equal.
    match goal with
    | |- context [if ?b then _ else _] => destruct b
    end; reflexivity.
  - reflexivity.
Qed.

Lemma octree_after_calls_witness :
  let c := mkVec3 f0 f0 f0 in
  let ops := [ Interface (OpInsert 1%nat); Subdivide;
               Interface (OpInsert 2%nat) ] in
  int_min <= 0 < int_max /\
  Octree.objects (fold_left octree_op ops (Octree.new c (float_of_Z 100) 0))
  = [1%nat; 2%nat] /\
  Octree.children (fold_left octree_op ops (Octree.new c (float_of_Z 100) 0))
  = octants c (float_of_Z 100) 0.
Proof.
  intros c ops.
  assert (Hd : int_min <= 0 < int_max) by (unfold int_min, int_max; lia).
  split; [exact Hd|].
  rewrite (octree_after_calls c (float_of_Z 100) 0 ops Hd).
  split; reflexivity.
Defined.

(** X17.  A [BSPTree] built by the constructor never splits: after any calls of
    its interface the plane is as constructed, [frontList] is the sequence
    of the nodes inserted since the last [clear], [backList] is empty and
    both subtrees are null. *)
Theorem bsptree_after_calls (n : vec3) (d : float) (ops : list PartitionOp) :
  fold_left bsp_op ops (BSPTree.new n d)
  = BSPTree.mk n d (inserted_since_clear [] ops) [] None None.
Proof.
  induction ops as [|op ops IH] using rev_ind; [reflexivity|].
  rewrite fold_left_app, IH. cbn [fold_left].
  unfold inserted_since_clear. rewrite fold_left_app.
  destruct op; reflexivity.
Qed.

(** ** The menu loop *)

Lemma convert_int_failed (t : list ascii) (v : Z) :
  convert_int t = (v, false) -> v = 0 \/ v = int_min \/ v = int_max.
Proof.
  unfold convert_int.
  destruct (match t with
            | [] => (false, [])
            | c :: r => if is_sign c then (Ascii.eqb c "-", r) else (false, t)
            end) as [neg ds].
  destruct ds as [|d ds]; [intros [= <-]; auto|].
  destruct (_ <? int_min); [intros [= <-]; auto|].
  destruct (int_max <? _); [intros [= <-]; auto|]. discriminate.
Qed.

Lemma read_int_failed_value (s : istream) (r : option Z) :
  read_int s = (r, Failed) ->
  r = None \/ r = Some 0 \/ r = Some int_min \/ r = Some int_max.
Proof.
  destruct s as [b|]; cbn [read_int]; [|intros [= <-]; auto].
  destruct (skip_ws b) as [|c b'] eqn:Hb; [intros [= <-]; auto|].
  destruct (scan int_step _ _) as [st rest].
  destruct (convert_int (itext st)) as [v ok] eqn:Hc.
  destruct ok; [discriminate|]. intros [= <-]. right.
  destruct (convert_int_failed _ _ Hc) as [->|[->| ->]]; auto.
Qed.

Section Hang.

Context {FS : Type} (fs_read : string -> FS -> option (list ascii))
        (fs_write : string -> list ascii -> FS -> FS).

Lemma cull_loop_snoc (culler : FrustumCuller) (fuel : nat) (all : list nat)
    (n : nat) (e : Env FS) :
  cull_loop culler fuel (all ++ [n]) e
  = (e ← cull_loop culler fuel all e;
     '(v, h) ← found (isVisible culler fuel n (store e));
     let e := with_store h e in
     if v : bool then
       nd ← found (h !! n);
       Returns (put (lit "  " ++ lit (name nd) ++ [nl]) e)
     else Returns e).
Proof. unfold cull_loop. rewrite fold_left_app. reflexivity. Qed.

Lemma cull_loop_cin (culler : FrustumCuller) (fuel : nat) (all : list nat)
    (e e' : Env FS) :
  cull_loop culler fuel all e = Returns e' ->
  cin e' = cin e /\ disk e' = disk e.
Proof.
  revert e'. induction all as [|n all IH] using rev_ind; intros e'.
  - intros [= <-]. auto.
  - rewrite cull_loop_snoc.
    destruct (cull_loop culler fuel all e) as [e1| |];
      cbn [mbind outcome_bind]; [|discriminate..].
    destruct (IH e1 eq_refl) as [<- <-].
    destruct (isVisible culler fuel n (store e1)) as [[v h]|];
      cbn [found mbind outcome_bind]; [|discriminate].
    destruct v; [|intros [= <-]; auto].
    destruct (h !! n); cbn [found mbind outcome_bind]; [|discriminate].
    intros [= <-]. auto.
Qed.

Lemma dispatch_keeps_failed (fuel : nat) (choice : Z) (ui ui' : UI)
    (e e' : Env FS) :
  cin e = Failed ->
  dispatch fs_read fs_write fuel choice ui e = Returns (ui', e') ->
  cin e' = Failed.
Proof.
  destruct e as [ci co st dk]. cbn [cin]. intros ->.
  unfold dispatch, addNode, removeNode, moveNode, printGraph, serializeScene,
    deserializeScene, switchPartitioner, cullAndPrint.
  cbn [cin cout store disk put with_cin with_store with_disk read_word
       read_float read_int extracted extracted_word fst snd default
       mbind outcome_bind].
  repeat match goal with
         | |- context [if ?c =? ?k then _ else _] => destruct (c =? k)
         end.
  all: try discriminate.
  all: repeat match goal with
         | |- context [found ?x] =>
             destruct x as [?|]; cbn [found mbind outcome_bind];
             try discriminate
         | |- context [deserialize ?a ?b ?c] =>
             destruct (deserialize a b c) as [[? ?]| |];
             cbn [mbind outcome_bind]; try discriminate
         | |- context [make_shared ?a ?b] => destruct (make_shared a b)
         | |- context [lock ?a ?b] => destruct (lock a b)
         | |- context [match ?x with Some _ => _ | None => _ end] =>
             destruct x
         end.
  all: try (intros [= <- <-]; reflexivity).
  destruct (cull_loop _ _ _ _) as [e1| |] eqn:Hc;
    cbn [mbind outcome_bind]; [|discriminate..].
  intros [= <- <-]. apply cull_loop_cin in Hc as [-> _]. reflexivity.
Qed.

Lemma run_loop_spins (rounds fuel : nat) (choice : Z) (ui : UI) (e : Env FS) :
  cin e = Failed -> choice < 1 \/ 9 < choice ->
  run_loop fs_read fs_write rounds fuel choice ui e = OutOfFuel.
Proof.
  revert e. induction rounds as [|rounds IH]; intros e Hc Hch; [reflexivity|].
  cbn [run_loop]. destruct (Z.eqb_spec choice 9) as [?|_]; [lia|].
  cbn [cin put]. rewrite Hc. cbn [read_int default].
  unfold dispatch.
  repeat match goal with
         | |- context [if ?c =? ?k then _ else _] =>
             destruct (Z.eqb_spec c k) as [?|_]; [lia|]
         end.
  cbn [mbind outcome_bind]. apply IH; [reflexivity | exact Hch].
Qed.

Lemma run_loop_stuck (rounds fuel : nat) (choice : Z) (ui : UI) (e : Env FS)
    (res : UI * Env FS) :
  choice <> 9 -> snd (read_int (cin e)) = Failed ->
  run_loop fs_read fs_write rounds fuel choice ui e <> Returns res.
Proof.
  revert choice ui e.
  induction rounds as [|rounds IH]; intros choice ui e Hch Hs; [discriminate|].
  cbn [run_loop]. destruct (Z.eqb_spec choice 9) as [?|_]; [contradiction|].
  cbn [cin put]. destruct (read_int (cin e)) as [r s] eqn:Hr.
  cbn [snd] in Hs. subst s.
  assert (Hch' : default choice r <> 9).
  { destruct (read_int_failed_value _ _ Hr) as [->|[->|[->| ->]]];
      cbn [default]; [exact Hch | discriminate..]. }
  destruct (dispatch fs_read fs_write fuel (default choice r) ui
              (with_cin Failed (put menu e))) as [[ui1 e1]| |] eqn:Hd;
    cbn [mbind outcome_bind]; [|discriminate..].
  apply dispatch_keeps_failed in Hd; [|reflexivity].
  apply IH; [exact Hch'|]. rewrite Hd. reflexivity.
Qed.

(** X18.  Once an extraction of [choice] fails, at the end of the input or on a
    token that is no number in range, [run] does not return any more: the
    stream stays failed, [choice] keeps a value other than 9, and the last
    command is repeated round after round.  When that value selects no
    command, every round only prints the menu. *)
Theorem run_never_returns_after_failed_choice (rounds fuel : nat)
    (choice : Z) (ui : UI) (e : Env FS) :
  choice <> 9 -> snd (read_int (cin e)) = Failed ->
  (forall res, run_loop fs_read fs_write rounds fuel choice ui e
               <> Returns res) /\
  (default choice (fst (read_int (cin e))) < 1 \/
   9 < default choice (fst (read_int (cin e))) ->
   run_loop fs_read fs_write rounds fuel choice ui e = OutOfFuel).
Proof.
  intros Hch Hs. split; [intros res; apply run_loop_stuck; assumption|].
  intros Hout. destruct rounds as [|rounds]; [reflexivity|].
  cbn [run_loop]. destruct (Z.eqb_spec choice 9) as [?|_]; [contradiction|].
  cbn [cin put]. destruct (read_int (cin e)) as [r s].
  cbn [fst snd] in *. subst s. unfold dispatch.
  repeat match goal with
         | |- context [if ?c =? ?k then _ else _] =>
             destruct (Z.eqb_spec c k) as [?|_]; [lia|]
         end.
  cbn [mbind outcome_bind]. apply run_loop_spins; [reflexivity | exact Hout].
Qed.

End Hang.

Lemma run_never_returns_after_failed_choice_witness :
  let fs_read := fun (_ : string) (_ : unit) => @None (list ascii) in
  let fs_write := fun (_ : string) (_ : list ascii) (d : unit) => d in
  let e := mkEnv (Good (lit "quit")) [] ∅ tt in
  snd (read_int (cin e)) = Failed /\
  main fs_read fs_write 7 3 e = OutOfFuel.
Proof.
  intros fs_read fs_write e.
  assert (Hs : snd (read_int (cin e)) = Failed) by reflexivity.
  split; [exact Hs|]. unfold main, run.
  destruct (UI_new (store e)) as [ui h].
  apply (run_never_returns_after_failed_choice fs_read fs_write 7 3 0
           ui (with_store h e)).
  - discriminate.
  - exact Hs.
  - left. vm_compute. reflexivity.
Defined.

(** ** Scenes that are trees *)

Lemma fresh_tree_fuel_mono (k : nat) (old : gset nat) (h : heap) :
  forall (k' : nat) (a : nat),
    (k <= k')%nat -> fresh_tree k old h a -> fresh_tree k' old h a.
Proof.
  induction k as [|k IH]; intros k' a Hle; [intros []|].
  destruct k' as [|k']; [lia|]. cbn [fresh_tree].
  intros (Ha & n & Hn & Hkids). split; [exact Ha|]. exists n.
  split; [exact Hn|]. eapply Forall_impl; [exact Hkids|]. cbn beta.
  intros c [Hp Hc]. split; [exact Hp|]. apply IH; [lia | exact Hc].
Qed.

Lemma shrinks_refl (h : heap) : shrinks h h.
Proof. intros x. destruct (h !! x); constructor. split; reflexivity. Qed.

Lemma shrinks_trans (h1 h2 h3 : heap) :
  shrinks h1 h2 -> shrinks h2 h3 -> shrinks h1 h3.
Proof.
  intros H12 H23 x. specialize (H12 x). specialize (H23 x).
  destruct H12 as [a b [Hp Hc]|]; inversion H23 as [? c [Hp' Hc'] |];
    subst; constructor.
  split; [congruence|]. etransitivity; eassumption.
Qed.

Lemma shrinks_lookup (h h' : heap) (x : nat) (n : SceneNode) :
  shrinks h h' -> h !! x = Some n ->
  exists n', h' !! x = Some n' /\ parent n' = parent n /\
             children n' ⊆ children n.
Proof.
  intros Hs Hx. specialize (Hs x). rewrite Hx in Hs.
  inversion Hs as [? n' [Hp Hc] |]; subst. eauto.
Qed.

Lemma shrinks_alter (f : SceneNode -> SceneNode) (a : nat) (h : heap) :
  (forall n, parent (f n) = parent n /\ children (f n) ⊆ children n) ->
  shrinks h (alter f a h).
Proof.
  intros Hf x. destruct (decide (x = a)) as [->|Hne].
  - rewrite lookup_alter_eq. destruct (h !! a); constructor. apply Hf.
  - rewrite lookup_alter_ne by congruence. apply shrinks_refl.
Qed.

Lemma cache_equiv_shrinks (h h' : heap) :
  heap_cache_equiv h h' -> shrinks h h'.
Proof.
  intros He x. specialize (He x). destruct He as [n n' Hc|]; constructor.
  destruct Hc as (_ & Hp & Hch & _). rewrite Hch. auto.
Qed.

Lemma fresh_tree_shrinks (k : nat) (old : gset nat) (h h' : heap) :
  shrinks h h' ->
  forall a, fresh_tree k old h a -> fresh_tree k old h' a.
Proof.
  intros Hs. induction k as [|k IH]; intros a; [intros []|].
  cbn [fresh_tree]. intros (Ha & n & Hn & Hkids). split; [exact Ha|].
  destruct (shrinks_lookup _ _ _ _ Hs Hn) as (n' & Hn' & _ & Hsub).
  exists n'. split; [exact Hn'|]. apply Forall_forall. intros c Hc.
  rewrite Forall_forall in Hkids. destruct (Hkids c (Hsub c Hc)) as [Hp Ht].
  split; [|apply IH, Ht].
  destruct (h !! c) as [nc|] eqn:Hnc; [|discriminate].
  destruct (shrinks_lookup _ _ _ _ Hs Hnc) as (nc' & Hnc' & Hpc & _).
  rewrite Hnc'. cbn [fmap option_fmap option_map] in *. congruence.
Qed.

Lemma scene_ok_shrinks (k : nat) (h h' : heap) (r : nat) :
  shrinks h h' -> scene_ok k h r -> scene_ok k h' r.
Proof.
  intros Hs [Hp Ht]. split; [|eapply fresh_tree_shrinks; eassumption].
  destruct (h !! r) as [n|] eqn:Hn; [|discriminate].
  destruct (shrinks_lookup _ _ _ _ Hs Hn) as (n' & Hn' & Hpar & _).
  rewrite Hn'. cbn [fmap option_fmap option_map] in *. congruence.
Qed.

Lemma ancestry_shrinks (h h' : heap) (path : list nat) (a : nat) :
  shrinks h h' -> ancestry h path a -> ancestry h' path a.
Proof.
  intros Hs Ha. eapply ancestry_agree; [exact Ha | |].
  - intros x Hx. destruct (ancestry_live _ _ _ Ha x Hx) as [n Hn].
    destruct (shrinks_lookup _ _ _ _ Hs Hn) as (n' & Hn' & Hp & _). eauto.
  - intros x. specialize (Hs x). destruct Hs; split; congruence.
Qed.

(** *** Traversals return on trees *)

Lemma mapM_Forall_Some {A B : Type} (f : A -> option B) (P : A -> Prop)
    (Q : B -> Prop) (l : list A) :
  Forall P l -> (forall x, P x -> exists y, f x = Some y /\ Q y) ->
  exists k, mapM f l = Some k /\ Forall Q k.
Proof.
  intros Hall Hf. induction Hall as [|x l Hx _ IH].
  - exists []. split; [reflexivity | constructor].
  - destruct (Hf x Hx) as (y & Hy & HQ). destruct IH as (k & Hk & HQk).
    exists (y :: k). rewrite mapM_cons, Hy, Hk. split; [reflexivity|].
    constructor; assumption.
Qed.

Lemma fresh_tree_within (k : nat) (old : gset nat) (h : heap) :
  forall a, fresh_tree k old h a -> subtree_within k h a.
Proof.
  induction k as [|k IH]; intros a; [intros []|].
  intros (_ & n & Hn & Hkids). exists n. split; [exact Hn|].
  eapply Forall_impl; [exact Hkids|]. cbn beta. intros c [_ Hc]. apply IH, Hc.
Qed.

Lemma subtree_within_mono (k : nat) (h : heap) :
  forall (k' : nat) (a : nat),
    (k <= k')%nat -> subtree_within k h a -> subtree_within k' h a.
Proof.
  induction k as [|k IH]; intros k' a Hle; [intros []|].
  destruct k' as [|k']; [lia|].
  intros (n & Hn & Hkids). exists n. split; [exact Hn|].
  eapply Forall_impl; [exact Hkids|]. cbn beta. intros c Hc.
  apply IH; [lia | exact Hc].
Qed.

Lemma tree_preorder (fuel : nat) (h : heap) :
  forall a : nat,
    subtree_within fuel h a -> exists l, preorder fuel h a = Some l.
Proof.
  induction fuel as [|fuel IH]; intros a; [intros []|].
  intros (n & Hn & Hkids).
  cbn [preorder]. rewrite Hn. cbn [mbind option_bind].
  destruct (mapM_Forall_Some (preorder fuel h) _ (fun _ => True) _ Hkids)
    as (ks & Hks & _).
  { intros c Hc. destruct (IH c Hc) as [l Hl]. eauto. }
  rewrite Hks. cbn [mbind option_bind]. eauto.
Qed.

Lemma tree_draw (fuel : nat) (h : heap) :
  forall (a : nat) (depth : Z),
    subtree_within fuel h a -> exists t, draw fuel a h depth = Some t.
Proof.
  induction fuel as [|fuel IH]; intros a depth; [intros []|].
  intros (n & Hn & Hkids).
  cbn [draw]. rewrite Hn. cbn [mbind option_bind].
  destruct (mapM_Forall_Some (fun c => draw fuel c h (depth + 1)) _
              (fun _ => True) _ Hkids) as (ks & Hks & _).
  { intros c Hc. destruct (IH c (depth + 1) Hc) as [t Ht]. eauto. }
  rewrite Hks. cbn [mbind option_bind]. eauto.
Qed.

Lemma tree_serializeNode (fuel : nat) (h : heap) :
  forall (a : nat) (indent : nat),
    subtree_within fuel h a ->
    exists t, serializeNode fuel a h indent = Some t.
Proof.
  induction fuel as [|fuel IH]; intros a indent; [intros []|].
  intros (n & Hn & Hkids).
  cbn [serializeNode]. rewrite Hn. cbn [mbind option_bind].
  destruct (mapM_Forall_Some (fun c => serializeNode fuel c h (indent + 4)) _
              (fun _ => True) _ Hkids) as (ks & Hks & _).
  { intros c Hc. destruct (IH c (indent + 4)%nat Hc) as [t Ht]. eauto. }
  rewrite Hks. cbn [mbind option_bind]. eauto.
Qed.

(** X19.  On a subtree of finite depth, given a frame of fuel for each level,
    every traversal of the children vectors returns. *)
Theorem subtree_traversals_return (k fuel : nat) (h : heap) (a : nat) :
  subtree_within k h a -> (k <= fuel)%nat ->
  (forall indent, exists t, serializeNode fuel a h indent = Some t) /\
  (forall depth, exists t, draw fuel a h depth = Some t) /\
  (forall all, exists l, gather fuel a h all = Some (all ++ l)) /\
  (forall nm, exists r, findNode fuel nm a h = Some r).
Proof.
  intros Hk Hle. pose proof (subtree_within_mono k h fuel a Hle Hk) as Ht.
  destruct (tree_preorder fuel h a Ht) as [l Hl].
  split; [intros indent; apply tree_serializeNode, Ht|].
  split; [intros depth; apply tree_draw, Ht|].
  split; [intros all; exists l; rewrite gather_preorder, Hl; reflexivity|].
  intros nm. rewrite (findNode_preorder fuel nm h a l Hl). eauto.
Qed.

Lemma subtree_traversals_return_witness :
  let h : gmap nat SceneNode :=
    addChild 0%nat 1%nat
      (<[1%nat := SceneNode_new "c"]> {[0%nat := SceneNode_new "p"]}) in
  subtree_within 2 h 0%nat /\
  (exists t, draw 3 0%nat h 0 = Some t) /\
  (exists l, gather 3 0%nat h [] = Some l).
Proof.
  intros h.
  assert (Hs : subtree_within 2 h 0%nat).
  { eexists. split; [vm_compute; reflexivity|].
    constructor; [|constructor].
    eexists. split; [vm_compute; reflexivity | constructor]. }
  split; [exact Hs|].
  destruct (subtree_traversals_return 2 3 h 0%nat Hs ltac:(lia))
    as (_ & Hd & Hg & _).
  split; [apply Hd | apply (Hg [])].
Defined.

Lemma elem_of_concat {A : Type} (x : A) (ls : list (list A)) :
  x ∈ concat ls -> exists l, x ∈ l /\ l ∈ ls.
Proof.
  induction ls as [|l ls IH]; cbn [concat]; [intros H; inversion H|].
  intros H. apply elem_of_app in H as [H|H].
  - exists l. split; [exact H | left].
  - destruct (IH H) as (l' & Hx & Hl). exists l'. split; [exact Hx | right; exact Hl].
Qed.

Lemma Forall2_elem_r {A B : Type} (P : A -> B -> Prop) (l : list A)
    (k : list B) (y : B) :
  Forall2 P l k -> y ∈ k -> exists x, x ∈ l /\ P x y.
Proof.
  induction 1 as [|x y0 l k Hxy _ IH]; intros Hy; [inversion Hy|].
  apply elem_of_cons in Hy as [->|Hy].
  - exists x. split; [left | exact Hxy].
  - destruct (IH Hy) as (x' & Hx' & HP). exists x'. split; [right|]; assumption.
Qed.

Lemma tree_ancestors (k : nat) (old : gset nat) (h : heap) :
  forall (fuel : nat) (a : nat) (path : list nat) (l : list nat),
    fresh_tree k old h a -> ancestry h path a ->
    preorder fuel h a = Some l ->
    forall x, x ∈ l ->
      exists p, ancestry h p x /\ (length p <= length path + k)%nat.
Proof.
  induction k as [|k IH]; intros fuel a path l; [intros []|].
  intros (Ha & n & Hn & Hkids) Hanc. destruct fuel as [|fuel]; [discriminate|].
  cbn [preorder]. rewrite Hn. cbn [mbind option_bind].
  destruct (mapM (preorder fuel h) (children n)) as [ks|] eqn:Hks;
    [|discriminate].
  cbn [mbind option_bind]. intros [= <-] x Hx.
  apply elem_of_cons in Hx as [->|Hx]; [exists path; split; [exact Hanc | lia]|].
  apply elem_of_concat in Hx as (lc & Hxl & Hlc).
  apply mapM_Some_1 in Hks.
  destruct (Forall2_elem_r _ _ _ _ Hks Hlc) as (c & Hc & Hpre).
  rewrite Forall_forall in Hkids. destruct (Hkids c Hc) as [Hpar Ht].
  destruct (h !! c) as [nc|] eqn:Hnc; [|discriminate].
  cbn [fmap option_fmap option_map] in Hpar. injection Hpar as Hpar.
  assert (Hstep : ancestry h (path ++ [c]) c).
  { eapply ancestry_step; [exact Hnc | | exact Hanc].
    rewrite Hpar. cbn [lock]. rewrite Hn. reflexivity. }
  destruct (IH fuel c (path ++ [c]) lc Ht Hstep Hpre x Hxl) as (p & Hp & Hlen).
  exists p. split; [exact Hp|]. rewrite length_app in Hlen. cbn [length] in Hlen.
  lia.
Qed.

Lemma scene_ancestors (k fuel : nat) (h : heap) (r : nat) (l : list nat) :
  scene_ok k h r -> preorder fuel h r = Some l ->
  forall x, x ∈ l -> exists p, ancestry h p x /\ (length p <= S k)%nat.
Proof.
  intros [Hp Ht] Hpre x Hx.
  destruct (h !! r) as [n|] eqn:Hn; [|discriminate].
  cbn [fmap option_fmap option_map] in Hp. injection Hp as Hp.
  assert (Hroot : ancestry h [r] r).
  { eapply ancestry_root; [exact Hn|]. rewrite Hp. reflexivity. }
  destruct (tree_ancestors k ∅ h fuel r [r] l Ht Hroot Hpre x Hx)
    as (p & Hanc & Hlen).
  exists p. split; [exact Hanc|]. cbn [length] in Hlen. lia.
Qed.

(** *** Culling on a tree *)

Lemma isVisible_shrinks (c : FrustumCuller) (fuel : nat) (node : nat)
    (h h' : heap) (b : bool) :
  isVisible c fuel node h = Some (b, h') -> shrinks h h'.
Proof.
  intros Hv. destruct (isVisible_frame _ _ _ _ _ _ Hv)
    as (Hoth & (n & n' & Hn & Hn' & Hc)).
  intros x. destruct (decide (x = node)) as [->|Hne].
  - rewrite Hn, Hn'. constructor. destruct Hc as (_ & Hp & Hch & _).
    cbn [parent children set_visible] in *. rewrite Hch. auto.
  - specialize (Hoth x Hne). destruct Hoth as [a a' Hc'|]; constructor.
    destruct Hc' as (_ & Hp & Hch & _). rewrite Hch. auto.
Qed.

Lemma isVisible_returns (c : FrustumCuller) (fuel : nat) (node : nat)
    (h : heap) (path : list nat) :
  ancestry h path node -> (length path <= fuel)%nat ->
  exists b h', isVisible c fuel node h = Some (b, h').
Proof.
  intros Hanc Hlen.
  destruct (getWorldMatrix_path h path node Hanc fuel Hlen)
    as (m & h1 & Hw & _ & He).
  destruct (ancestry_live _ _ _ Hanc node (ancestry_self _ _ _ Hanc))
    as [n Hn].
  destruct (heap_cache_equiv_lookup _ _ _ _ He Hn) as (n1 & Hn1 & _).
  unfold isVisible. rewrite Hw. cbn [mbind option_bind]. rewrite Hn1.
  cbn [mbind option_bind].
  destruct (some_plane_rejects _ _ _); eauto.
Qed.

Section Commands.

Context {FS : Type} (fs_read : string -> FS -> option (list ascii))
        (fs_write : string -> list ascii -> FS -> FS).

Lemma cull_loop_shrinks (culler : FrustumCuller) (fuel : nat)
    (all : list nat) (e e' : Env FS) :
  cull_loop culler fuel all e = Returns e' -> shrinks (store e) (store e').
Proof.
  revert e'. induction all as [|n all IH] using rev_ind; intros e'.
  - intros [= <-]. apply shrinks_refl.
  - rewrite cull_loop_snoc.
    destruct (cull_loop culler fuel all e) as [e1| |];
      cbn [mbind outcome_bind]; [|discriminate..].
    specialize (IH e1 eq_refl).
    destruct (isVisible culler fuel n (store e1)) as [[v h]|] eqn:Hv;
      cbn [found mbind outcome_bind]; [|discriminate].
    apply isVisible_shrinks in Hv.
    assert (Hs : shrinks (store e) h) by (eapply shrinks_trans; eassumption).
    destruct v; [|intros [= <-]; exact Hs].
    destruct (h !! n); cbn [found mbind outcome_bind]; [|discriminate].
    intros [= <-]. exact Hs.
Qed.

Lemma cull_loop_returns (culler : FrustumCuller) (fuel : nat)
    (all : list nat) (e : Env FS) :
  (forall x, x ∈ all ->
     exists p, ancestry (store e) p x /\ (length p <= fuel)%nat) ->
  exists e', cull_loop culler fuel all e = Returns e'.
Proof.
  induction all as [|n all IH] using rev_ind; intros Hall.
  - exists e. reflexivity.
  - rewrite cull_loop_snoc.
    destruct IH as [e1 He1].
    { intros x Hx. apply Hall, elem_of_app. left. exact Hx. }
    rewrite He1. cbn [mbind outcome_bind].
    destruct (Hall n ltac:(apply elem_of_app; right; left))
      as (p & Hanc & Hlen).
    apply (ancestry_shrinks _ _ _ _ (cull_loop_shrinks _ _ _ _ _ He1))
      in Hanc.
    destruct (isVisible_returns culler fuel n (store e1) p Hanc Hlen)
      as (b & h' & Hv).
    rewrite Hv. cbn [found mbind outcome_bind].
    destruct b; [|eauto].
    destruct (isVisible_frame _ _ _ _ _ _ Hv) as (_ & (? & n' & _ & Hn' & _)).
    rewrite Hn'. cbn [found mbind outcome_bind]. eauto.
Qed.

Lemma findNode_live (fuel : nat) (nm : string) (h : heap) :
  forall (a x : nat),
    findNode fuel nm a h = Some (Some x) -> is_Some (h !! x).
Proof.
  induction fuel as [|fuel IH]; intros a x; [discriminate|].
  cbn [findNode]. destruct (h !! a) as [n|] eqn:Hn; [|discriminate].
  cbn [mbind option_bind].
  destruct (String.eqb (name n) nm); [intros [= <-]; eauto|].
  generalize (children n). intros cs.
  induction cs as [|c cs IHcs]; cbn [find_first]; [discriminate|].
  destruct (findNode fuel nm c h) as [[y|]|] eqn:Hc; [| exact IHcs | discriminate].
  intros [= <-]. eapply IH, Hc.
Qed.

Lemma tree_findNode (k fuel : nat) (old : gset nat) (h : heap) (a : nat)
    (nm : string) :
  fresh_tree k old h a -> (k <= fuel)%nat ->
  exists r, findNode fuel nm a h = Some r.
Proof.
  intros Ht Hle.
  destruct (tree_preorder fuel h a
              (subtree_within_mono k h fuel a Hle (fresh_tree_within _ _ _ _ Ht)))
    as [l Hl].
  rewrite (findNode_preorder fuel nm h a l Hl). eauto.
Qed.

Lemma addChild_leaf_lookup (h : heap) (p c : nat) (nm : string) (x : nat)
    (nx : SceneNode) :
  h !! c = None -> is_Some (h !! p) -> h !! x = Some nx ->
  addChild p c (<[c := SceneNode_new nm]> h) !! x
  = Some (if decide (x = p) then set_children (children nx ++ [c]) nx
          else nx).
Proof.
  intros Hc [np Hp] Hx.
  assert (p <> c) by congruence. assert (x <> c) by congruence.
  destruct (decide (x = p)) as [->|Hne].
  - apply addChild_lookup_this; [assumption|].
    rewrite lookup_insert_ne by congruence. exact Hx.
  - rewrite addChild_lookup_other by assumption.
    rewrite lookup_insert_ne by congruence. exact Hx.
Qed.

Lemma fresh_tree_addChild_leaf (k : nat) (old : gset nat) (h : heap)
    (p c : nat) (nm : string) :
  h !! c = None -> c ∉ old -> is_Some (h !! p) ->
  forall a, fresh_tree k old h a ->
    fresh_tree (S k) old (addChild p c (<[c := SceneNode_new nm]> h)) a.
Proof.
  intros Hc Hco Hp. set (h2 := addChild p c (<[c := SceneNode_new nm]> h)).
  assert (Hpc : p <> c) by (destruct Hp; congruence).
  assert (Hc2 : h2 !! c = Some (set_parent (Some p) (SceneNode_new nm))).
  { unfold h2. apply addChild_lookup_child; [exact Hpc|].
    apply lookup_insert_eq. }
  induction k as [|k IH]; intros a; [intros []|].
  intros (Ha & n & Hn & Hkids). split; [exact Ha|].
  pose proof (addChild_leaf_lookup h p c nm a n Hc Hp Hn) as Ha2.
  fold h2 in Ha2.
  assert (Hold : Forall (fun ch => parent <$> h2 !! ch = Some (Some a) /\
                                   fresh_tree (S k) old h2 ch) (children n)).
  { eapply Forall_impl; [exact Hkids|]. cbn beta. intros ch [Hpar Ht].
    split; [|apply IH, Ht].
    destruct (h !! ch) as [nch|] eqn:Hch; [|discriminate].
    unfold h2. rewrite (addChild_leaf_lookup h p c nm ch nch Hc Hp Hch).
    cbn [fmap option_fmap option_map] in *.
    destruct (decide (ch = p)); exact Hpar. }
  destruct (decide (a = p)) as [->|Hne].
  - eexists. split; [exact Ha2|]. cbn [children set_children].
    apply Forall_app. split; [exact Hold|]. constructor; [|constructor].
    split; [rewrite Hc2; reflexivity|].
    cbn [fresh_tree]. split; [exact Hco|]. eexists. split; [exact Hc2|].
    constructor.
  - exists n. split; [exact Ha2 | exact Hold].
Qed.

Lemma scene_ok_addChild_leaf (k : nat) (h : heap) (r p c : nat) (nm : string) :
  h !! c = None -> is_Some (h !! p) -> scene_ok k h r ->
  scene_ok (S k) (addChild p c (<[c := SceneNode_new nm]> h)) r.
Proof.
  intros Hc Hp [Hpar Ht]. split.
  - destruct (h !! r) as [n|] eqn:Hn; [|discriminate].
    rewrite (addChild_leaf_lookup h p c nm r n Hc Hp Hn).
    cbn [fmap option_fmap option_map] in *. destruct (decide (r = p)); exact Hpar.
  - apply fresh_tree_addChild_leaf; [exact Hc | set_solver | exact Hp | exact Ht].
Qed.

Lemma scene_ok_mono (k k' : nat) (h : heap) (r : nat) :
  (k <= k')%nat -> scene_ok k h r -> scene_ok k' h r.
Proof.
  intros Hle [Hp Ht]. split; [exact Hp|].
  eapply fresh_tree_fuel_mono; eassumption.
Qed.

Lemma removeChild_shrinks (p c : nat) (h : heap) :
  shrinks h (removeChild p c h).
Proof.
  apply shrinks_alter. intros n. split; [reflexivity|].
  cbn [children set_children]. intros y Hy.
  unfold erase_remove in Hy. apply list_elem_of_filter in Hy as [_ Hy]. exact Hy.
Qed.

(** Every command leaves the scene a tree. *)
Lemma dispatch_scene (k fuel : nat) (choice : Z) (ui ui' : UI)
    (e e' : Env FS) :
  scene_ok k (store e) (root ui) ->
  dispatch fs_read fs_write fuel choice ui e = Returns (ui', e') ->
  scene_ok (Nat.max (S k) fuel) (store e') (root ui').
Proof.
  intros Hok.
  assert (Hsame : scene_ok (Nat.max (S k) fuel) (store e) (root ui)).
  { eapply scene_ok_mono; [|exact Hok]. lia. }
  assert (Hshr : forall h', shrinks (store e) h' ->
            scene_ok (Nat.max (S k) fuel) h' (root ui)).
  { intros h' Hs. eapply scene_ok_shrinks; eassumption. }
  destruct e as [ci co st dk]. cbn [store] in *.
  unfold dispatch, addNode, removeNode, moveNode, printGraph, serializeScene,
    deserializeScene, switchPartitioner, cullAndPrint.
  cbn [cin cout store disk put with_cin with_store with_disk].
  repeat match goal with
         | |- context [if ?c =? ?j then _ else _] => destruct (c =? j)
         end.
  - (* addNode *)
    destruct (extracted_word (read_word ci)) as [pn s1].
    destruct (findNode fuel pn (root ui) st) as [[p|]|] eqn:Hf;
      cbn [found mbind outcome_bind]; [| |discriminate].
    + destruct (extracted_word (read_word s1)) as [nn s2].
      unfold make_shared. intros [= <- <-]. cbn [store].
      eapply scene_ok_mono;
        [|apply scene_ok_addChild_leaf;
          [apply not_elem_of_dom, is_fresh
          | eapply findNode_live, Hf | exact Hok]].
      lia.
    + intros [= <- <-]. exact Hsame.
  - (* removeNode *)
    destruct (extracted_word (read_word ci)) as [nm s1].
    destruct (findNode fuel nm (root ui) st) as [[x|]|];
      cbn [found mbind outcome_bind]; [| |discriminate].
    + destruct (st !! x) as [nd|]; cbn [found mbind outcome_bind];
        [|discriminate].
      destruct (lock st (parent nd)) as [p|]; intros [= <- <-];
        [|exact Hsame].
      cbn [store]. apply Hshr, removeChild_shrinks.
    + intros [= <- <-]. exact Hsame.
  - (* moveNode *)
    destruct (extracted_word (read_word ci)) as [nm s1].
    destruct (findNode fuel nm (root ui) st) as [[x|]|];
      cbn [found mbind outcome_bind]; [| |discriminate].
    + repeat match goal with
             | |- context [extracted ?r] =>
                 destruct r as [[?|] ?]; cbn [extracted mbind outcome_bind];
                 [|discriminate]
             end.
      intros [= <- <-]. cbn [store]. apply Hshr, shrinks_alter.
      intros n. split; reflexivity.
    + intros [= <- <-]. exact Hsame.
  - (* printGraph *)
    destruct (draw fuel (root ui) st 0); cbn [found mbind outcome_bind];
      [|discriminate].
    intros [= <- <-]. exact Hsame.
  - (* serializeScene *)
    destruct (extracted_word (read_word ci)) as [fn s1].
    destruct (serialize fuel (root ui) st); cbn [found mbind outcome_bind];
      [|discriminate].
    intros [= <- <-]. exact Hsame.
  - (* deserializeScene *)
    destruct (extracted_word (read_word ci)) as [fn s1].
    unfold deserialize. destruct (fs_read fn dk) as [content|];
      cbn [mbind outcome_bind]; [|intros [= <- <-]; exact Hsame].
    destruct (deser fuel (Good content) st) as [[[r s'] h']| |] eqn:Hd;
      cbn [mbind outcome_bind]; [|discriminate..].
    destruct (deser_reads _ _ _ _ _ _ Hd) as (_ & Hsub & Hr).
    destruct r as [r|]; intros [= <- <-];
      cbn [store root with_store with_cin put].
    + destruct Hr as (_ & (n & Hn & Hp & _) & Ht).
      eapply scene_ok_mono; [|split].
      * apply Nat.le_max_r.
      * rewrite Hn. cbn [fmap option_fmap option_map]. rewrite Hp. reflexivity.
      * eapply fresh_tree_old_mono; [|exact Ht]. set_solver.
    + subst h'. exact Hsame.
  - (* switchPartitioner *)
    destruct (read_int ci) as [[c|] s1]; cbn [extracted mbind outcome_bind];
      [|discriminate].
    destruct (c =? 1); intros [= <- <-]; exact Hsame.
  - (* cullAndPrint *)
    destruct (gather fuel (root ui) st []) as [all|];
      cbn [found mbind outcome_bind]; [|discriminate].
    destruct (cull_loop _ _ _ _) as [e1| |] eqn:Hc;
      cbn [mbind outcome_bind]; [|discriminate..].
    intros [= <- <-]. cbn [root]. apply Hshr.
    apply cull_loop_shrinks in Hc. exact Hc.
  - intros [= <- <-]. exact Hsame.
Qed.

(** X20.  On a scene that is a tree, with more fuel than the tree is deep and
    than any file has characters, no command of the menu fails to return
    for lack of fuel: its traversals end. *)
Theorem commands_return_on_a_tree (k fuel : nat) (choice : Z) (ui : UI)
    (e : Env FS) :
  scene_ok k (store e) (root ui) -> (k < fuel)%nat ->
  (forall nm text, fs_read nm (disk e) = Some text ->
                   (length text < fuel)%nat) ->
  dispatch fs_read fs_write fuel choice ui e <> OutOfFuel.
Proof.
  intros Hok Hk Hfiles. pose proof Hok as [_ Ht].
  destruct e as [ci co st dk]. cbn [store disk] in *.
  assert (Hw : subtree_within fuel st (root ui)).
  { eapply subtree_within_mono; [|eapply fresh_tree_within, Ht]. lia. }
  unfold dispatch, addNode, removeNode, moveNode, printGraph, serializeScene,
    deserializeScene, switchPartitioner, cullAndPrint.
  cbn [cin cout store disk put with_cin with_store with_disk].
  repeat match goal with
         | |- context [if ?c =? ?j then _ else _] => destruct (c =? j)
         end.
  - destruct (extracted_word (read_word ci)) as [pn s1].
    destruct (tree_findNode k fuel ∅ st (root ui) pn Ht ltac:(lia)) as [r ->].
    cbn [found mbind outcome_bind]. destruct r; [|discriminate].
    destruct (extracted_word (read_word s1)) as [nn s2].
    destruct (make_shared nn st). discriminate.
  - destruct (extracted_word (read_word ci)) as [nm s1].
    destruct (tree_findNode k fuel ∅ st (root ui) nm Ht ltac:(lia)) as [r Hr].
    rewrite Hr. cbn [found mbind outcome_bind]. destruct r as [x|]; [|discriminate].
    destruct (findNode_live _ _ _ _ _ Hr) as [nd ->].
    cbn [found mbind outcome_bind]. destruct (lock st (parent nd)); discriminate.
  - destruct (extracted_word (read_word ci)) as [nm s1].
    destruct (tree_findNode k fuel ∅ st (root ui) nm Ht ltac:(lia)) as [r ->].
    cbn [found mbind outcome_bind]. destruct r as [x|]; [|discriminate].
    repeat match goal with
           | |- context [extracted ?r] =>
               destruct r as [[?|] ?]; cbn [extracted mbind outcome_bind];
               [|discriminate]
           end.
    discriminate.
  - destruct (tree_draw fuel st (root ui) 0 Hw) as [t ->].
    discriminate.
  - destruct (extracted_word (read_word ci)) as [fn s1].
    unfold serialize.
    destruct (tree_serializeNode fuel st (root ui) 0 Hw) as [t ->].
    discriminate.
  - destruct (extracted_word (read_word ci)) as [fn s1].
    unfold deserialize. destruct (fs_read fn dk) as [content|] eqn:Hfile;
      cbn [mbind outcome_bind]; [|discriminate].
    pose proof (deser_total fuel (Good content) st
                  (Hfiles fn content Hfile)) as Hd.
    destruct (deser fuel (Good content) st) as [[[r s'] h']| |];
      cbn [mbind outcome_bind]; [|discriminate | contradiction].
    destruct r; discriminate.
  - destruct (read_int ci) as [[c|] s1]; cbn [extracted mbind outcome_bind];
      [|discriminate].
    destruct (c =? 1); discriminate.
  - rewrite gather_preorder.
    destruct (tree_preorder fuel st (root ui) Hw) as [l Hl].
    rewrite Hl. cbn [fmap option_fmap option_map found mbind outcome_bind app].
    match goal with
    | |- context [cull_loop ?c ?f ?a ?e0] =>
        destruct (cull_loop_returns c f a e0) as [e1 ->]
    end; [|discriminate].
    intros x Hx. cbn [store].
    destruct (scene_ancestors k fuel st (root ui) l Hok Hl x Hx)
      as (p & Hp & Hlen).
    exists p. split; [exact Hp | lia].
  - discriminate.
Qed.

Lemma UI_new_scene (h : heap) :
  scene_ok 1 (snd (UI_new h)) (root (fst (UI_new h))).
Proof.
  unfold UI_new, make_shared. cbn [fst snd root].
  split; [rewrite lookup_insert_eq; reflexivity|].
  cbn [fresh_tree]. split; [set_solver|]. eexists.
  split; [apply lookup_insert_eq|]. constructor.
Qed.

Lemma run_loop_scene (rounds fuel : nat) :
  forall (choice : Z) (ui ui' : UI) (e e' : Env FS) (k : nat),
    scene_ok k (store e) (root ui) ->
    run_loop fs_read fs_write rounds fuel choice ui e = Returns (ui', e') ->
    exists k', scene_ok k' (store e') (root ui').
Proof.
  induction rounds as [|rounds IH]; intros choice ui ui' e e' k Hok;
    [discriminate|].
  cbn [run_loop]. destruct (choice =? 9); [intros [= <- <-]; eauto|].
  destruct (read_int (cin (put menu e))) as [r s].
  destruct (dispatch fs_read fs_write fuel (default choice r) ui
              (with_cin s (put menu e))) as [[ui1 e1]| |] eqn:Hd;
    cbn [mbind outcome_bind]; [|discriminate..].
  apply (dispatch_scene k) in Hd; [|exact Hok].
  eapply IH, Hd.
Qed.

(** X21.  Every command of the menu leaves the scene a tree: from a root without
    parent, child lists that never lead back and children that name their
    parent.  So does a whole session: the scene [main] ends with is one. *)
Theorem commands_keep_the_scene_a_tree (rounds fuel : nat) :
  (forall (k : nat) (choice : Z) (ui ui' : UI) (e e' : Env FS),
     scene_ok k (store e) (root ui) ->
     dispatch fs_read fs_write fuel choice ui e = Returns (ui', e') ->
     scene_ok (Nat.max (S k) fuel) (store e') (root ui')) /\
  (forall (e e' : Env FS) (ui' : UI),
     main fs_read fs_write rounds fuel e = Returns (ui', e') ->
     exists k, scene_ok k (store e') (root ui')).
Proof.
  split.
  - intros k choice ui ui' e e'. apply dispatch_scene.
  - intros e e' ui'. unfold main, run.
    pose proof (UI_new_scene (store e)) as Hnew.
    destruct (UI_new (store e)) as [ui h]. cbn [fst snd] in Hnew.
    apply (run_loop_scene rounds fuel 0 ui ui' (with_store h e) e' 1 Hnew).
Qed.


End Commands.

Lemma commands_keep_the_scene_a_tree_witness :
  let fs_read := fun (_ : string) (_ : unit) => @None (list ascii) in
  let fs_write := fun (_ : string) (_ : list ascii) (d : unit) => d in
  let e := mkEnv (Good (lit "1 Root A 1 A B 2 A 9")) [] ∅ tt in
  exists (ui' : UI) (e' : Env unit),
    main fs_read fs_write 5 3 e = Returns (ui', e') /\
    exists k, scene_ok k (store e') (root ui').
Proof.
  intros fs_read fs_write e.
  destruct (main fs_read fs_write 5 3 e) as [[ui' e']| |] eqn:E;
    [| vm_compute in E; discriminate E ..].
  exists ui', e'. split; [reflexivity|].
  exact (proj2 (commands_keep_the_scene_a_tree fs_read fs_write 5 3) e e' ui' E).
Defined.

Lemma commands_return_on_a_tree_witness :
  let fs_read := fun (_ : string) (_ : unit) => @None (list ascii) in
  let fs_write := fun (_ : string) (_ : list ascii) (d : unit) => d in
  let h := snd (UI_new ∅) in
  let ui := fst (UI_new ∅) in
  let e := mkEnv (Good (lit "")) [] h tt in
  scene_ok 1 (store e) (root ui) /\
  dispatch fs_read fs_write 2 8 ui e <> OutOfFuel.
Proof.
  intros fs_read fs_write h ui e.
  assert (Hok : scene_ok 1 (store e) (root ui)) by apply UI_new_scene.
  split; [exact Hok|].
  apply (commands_return_on_a_tree fs_read fs_write 1 2 8 ui e Hok).
  - lia.
  - intros nm text [=].
Defined.

(** ** What culling prints and registers *)

Lemma registered_inserts (all : list nat) (p : PartitioningStrategy) :
  registered (fold_left (fun p n => partition_insert n p) all p)
  = registered p ++ all.
Proof.
  revert p. induction all as [|n all IH]; intros p; cbn [fold_left].
  - rewrite app_nil_r. reflexivity.
  - rewrite IH. destruct p; cbn [partition_insert registered Octree.insert
      Octree.objects BSPTree.insert BSPTree.frontList];
      rewrite <- app_assoc; reflexivity.
Qed.

Section Culling.

Context {FS : Type}.

Lemma cull_loop_spec (c : FrustumCuller) (fuel : nat) (all : list nat)
    (e e' : Env FS) :
  cull_loop c fuel all e = Returns e' ->
  same_geometry (store e) (store e') /\
  cin e' = cin e /\ disk e' = disk e /\
  cout e' = cout e ++ concat (map (visible_line (store e))
                                (List.filter (verdict c fuel (store e)) all)) /\
  forall x, x ∈ all ->
    visible <$> store e' !! x = Some (verdict c fuel (store e) x).
Proof.
  revert e'. induction all as [|n all IH] using rev_ind; intros e'.
  - intros [= <-]. split; [apply same_geometry_refl|].
    cbn [List.filter map concat]. rewrite app_nil_r.
    repeat split. intros x Hx. inversion Hx.
  - rewrite cull_loop_snoc.
    destruct (cull_loop c fuel all e) as [e1| |];
      cbn [mbind outcome_bind]; [|discriminate..].
    destruct (IH e1 eq_refl) as (HG & Hcin & Hdisk & Hcout & Hflags).
    destruct (isVisible c fuel n (store e1)) as [[v h]|] eqn:Hv;
      cbn [found mbind outcome_bind]; [|discriminate].
    pose proof (verdict_geometry _ _ _ _ _ _ _ (same_geometry_sym _ _ HG) Hv)
      as Hverdict.
    pose proof (same_geometry_trans _ _ _ HG
                  (isVisible_geometry_out _ _ _ _ _ _ Hv)) as HG'.
    destruct (isVisible_frame _ _ _ _ _ _ Hv)
      as (Hoth & (n1 & n' & Hn1 & Hn' & Hc)).
    assert (Hflags' : forall x, x ∈ all ++ [n] ->
              visible <$> h !! x = Some (verdict c fuel (store e) x)).
    { intros x Hx. destruct (decide (x = n)) as [->|Hne].
      - rewrite Hn', Hverdict. cbn [fmap option_fmap option_map].
        destruct Hc as (_&_&_&_&_&->&_). reflexivity.
      - apply elem_of_app in Hx as [Hx|Hx];
          [|apply list_elem_of_singleton in Hx; contradiction].
        rewrite <- (Hflags x Hx). specialize (Hoth x Hne).
        destruct Hoth as [a a' Hc'|]; [|reflexivity].
        cbn [fmap option_fmap option_map].
        destruct Hc' as (_&_&_&_&_&->&_). reflexivity. }
    rewrite List.filter_app, map_app, concat_app. cbn [List.filter].
    rewrite Hverdict.
    destruct v.
    + rewrite Hn'. cbn [found mbind outcome_bind]. intros [= <-].
      cbn [store cin disk cout put with_store].
      split; [exact HG'|]. split; [exact Hcin|]. split; [exact Hdisk|].
      split; [|exact Hflags'].
      rewrite Hcout, <- app_assoc. do 2 f_equal.
      cbn [map concat]. rewrite app_nil_r. unfold visible_line.
      destruct (same_geometry_lookup _ _ _ _ (same_geometry_sym _ _ HG') Hn')
        as (n0 & Hn0 & Hname & _).
      rewrite Hn0. cbn [from_option]. rewrite Hname. reflexivity.
    + intros [= <-]. cbn [store cin disk cout with_store].
      split; [exact HG'|]. split; [exact Hcin|]. split; [exact Hdisk|].
      split; [|exact Hflags'].
      cbn [map concat]. rewrite app_nil_r. exact Hcout.
Qed.

(** X22.  [cullAndPrint] forgets what the partitioner had and registers the
    nodes of the scene in pre-order.  It prints one line for each node
    that [isVisible] accepts, in that order, and leaves every node's flag
    at that answer; the answers are those [isVisible] gives on the store
    before the call, so no answer depends on the calls before it.  Names,
    parents, boxes and local matrices stay as they were. *)
Theorem cullAndPrint_spec (fuel : nat) (ui ui' : UI) (e e' : Env FS) :
  cullAndPrint fuel ui e = Returns (ui', e') ->
  let culler := FrustumCuller_new (mat4_diag f1) in
  exists all : list nat,
    gather fuel (root ui) (store e) [] = Some all /\
    root ui' = root ui /\
    registered (partitioner ui') = all /\
    cin e' = cin e /\ disk e' = disk e /\
    cout e' = cout e ++ lit "Visible Nodes:" ++ [nl] ++
              concat (map (visible_line (store e))
                        (List.filter (verdict culler fuel (store e)) all)) /\
    (forall x, x ∈ all ->
       visible <$> store e' !! x = Some (verdict culler fuel (store e) x)) /\
    same_geometry (store e) (store e').
Proof.
  unfold cullAndPrint.
  destruct (gather fuel (root ui) (store e) []) as [all|];
    cbn [found mbind outcome_bind]; [|discriminate].
  destruct (cull_loop _ _ _ _) as [e1| |] eqn:Hc;
    cbn [mbind outcome_bind]; [|discriminate..].
  intros [= <- <-]. cbv zeta.
  destruct (cull_loop_spec _ _ _ _ _ Hc) as (HG & Hcin & Hdisk & Hcout & Hfl).
  cbn [store cin disk cout put] in *.
  exists all. split; [reflexivity|]. split; [reflexivity|]. split.
  - cbn [partitioner]. rewrite registered_inserts.
    destruct (partitioner ui); reflexivity.
  - split; [exact Hcin|]. split; [exact Hdisk|]. split; [|split; assumption].
    rewrite Hcout, <- !app_assoc. reflexivity.
Qed.

End Culling.

Lemma cullAndPrint_spec_witness :
  let far := set_transform
               (setPosition (mkVec3 (float_of_Z 5) f0 f0) Transform_new)
               (set_parent (Some 0%nat) (SceneNode_new "far")) in
  let h : gmap nat SceneNode :=
    <[1%nat := far]> {[0%nat := set_children [1%nat] (SceneNode_new "Root")]} in
  let ui := mkUI 0%nat (ABSPTree (BSPTree.insert 7%nat
                                    (BSPTree.new (mkVec3 f0 f1 f0) f0))) in
  let e := mkEnv (Good []) [] h tt in
  exists (ui' : UI) (e' : Env unit),
    cullAndPrint 2 ui e = Returns (ui', e') /\
    registered (partitioner ui') = [0%nat; 1%nat] /\
    cout e' = lit "Visible Nodes:" ++ [nl] ++ lit "  Root" ++ [nl].
Proof.
  intros far h ui e.
  destruct (cullAndPrint 2 ui e) as [[ui' e']| |] eqn:E;
    [| vm_compute in E; discriminate E ..].
  exists ui', e'. split; [reflexivity|].
  pose proof (cullAndPrint_spec 2 ui ui' e e' E) as Hspec.
  cbv zeta in Hspec.
  destruct Hspec as (all & Hg & _ & Hreg & _ & _ & Hout & _).
  assert (Hall : all = [0%nat; 1%nat]).
  { vm_compute in Hg. injection Hg as <-. reflexivity. }
  rewrite Hall in Hreg, Hout. split; [exact Hreg|]. rewrite Hout.
  vm_compute. reflexivity.
Defined.

(** ** What [draw] prints *)





(** ** Input the menu does not expect *)

Lemma read_float_Failed : read_float Failed = (None, Failed).
Proof. reflexivity. Qed.

Section Malformed.

Context {FS : Type} (fs_read : string -> FS -> option (list ascii))
        (fs_write : string -> list ascii -> FS -> FS).

(** X24.  A number that is missing or malformed is not reported: [moveNode],
    once it has found its node, goes on to use coordinates that no
    extraction has written as soon as one of the first two extractions
    fails, and [switchPartitioner] does so with its selector when the
    input has ended; a selector that is no number selects the BSP tree. *)
Theorem malformed_numbers_are_not_reported (fuel : nat) (ui : UI)
    (e : Env FS) :
  (forall x : nat,
     let w := read_word (cin e) in
     let r1 := read_float (snd w) in
     let r2 := read_float (snd r1) in
     findNode fuel (default EmptyString (fst w)) (root ui) (store e)
     = Some (Some x) ->
     snd r1 = Failed \/ snd r2 = Failed ->
     moveNode fuel ui e = Undefined) /\
  (fst (read_int (cin e)) = None -> switchPartitioner ui e = Undefined) /\
  (forall s, read_int (cin e) = (Some 0, s) ->
     switchPartitioner ui e
     = Returns (mkUI (root ui) (ABSPTree (BSPTree.new (mkVec3 f0 f1 f0) f0)),
                with_cin s (put (lit "1.Octree 2.BSP: ") e))).
Proof.
  split; [|split].
  - intros x w r1 r2 Hfind Hfail. unfold moveNode.
    cbn [cin put with_cin store]. fold w.
    destruct w as [o s1] eqn:Hw. rewrite extracted_word_pair.
    cbn [fst snd] in *. rewrite Hfind. cbn [found mbind outcome_bind cin put].
    fold r1. destruct r1 as [[px|] s2] eqn:Hr1;
      cbn [extracted mbind outcome_bind]; [|reflexivity].
    cbn [snd] in *. fold r2.
    destruct r2 as [[py|] s3] eqn:Hr2;
      cbn [extracted mbind outcome_bind]; [|reflexivity].
    cbn [snd] in Hfail. destruct Hfail as [->| ->].
    + subst r2. rewrite read_float_Failed in Hr2. discriminate Hr2.
    + rewrite read_float_Failed. reflexivity.
  - intros Hnone. unfold switchPartitioner. cbn [cin put].
    destruct (read_int (cin e)) as [[c|] s]; [discriminate Hnone|].
    reflexivity.
  - intros s Hr. unfold switchPartitioner. cbn [cin put]. rewrite Hr.
    reflexivity.
Qed.

(** X25.  A parent name that is not found costs the session: [addNode] returns
    before it reads the node name, the loop takes that name for the next
    choice, the extraction fails unless the name is a number, and [run]
    does not return any more. *)
Theorem unknown_parent_ends_the_session (rounds fuel : nat) (choice : Z)
    (ui : UI) (e : Env FS) (s1 : istream) :
  choice <> 9 ->
  read_int (cin e) = (Some 1, s1) ->
  findNode fuel (default EmptyString (fst (read_word s1))) (root ui) (store e)
  = Some None ->
  snd (read_int (snd (read_word s1))) = Failed ->
  forall res, run_loop fs_read fs_write rounds fuel choice ui e <> Returns res.
Proof.
  intros Hch Hread Hfind Hnext res.
  destruct rounds as [|rounds]; [discriminate|].
  cbn [run_loop]. destruct (Z.eqb_spec choice 9) as [?|_]; [contradiction|].
  cbn [cin put]. rewrite Hread. cbn [default].
  unfold dispatch. cbn [Z.eqb Pos.eqb]. unfold addNode.
  cbn [cin put with_cin store].
  destruct (read_word s1) as [o s2]. rewrite extracted_word_pair.
  cbn [fst snd] in *. rewrite Hfind. cbn [found mbind outcome_bind].
  apply run_loop_stuck; [discriminate | exact Hnext].
Qed.

End Malformed.

Lemma malformed_numbers_are_not_reported_witness :
  let ui := fst (UI_new ∅) in
  let e := mkEnv (Good (lit "Root 1 x 3")) [] (snd (UI_new ∅)) tt in
  moveNode 1 ui e = Undefined /\
  switchPartitioner ui (with_cin (Good []) e) = Undefined.
Proof.
  intros ui e. split.
  - apply (proj1 (malformed_numbers_are_not_reported 1 ui e) (root ui)).
    + vm_compute. reflexivity.
    + right. vm_compute. reflexivity.
  - apply (proj1 (proj2 (malformed_numbers_are_not_reported 1 ui
                           (with_cin (Good []) e)))).
    reflexivity.
Defined.

Lemma unknown_parent_ends_the_session_witness :
  let fs_read := fun (_ : string) (_ : unit) => @None (list ascii) in
  let fs_write := fun (_ : string) (_ : list ascii) (d : unit) => d in
  let e := mkEnv (Good (lit "1 Nobody Child 9")) [] ∅ tt in
  read_int (cin e) = (Some 1, Good (lit " Nobody Child 9")) /\
  (forall res, main fs_read fs_write 6 2 e <> Returns res).
Proof.
  intros fs_read fs_write e.
  assert (Hr : read_int (cin e) = (Some 1, Good (lit " Nobody Child 9")))
    by (vm_compute; reflexivity).
  split; [exact Hr|]. intros res. unfold main, run.
  destruct (UI_new (store e)) as [ui h] eqn:Hui.
  apply (unknown_parent_ends_the_session fs_read fs_write 6 2 0 ui
           (with_store h e) (Good (lit " Nobody Child 9"))).
  - discriminate.
  - exact Hr.
  - vm_compute in Hui. injection Hui as <- <-. vm_compute. reflexivity.
  - vm_compute. reflexivity.
Defined.
